(** * smash-fest: vehicle physics, collision damage, reconciliation and relay

    A shallow embedding of the game core of the repository:
    - [app/game/constants.ts], [app/game/types.ts], [app/game/car.ts],
    - [app/game/physics.ts] (integrator, vehicle-vehicle and wall collision),
    - [app/game/multiplayer.ts] and [hooks/useMultiplayer.ts]
      (snapshots, reconciliation map, interpolation),
    - [app/game/page.tsx] (the per-tick loop [updatePhysics]),
    - [party/server.ts] (the relay).

    JavaScript numbers are modelled as real numbers: every arithmetic
    operation is exact, [Math.sqrt], [Math.cos], [Math.sin] and [Math.PI]
    are the real functions and constant.  The results of [Math.random()]
    and [Date.now()] are explicit arguments of the functions that call
    them.  Objects mutated in place become values threaded through the
    functions, in the order of the source's assignments.

    Two places of the code behave on the program's binary64 numbers in a
    way no real number shows, and are embedded a second time on binary64
    (the kernel's primitive floats): the two [while] loops that bring an
    angle into [[-PI, PI]] in [getHitZone] and in the angle blend of
    [interpolateOtherPlayers].  On reals each round removes a whole turn
    and the loops always leave; on binary64 a round rounds, and from about
    1e16 it no longer changes the number at all.  The statements about
    whole turns are therefore made for angles within a hundred turns (see
    [fewTurns]), and the loops on binary64 show what happens far
    outside. *)

From Stdlib Require Import PrimFloat.
From Stdlib Require Import Reals Lra Lia ZArith Zfloor.
From stdpp Require Import gmap strings list.

Open Scope R_scope.

(** ** JavaScript comparisons and [Math] functions on numbers *)

Definition Rltb (a b : R) : bool := if Rlt_dec a b then true else false.
Definition Rleb (a b : R) : bool := if Rle_dec a b then true else false.
Definition Reqb (a b : R) : bool := if Req_dec_T a b then true else false.

(** [Math.round]: the nearest integer, ties towards +infinity. *)
Definition Math_round (v : R) : R := IZR (Zfloor (v + / 2)).

(** [Math.atan2(y, x)] on numbers without signed zeros. *)
Definition Math_atan2 (y x : R) : R :=
  if Rltb 0 x then atan (y / x)
  else if Rltb x 0 then
    (if Rleb 0 y then atan (y / x) + PI else atan (y / x) - PI)
  else if Rltb 0 y then PI / 2
  else if Rltb y 0 then - (PI / 2)
  else 0.

(** ** constants.ts *)

Definition CANVAS_WIDTH : R := 900.
Definition CANVAS_HEIGHT : R := 600.
Definition WORLD_WIDTH : R := 2700.
Definition WORLD_HEIGHT : R := 1800.
Definition CAR_WIDTH : R := 50.
Definition CAR_HEIGHT : R := 30.
Definition WALL_THICKNESS : R := 20.
Definition ACCELERATION : R := 0.15.
Definition BRAKE_DECEL : R := 0.1.
Definition MAX_SPEED : R := 8.
Definition TURN_RATE : R := 0.025.
Definition FORWARD_FRICTION : R := 0.98.
Definition SIDEWAYS_FRICTION : R := 0.85.
Definition ANGULAR_FRICTION : R := 0.85.
Definition BOUNCE_FACTOR : R := 0.5.
Definition COLLISION_DAMPING : R := 0.7.
Definition MIN_SPEED_TO_TURN : R := 0.5.
Definition MAX_ANGULAR_VEL : R := 0.08.
Definition DAMAGE_MULTIPLIER : R := 3.
Definition MIN_IMPACT_FOR_DAMAGE : R := 2.
Definition ATTACKER_DAMAGE_RATIO : R := 0.15.

(** ** types.ts *)

Inductive HitZone : Type := Zfront | Zrear | Zleft | Zright.

#[global] Instance HitZone_eq_dec : EqDecision HitZone.
Proof. solve_decision. Defined.

Module Health.
Record t : Type := mk { front : R; rear : R; left : R; right : R }.

(** [health[zone]] *)
Definition get (z : HitZone) (h : t) : R :=
  match z with
  | Zfront => front h | Zrear => rear h | Zleft => left h | Zright => right h
  end.

(** [health[zone] = v] *)
Definition set (z : HitZone) (v : R) (h : t) : t :=
  match z with
  | Zfront => mk v (rear h) (left h) (right h)
  | Zrear => mk (front h) v (left h) (right h)
  | Zleft => mk (front h) (rear h) v (right h)
  | Zright => mk (front h) (rear h) (left h) v
  end.
End Health.

Module Car.
Record t : Type := mk {
  x : R; y : R; vx : R; vy : R; angle : R; angularVel : R;
  width : R; height : R; color : string; health : Health.t;
  isStatic : bool }.

Definition with_x (c : t) (v : R) : t :=
  mk v (y c) (vx c) (vy c) (angle c) (angularVel c) (width c) (height c)
     (color c) (health c) (isStatic c).
Definition with_y (c : t) (v : R) : t :=
  mk (x c) v (vx c) (vy c) (angle c) (angularVel c) (width c) (height c)
     (color c) (health c) (isStatic c).
Definition with_vx (c : t) (v : R) : t :=
  mk (x c) (y c) v (vy c) (angle c) (angularVel c) (width c) (height c)
     (color c) (health c) (isStatic c).
Definition with_vy (c : t) (v : R) : t :=
  mk (x c) (y c) (vx c) v (angle c) (angularVel c) (width c) (height c)
     (color c) (health c) (isStatic c).
Definition with_angle (c : t) (v : R) : t :=
  mk (x c) (y c) (vx c) (vy c) v (angularVel c) (width c) (height c)
     (color c) (health c) (isStatic c).
Definition with_angularVel (c : t) (v : R) : t :=
  mk (x c) (y c) (vx c) (vy c) (angle c) v (width c) (height c)
     (color c) (health c) (isStatic c).
Definition with_color (c : t) (v : string) : t :=
  mk (x c) (y c) (vx c) (vy c) (angle c) (angularVel c) (width c) (height c)
     v (health c) (isStatic c).
Definition with_health (c : t) (v : Health.t) : t :=
  mk (x c) (y c) (vx c) (vy c) (angle c) (angularVel c) (width c) (height c)
     (color c) v (isStatic c).
Definition with_isStatic (c : t) (v : bool) : t :=
  mk (x c) (y c) (vx c) (vy c) (angle c) (angularVel c) (width c) (height c)
     (color c) (health c) v.
End Car.

Module AnalogInput.
Record t : Type := mk { forward : R; reverse : R; left : R; right : R }.
End AnalogInput.

Module DamagePopup.
Record t : Type := mk { x : R; y : R; damage : R; zone : HitZone; age : R }.
End DamagePopup.

Module Point.
Record t : Type := mk { x : R; y : R }.
End Point.

(** ** car.ts *)

Definition createCar (x y : R) (color : string) (angle : R) (isStatic : bool)
  : Car.t :=
  {| Car.x := x; Car.y := y; Car.vx := 0; Car.vy := 0; Car.angle := angle;
     Car.angularVel := 0; Car.width := CAR_WIDTH; Car.height := CAR_HEIGHT;
     Car.color := color; Car.health := Health.mk 100 100 100 100;
     Car.isStatic := isStatic |}.

Definition getCarCorners (car : Car.t) : list Point.t :=
  let c := cos (Car.angle car) in
  let s := sin (Car.angle car) in
  let hw := Car.width car / 2 in
  let hh := Car.height car / 2 in
  [ Point.mk (Car.x car + c * hw - s * hh) (Car.y car + s * hw + c * hh);
    Point.mk (Car.x car + c * hw + s * hh) (Car.y car + s * hw - c * hh);
    Point.mk (Car.x car - c * hw + s * hh) (Car.y car - s * hw - c * hh);
    Point.mk (Car.x car - c * hw - s * hh) (Car.y car - s * hw + c * hh) ].

(** [while (a > Math.PI) a -= 2 * Math.PI], run for at most [fuel] rounds. *)
Fixpoint whileAbovePi (fuel : nat) (a : R) : R :=
  match fuel with
  | O => a
  | S fuel' => if Rltb PI a then whileAbovePi fuel' (a - 2 * PI) else a
  end.

(** [while (a < -Math.PI) a += 2 * Math.PI], run for at most [fuel] rounds. *)
Fixpoint whileBelowNegPi (fuel : nat) (a : R) : R :=
  match fuel with
  | O => a
  | S fuel' => if Rltb a (- PI) then whileBelowNegPi fuel' (a + 2 * PI) else a
  end.

(** A number of rounds after which either loop has left its condition
    (see [whileAbovePi_exits] and [whileBelowNegPi_exits]). *)
Definition rounds (a : R) : nat := Z.to_nat (up (Rabs a / (2 * PI))).

(** The two loops in sequence, as in [getHitZone] and in the angle blend
    of [interpolateOtherPlayers]. *)
Definition wrapAngle (a : R) : R :=
  let a1 := whileAbovePi (rounds a) a in
  whileBelowNegPi (rounds a1) a1.

(** The [if]/[else if] chain of [getHitZone] on the wrapped angle. *)
Definition zoneOfRelative (relativeAngle : R) : HitZone :=
  if Rleb (- PI / 4) relativeAngle && Rltb relativeAngle (PI / 4) then Zfront
  else if Rleb (PI / 4) relativeAngle && Rltb relativeAngle (3 * PI / 4)
  then Zright
  else if Rleb (-3 * PI / 4) relativeAngle && Rltb relativeAngle (- PI / 4)
  then Zleft
  else Zrear.

Definition getHitZone (car : Car.t) (collisionAngle : R) : HitZone :=
  let relativeAngle := collisionAngle - Car.angle car in
  zoneOfRelative (wrapAngle relativeAngle).

Definition checkCarCollision (car1 car2 : Car.t) : bool :=
  let dx := Car.x car2 - Car.x car1 in
  let dy := Car.y car2 - Car.y car1 in
  let distance := sqrt (dx * dx + dy * dy) in
  let minDistance := (Car.width car1 + Car.width car2) / 2 * 0.85 in
  Rltb distance minDistance.

Definition getTotalHealth (car : Car.t) : R :=
  let h := Car.health car in
  (Health.front h + Health.rear h + Health.left h + Health.right h) / 4.

(** *** [getHitZone] on binary64 *)







(** ** physics.ts *)

(** [updatePlayerCarPhysics] is written as its five blocks in sequence,
    each block a function of the car the block before it leaves. *)

(** [currentSpeed] and [steeringFactor]. *)
Definition steeringFactor (car : Car.t) : R :=
  let currentSpeed :=
    sqrt (Car.vx car * Car.vx car + Car.vy car * Car.vy car) in
  if Rltb currentSpeed MIN_SPEED_TO_TURN
  then currentSpeed / MIN_SPEED_TO_TURN * 0.3
  else Rmin 1 (currentSpeed / 3).

(** Steering: the two analog turns, the clamp, the angular friction and
    the integration into the heading. *)
Definition steer (car : Car.t) (input : AnalogInput.t) : Car.t :=
  let steeringFactor := steeringFactor car in
  let car :=
    if Rltb 0 (AnalogInput.left input)
    then Car.with_angularVel car
           (Car.angularVel car
            - TURN_RATE * steeringFactor * AnalogInput.left input)
    else car in
  let car :=
    if Rltb 0 (AnalogInput.right input)
    then Car.with_angularVel car
           (Car.angularVel car
            + TURN_RATE * steeringFactor * AnalogInput.right input)
    else car in
  let car :=
    Car.with_angularVel car
      (Rmax (- MAX_ANGULAR_VEL) (Rmin MAX_ANGULAR_VEL (Car.angularVel car))) in
  let car := Car.with_angularVel car (Car.angularVel car * ANGULAR_FRICTION) in
  Car.with_angle car (Car.angle car + Car.angularVel car).

(** Forward acceleration and reverse (braking or true reverse). *)
Definition accelerate (car : Car.t) (input : AnalogInput.t) : Car.t :=
  let forwardX := cos (Car.angle car) in
  let forwardY := sin (Car.angle car) in
  let car :=
    if Rltb 0 (AnalogInput.forward input)
    then
      let car :=
        Car.with_vx car
          (Car.vx car + forwardX * ACCELERATION * AnalogInput.forward input) in
      Car.with_vy car
        (Car.vy car + forwardY * ACCELERATION * AnalogInput.forward input)
    else car in
  if Rltb 0 (AnalogInput.reverse input)
  then
    let forwardSpeed := Car.vx car * forwardX + Car.vy car * forwardY in
    if Rltb 0.5 forwardSpeed
    then
      let car :=
        Car.with_vx car
          (Car.vx car - forwardX * BRAKE_DECEL * AnalogInput.reverse input) in
      Car.with_vy car
        (Car.vy car - forwardY * BRAKE_DECEL * AnalogInput.reverse input)
    else
      let car :=
        Car.with_vx car
          (Car.vx car
           - forwardX * ACCELERATION * 0.5 * AnalogInput.reverse input) in
      Car.with_vy car
        (Car.vy car
         - forwardY * ACCELERATION * 0.5 * AnalogInput.reverse input)
  else car.

(** Friction along and across the heading. *)
Definition applyFriction (car : Car.t) : Car.t :=
  let forwardX := cos (Car.angle car) in
  let forwardY := sin (Car.angle car) in
  let rightX := - forwardY in
  let rightY := forwardX in
  let forwardVel := Car.vx car * forwardX + Car.vy car * forwardY in
  let sidewaysVel := Car.vx car * rightX + Car.vy car * rightY in
  let newForwardVel := forwardVel * FORWARD_FRICTION in
  let newSidewaysVel := sidewaysVel * SIDEWAYS_FRICTION in
  let car :=
    Car.with_vx car (forwardX * newForwardVel + rightX * newSidewaysVel) in
  Car.with_vy car (forwardY * newForwardVel + rightY * newSidewaysVel).

(** [newSpeed] and the clamp of the speed to [MAX_SPEED]. *)
Definition limitSpeed (car : Car.t) : Car.t * R :=
  let newSpeed :=
    sqrt (Car.vx car * Car.vx car + Car.vy car * Car.vy car) in
  let car :=
    if Rltb MAX_SPEED newSpeed
    then
      let car := Car.with_vx car (Car.vx car / newSpeed * MAX_SPEED) in
      Car.with_vy car (Car.vy car / newSpeed * MAX_SPEED)
    else car in
  (car, newSpeed).

(** [car.x += car.vx; car.y += car.vy] *)
Definition move (car : Car.t) : Car.t :=
  let car := Car.with_x car (Car.x car + Car.vx car) in
  Car.with_y car (Car.y car + Car.vy car).

(** [updatePlayerCarPhysics]: the car after the tick and the returned
    speed. *)
Definition updatePlayerCarPhysics (car : Car.t) (input : AnalogInput.t)
  : Car.t * R :=
  let car := steer car input in
  let car := accelerate car input in
  let car := applyFriction car in
  let '(car, newSpeed) := limitSpeed car in
  (move car, newSpeed).

(** The locals of [handleCarCollision] computed before any mutation. *)
Definition centerDistance (playerCar targetCar : Car.t) : R :=
  let dx := Car.x targetCar - Car.x playerCar in
  let dy := Car.y targetCar - Car.y playerCar in
  sqrt (dx * dx + dy * dy).

(** [impactComponent = relVx * nx + relVy * ny] *)
Definition impactComponent (playerCar targetCar : Car.t) : R :=
  let dx := Car.x targetCar - Car.x playerCar in
  let dy := Car.y targetCar - Car.y playerCar in
  let distance := centerDistance playerCar targetCar in
  let nx := dx / distance in
  let ny := dy / distance in
  let relVx := Car.vx playerCar - Car.vx targetCar in
  let relVy := Car.vy playerCar - Car.vy targetCar in
  relVx * nx + relVy * ny.

(** [impactSpeed = Math.abs(relVx * nx + relVy * ny)] *)
Definition impactSpeed (playerCar targetCar : Car.t) : R :=
  Rabs (impactComponent playerCar targetCar).

(** [handleCarCollision]: both cars and the popup array after the call,
    and the returned time.  [rnd1] and [rnd2] are the two [Math.random()]
    results and [now] is [Date.now()]; they are read only on the paths
    that reach the calls.  The source reads [relVx], [relVy], [nx] and
    [ny] after it has pushed the cars apart; the push writes [x] and [y]
    only and [nx], [ny] are locals computed before it, so [impactSpeed]
    and [impactComponent] are those of the two cars as passed in. *)
Definition handleCarCollision (playerCar targetCar : Car.t)
    (lastCollisionTime : Z) (damagePopups : list DamagePopup.t)
    (rnd1 rnd2 : R) (now : Z)
  : Car.t * Car.t * list DamagePopup.t * Z :=
  if negb (checkCarCollision playerCar targetCar)
  then (playerCar, targetCar, damagePopups, lastCollisionTime)
  else
  let dx := Car.x targetCar - Car.x playerCar in
  let dy := Car.y targetCar - Car.y playerCar in
  let distance := centerDistance playerCar targetCar in
  let minDist := (Car.width playerCar + Car.width targetCar) / 2 * 0.85 in
  if Rleb minDist distance || Reqb distance 0
  then (playerCar, targetCar, damagePopups, lastCollisionTime)
  else
  let nx := dx / distance in
  let ny := dy / distance in
  let overlap := minDist - distance in
  let separationForce := overlap + 2 in
  let impactSpeed := impactSpeed playerCar targetCar in
  let bounce := 0.7 in
  let impactComponent := impactComponent playerCar targetCar in
  let playerCar :=
    Car.with_x playerCar (Car.x playerCar - nx * separationForce * 0.6) in
  let playerCar :=
    Car.with_y playerCar (Car.y playerCar - ny * separationForce * 0.6) in
  let targetCar :=
    Car.with_x targetCar (Car.x targetCar + nx * separationForce * 0.4) in
  let targetCar :=
    Car.with_y targetCar (Car.y targetCar + ny * separationForce * 0.4) in
  let '(playerCar, targetCar) :=
    if Rltb 0 impactComponent
    then
      let playerCar :=
        Car.with_vx playerCar
          (Car.vx playerCar - nx * impactComponent * bounce) in
      let playerCar :=
        Car.with_vy playerCar
          (Car.vy playerCar - ny * impactComponent * bounce) in
      let targetCar :=
        Car.with_vx targetCar
          (Car.vx targetCar + nx * impactComponent * bounce * 0.8) in
      let targetCar :=
        Car.with_vy targetCar
          (Car.vy targetCar + ny * impactComponent * bounce * 0.8) in
      (playerCar, targetCar)
    else
      let playerCar :=
        Car.with_vx playerCar
          (Car.vx playerCar - nx * impactComponent * bounce * 0.8) in
      let playerCar :=
        Car.with_vy playerCar
          (Car.vy playerCar - ny * impactComponent * bounce * 0.8) in
      let targetCar :=
        Car.with_vx targetCar
          (Car.vx targetCar + nx * impactComponent * bounce) in
      let targetCar :=
        Car.with_vy targetCar
          (Car.vy targetCar + ny * impactComponent * bounce) in
      (playerCar, targetCar) in
  let playerCar :=
    Car.with_angularVel playerCar
      (Car.angularVel playerCar + (rnd1 - 0.5) * 0.1) in
  let targetCar :=
    Car.with_angularVel targetCar
      (Car.angularVel targetCar + (rnd2 - 0.5) * 0.12) in
  if (now - lastCollisionTime <? 150)%Z
  then (playerCar, targetCar, damagePopups, lastCollisionTime)
  else
  if Rltb MIN_IMPACT_FOR_DAMAGE impactSpeed
  then
    let collisionAngle := Math_atan2 dy dx in
    let playerHitZone := getHitZone playerCar collisionAngle in
    let targetHitZone := getHitZone targetCar (collisionAngle + PI) in
    let damage :=
      Math_round ((impactSpeed - MIN_IMPACT_FOR_DAMAGE) * DAMAGE_MULTIPLIER) in
    let playerCar :=
      Car.with_health playerCar
        (Health.set playerHitZone
           (Rmax 0 (Health.get playerHitZone (Car.health playerCar)
                    - damage * ATTACKER_DAMAGE_RATIO))
           (Car.health playerCar)) in
    let targetCar :=
      Car.with_health targetCar
        (Health.set targetHitZone
           (Rmax 0 (Health.get targetHitZone (Car.health targetCar) - damage))
           (Car.health targetCar)) in
    let popup :=
      {| DamagePopup.x := (Car.x playerCar + Car.x targetCar) / 2;
         DamagePopup.y := (Car.y playerCar + Car.y targetCar) / 2 - 20;
         DamagePopup.damage := damage;
         DamagePopup.zone := targetHitZone;
         DamagePopup.age := 0 |} in
    (playerCar, targetCar, damagePopups ++ [popup], now)
  else (playerCar, targetCar, damagePopups, lastCollisionTime).

(** The body of the [for (const corner of corners)] loop of
    [handleWallCollisions] is four independent [if]s on one corner, one
    per wall. *)
Definition wallLeft (st : Car.t * bool) (corner : Point.t) : Car.t * bool :=
  let '(car, collided) := st in
  if Rltb (Point.x corner) WALL_THICKNESS
  then
    let car :=
      Car.with_x car (Car.x car + (WALL_THICKNESS - Point.x corner)) in
    let car := Car.with_vx car (Rabs (Car.vx car) * BOUNCE_FACTOR) in
    let car := Car.with_vx car (Car.vx car * COLLISION_DAMPING) in
    let car := Car.with_vy car (Car.vy car * COLLISION_DAMPING) in
    (car, true)
  else (car, collided).

Definition wallRight (st : Car.t * bool) (corner : Point.t) : Car.t * bool :=
  let '(car, collided) := st in
  if Rltb (WORLD_WIDTH - WALL_THICKNESS) (Point.x corner)
  then
    let car :=
      Car.with_x car
        (Car.x car - (Point.x corner - (WORLD_WIDTH - WALL_THICKNESS))) in
    let car := Car.with_vx car (- Rabs (Car.vx car) * BOUNCE_FACTOR) in
    let car := Car.with_vx car (Car.vx car * COLLISION_DAMPING) in
    let car := Car.with_vy car (Car.vy car * COLLISION_DAMPING) in
    (car, true)
  else (car, collided).

Definition wallTop (st : Car.t * bool) (corner : Point.t) : Car.t * bool :=
  let '(car, collided) := st in
  if Rltb (Point.y corner) WALL_THICKNESS
  then
    let car :=
      Car.with_y car (Car.y car + (WALL_THICKNESS - Point.y corner)) in
    let car := Car.with_vy car (Rabs (Car.vy car) * BOUNCE_FACTOR) in
    let car := Car.with_vx car (Car.vx car * COLLISION_DAMPING) in
    let car := Car.with_vy car (Car.vy car * COLLISION_DAMPING) in
    (car, true)
  else (car, collided).

Definition wallBottom (st : Car.t * bool) (corner : Point.t) : Car.t * bool :=
  let '(car, collided) := st in
  if Rltb (WORLD_HEIGHT - WALL_THICKNESS) (Point.y corner)
  then
    let car :=
      Car.with_y car
        (Car.y car - (Point.y corner - (WORLD_HEIGHT - WALL_THICKNESS))) in
    let car := Car.with_vy car (- Rabs (Car.vy car) * BOUNCE_FACTOR) in
    let car := Car.with_vx car (Car.vx car * COLLISION_DAMPING) in
    let car := Car.with_vy car (Car.vy car * COLLISION_DAMPING) in
    (car, true)
  else (car, collided).

Definition wallCorner (st : Car.t * bool) (corner : Point.t) : Car.t * bool :=
  wallBottom (wallTop (wallRight (wallLeft st corner) corner) corner) corner.

(** [handleWallCollisions]: the corners are computed once, before the
    loop; [rnd] is the [Math.random()] of the final angular kick. *)
Definition handleWallCollisions (car : Car.t) (rnd : R) : Car.t * bool :=
  let corners := getCarCorners car in
  let '(car, collided) := fold_left wallCorner corners (car, false) in
  let car :=
    if collided
    then Car.with_angularVel car (Car.angularVel car + (rnd - 0.5) * 0.1)
    else car in
  (car, collided).

(** [updateDamagePopups] *)
Definition updateDamagePopups (popups : list DamagePopup.t)
  : list DamagePopup.t :=
  filter (fun p => Rltb (DamagePopup.age p) 60 = true)
    (map (fun p =>
            {| DamagePopup.x := DamagePopup.x p;
               DamagePopup.y := DamagePopup.y p - 1;
               DamagePopup.damage := DamagePopup.damage p;
               DamagePopup.zone := DamagePopup.zone p;
               DamagePopup.age := DamagePopup.age p + 1 |}) popups).

(** ** multiplayer.ts *)

Module PlayerState.
Record t : Type := mk {
  id : string; x : R; y : R; vx : R; vy : R; angle : R; angularVel : R;
  color : string; health : Health.t }.

(** [{ ...state, id: newId }] *)
Definition with_id (s : t) (newId : string) : t :=
  mk newId (x s) (y s) (vx s) (vy s) (angle s) (angularVel s) (color s)
     (health s).
End PlayerState.

(** A JSON object [Record<string, PlayerState>] as its properties in
    enumeration order; [Object.values] keeps that order. *)
Definition Roster : Type := list (string * PlayerState.t).

Definition Object_values (players : Roster) : list PlayerState.t :=
  map snd players.

Inductive ServerMessage : Type :=
| MsgPlayers (players : Roster)
| MsgPlayerJoined (player : PlayerState.t)
| MsgPlayerLeft (id : string)
| MsgWelcome (id : string) (players : Roster).

Inductive ClientMessage : Type :=
| MsgUpdate (state : PlayerState.t)
| MsgJoin (color : string)
| MsgLeave.

Definition playerStateToCar (state : PlayerState.t) : Car.t :=
  {| Car.x := PlayerState.x state; Car.y := PlayerState.y state;
     Car.vx := PlayerState.vx state; Car.vy := PlayerState.vy state;
     Car.angle := PlayerState.angle state;
     Car.angularVel := PlayerState.angularVel state;
     Car.width := 50; Car.height := 30;
     Car.color := PlayerState.color state;
     Car.health := PlayerState.health state;
     Car.isStatic := false |}.

Definition carToPlayerState (car : Car.t) (id : string) : PlayerState.t :=
  {| PlayerState.id := id;
     PlayerState.x := Car.x car; PlayerState.y := Car.y car;
     PlayerState.vx := Car.vx car; PlayerState.vy := Car.vy car;
     PlayerState.angle := Car.angle car;
     PlayerState.angularVel := Car.angularVel car;
     PlayerState.color := Car.color car;
     PlayerState.health := Car.health car |}.

(** ** hooks/useMultiplayer.ts *)

Definition INTERPOLATION_FACTOR : R := 0.3.

(** [InterpolatedCar].  The spread [{ ...car }] is a shallow copy: the new
    [current] holds the very [health] object of [target].  [sharedHealth]
    records that the two cars hold one and the same health object, so a
    write through one is seen through the other; it is the only object
    two cars of this program can share. *)
Module InterpolatedCar.
Record t : Type := mk {
  current : Car.t; target : Car.t; sharedHealth : bool }.
End InterpolatedCar.

(** A JavaScript [Map<string, V>]: entries in insertion order, keys
    unique. *)
Definition JsMap (V : Type) : Type := list (string * V).

Fixpoint Map_get {V : Type} (k : string) (m : JsMap V) : option V :=
  match m with
  | [] => None
  | (k', v) :: m' => if decide (k = k') then Some v else Map_get k m'
  end.

(** [set] replaces the value of a present key where it stands and appends
    a new key at the end. *)
Fixpoint Map_set {V : Type} (k : string) (v : V) (m : JsMap V) : JsMap V :=
  match m with
  | [] => [(k, v)]
  | (k', v') :: m' =>
      if decide (k = k') then (k, v) :: m' else (k', v') :: Map_set k v m'
  end.

Fixpoint Map_delete {V : Type} (k : string) (m : JsMap V) : JsMap V :=
  match m with
  | [] => []
  | (k', v') :: m' =>
      if decide (k = k') then Map_delete k m' else (k', v') :: Map_delete k m'
  end.

(** The body of the [forEach] of [interpolateOtherPlayers] on one entry. *)
Definition interpolatePlayer (player : InterpolatedCar.t) : InterpolatedCar.t :=
  let current := InterpolatedCar.current player in
  let target := InterpolatedCar.target player in
  let current :=
    Car.with_x current
      (Car.x current + (Car.x target - Car.x current) * INTERPOLATION_FACTOR) in
  let current :=
    Car.with_y current
      (Car.y current + (Car.y target - Car.y current) * INTERPOLATION_FACTOR) in
  let current :=
    Car.with_vx current
      (Car.vx current
       + (Car.vx target - Car.vx current) * INTERPOLATION_FACTOR) in
  let current :=
    Car.with_vy current
      (Car.vy current
       + (Car.vy target - Car.vy current) * INTERPOLATION_FACTOR) in
  let angleDiff := wrapAngle (Car.angle target - Car.angle current) in
  let current :=
    Car.with_angle current
      (Car.angle current + angleDiff * INTERPOLATION_FACTOR) in
  let current :=
    Car.with_angularVel current
      (Car.angularVel current
       + (Car.angularVel target - Car.angularVel current)
         * INTERPOLATION_FACTOR) in
  (* [current.health = { ...target.health }]: a fresh health object *)
  let current := Car.with_health current (Car.health target) in
  InterpolatedCar.mk current target false.

Definition interpolateOtherPlayers (others : JsMap InterpolatedCar.t)
  : JsMap InterpolatedCar.t :=
  map (fun entry => (fst entry, interpolatePlayer (snd entry))) others.


(** The refs of the hook that the message handler reads and writes. *)
Module Hook.
Record t : Type := mk {
  playerIdRef : option string;
  otherPlayersRef : JsMap InterpolatedCar.t;
  playerCount : nat }.
End Hook.

(** [{ current: { ...car }, target: car }] *)
Definition freshRecord (car : Car.t) : InterpolatedCar.t :=
  InterpolatedCar.mk car car true.

(** [p.id !== playerIdRef.current] *)
Definition isOther (self : option string) (id : string) : bool :=
  match self with
  | Some me => negb (bool_decide (id = me))
  | None => true
  end.

(** The [forEach] body of the ["players"] case. *)
Definition playersEntry (self : option string)
    (currentPlayers : JsMap InterpolatedCar.t)
    (newPlayers : JsMap InterpolatedCar.t) (p : PlayerState.t)
  : JsMap InterpolatedCar.t :=
  if isOther self (PlayerState.id p)
  then
    let targetCar := playerStateToCar p in
    match Map_get (PlayerState.id p) currentPlayers with
    | Some existing =>
        (* [existing.target = targetCar] *)
        Map_set (PlayerState.id p)
          (InterpolatedCar.mk (InterpolatedCar.current existing) targetCar
             false)
          newPlayers
    | None => Map_set (PlayerState.id p) (freshRecord targetCar) newPlayers
    end
  else newPlayers.

(** The [forEach] body of the ["welcome"] case. *)
Definition welcomeEntry (self : string) (players : JsMap InterpolatedCar.t)
    (p : PlayerState.t) : JsMap InterpolatedCar.t :=
  if negb (bool_decide (PlayerState.id p = self))
  then Map_set (PlayerState.id p) (freshRecord (playerStateToCar p)) players
  else players.

(** [socket.onmessage] on a well-formed message. *)
Definition onmessage (h : Hook.t) (message : ServerMessage) : Hook.t :=
  match message with
  | MsgWelcome id players =>
      let players :=
        fold_left (welcomeEntry id) (Object_values players) [] in
      Hook.mk (Some id) players (length players + 1)
  | MsgPlayers players =>
      let currentPlayers := Hook.otherPlayersRef h in
      let newPlayers :=
        fold_left (playersEntry (Hook.playerIdRef h) currentPlayers)
          (Object_values players) [] in
      Hook.mk (Hook.playerIdRef h) newPlayers (length newPlayers + 1)
  | MsgPlayerJoined player =>
      if isOther (Hook.playerIdRef h) (PlayerState.id player)
      then
        let others :=
          Map_set (PlayerState.id player)
            (freshRecord (playerStateToCar player)) (Hook.otherPlayersRef h) in
        Hook.mk (Hook.playerIdRef h) others (length others + 1)
      else h
  | MsgPlayerLeft id =>
      let others := Map_delete id (Hook.otherPlayersRef h) in
      Hook.mk (Hook.playerIdRef h) others (length others + 1)
  end.

(** ** app/game/page.tsx: the simulation tick *)

(** What one tick reads from its environment: the two [Math.random()]
    results and the [Date.now()] of the collision with each remote id,
    and the [Math.random()] of the wall kick. *)
Module TickEnv.
Record t : Type := mk {
  collisionRandom : string -> R * R;
  collisionNow : string -> Z;
  wallRandom : R }.
End TickEnv.

Module Game.
Record t : Type := mk {
  playerCar : Car.t;
  hook : Hook.t;
  lastCollisionTime : gmap string Z;
  damagePopups : list DamagePopup.t }.
End Game.

(** A write to [current.health] reaches [target.health] when both are one
    object. *)
Definition writeCurrent (player : InterpolatedCar.t) (otherCar : Car.t)
  : InterpolatedCar.t :=
  if InterpolatedCar.sharedHealth player
  then InterpolatedCar.mk otherCar
         (Car.with_health (InterpolatedCar.target player) (Car.health otherCar))
         true
  else InterpolatedCar.mk otherCar (InterpolatedCar.target player) false.

(** The [otherPlayersRef.current.forEach] of [updatePhysics], entry by
    entry in map order. *)
Fixpoint collideOthers (env : TickEnv.t) (playerCar : Car.t)
    (times : gmap string Z) (popups : list DamagePopup.t)
    (others : JsMap InterpolatedCar.t)
  : Car.t * gmap string Z * list DamagePopup.t * JsMap InterpolatedCar.t :=
  match others with
  | [] => (playerCar, times, popups, [])
  | (odId, interpolatedCar) :: rest =>
      let otherCar := InterpolatedCar.current interpolatedCar in
      let lastTime := default 0%Z (times !! odId) in
      let '(playerCar, otherCar, popups, newTime) :=
        handleCarCollision playerCar otherCar lastTime popups
          (fst (TickEnv.collisionRandom env odId))
          (snd (TickEnv.collisionRandom env odId))
          (TickEnv.collisionNow env odId) in
      let times :=
        if bool_decide (newTime = lastTime) then times
        else <[odId := newTime]> times in
      let '(playerCar, times, popups, rest) :=
        collideOthers env playerCar times popups rest in
      (playerCar, times, popups,
       (odId, writeCurrent interpolatedCar otherCar) :: rest)
  end.

(** [updatePhysics] without the camera and the speed display, which read
    the player car and write nothing the simulation reads. *)
Definition updatePhysics (env : TickEnv.t) (input : AnalogInput.t)
    (g : Game.t) : Game.t :=
  let others := interpolateOtherPlayers (Hook.otherPlayersRef (Game.hook g)) in
  let '(playerCar, _) := updatePlayerCarPhysics (Game.playerCar g) input in
  let '(playerCar, times, popups, others) :=
    collideOthers env playerCar (Game.lastCollisionTime g)
      (Game.damagePopups g) others in
  let '(playerCar, _) := handleWallCollisions playerCar (TickEnv.wallRandom env) in
  let popups := updateDamagePopups popups in
  Game.mk playerCar
    (Hook.mk (Hook.playerIdRef (Game.hook g)) others
       (Hook.playerCount (Game.hook g)))
    times popups.

(** A message delivered between two ticks. *)
Definition deliver (message : ServerMessage) (g : Game.t) : Game.t :=
  Game.mk (Game.playerCar g) (onmessage (Game.hook g) message)
    (Game.lastCollisionTime g) (Game.damagePopups g).

(** ** party/server.ts: the relay *)

Inductive Outgoing : Type :=
| Send (connection : string) (message : ServerMessage)
| Broadcast (message : ServerMessage) (without : list string).

(** [this.players] is a plain object, created as [{}].  What is stored
    in it are its own properties; a read [this.players[key]] that finds no
    own property goes on to the object's prototype.  That is
    [Object.prototype], which holds the twelve names below, unless a write
    to ["__proto__"] has put a snapshot in its place: a write under a name
    that is not an own property runs the setter that [Object.prototype]
    has for ["__proto__"] and stores nothing, and under any other name
    creates the own property. *)
Definition Object_prototype : list string :=
  [ "constructor"; "__defineGetter__"; "__defineSetter__"; "hasOwnProperty";
    "__lookupGetter__"; "__lookupSetter__"; "isPrototypeOf";
    "propertyIsEnumerable"; "toString"; "valueOf"; "__proto__";
    "toLocaleString" ].

Module Relay.
Record t : Type := mk {
  (** the own properties of [this.players] *)
  players : gmap string PlayerState.t;
  (** the snapshot a write to ["__proto__"] has made the prototype of
      [this.players], if any; it inherits from [Object.prototype] *)
  prototype : option PlayerState.t }.
End Relay.

(** [players: Record<string, PlayerState> = {}] *)
Definition newRelay : Relay.t := Relay.mk ∅ None.

(** [state[key]] is truthy: a non-empty string, a number other than 0,
    an object; a snapshot has no other property. *)
Definition truthyField (state : PlayerState.t) (key : string) : bool :=
  if bool_decide (key = "id")
  then negb (bool_decide (PlayerState.id state = ""))
  else if bool_decide (key = "x") then negb (Reqb (PlayerState.x state) 0)
  else if bool_decide (key = "y") then negb (Reqb (PlayerState.y state) 0)
  else if bool_decide (key = "vx") then negb (Reqb (PlayerState.vx state) 0)
  else if bool_decide (key = "vy") then negb (Reqb (PlayerState.vy state) 0)
  else if bool_decide (key = "angle")
  then negb (Reqb (PlayerState.angle state) 0)
  else if bool_decide (key = "angularVel")
  then negb (Reqb (PlayerState.angularVel state) 0)
  else if bool_decide (key = "color")
  then negb (bool_decide (PlayerState.color state = ""))
  else bool_decide (key = "health").

(** What a read of [this.players[key]] finds past the own properties is
    truthy: a truthy field of the snapshot installed as prototype, or one
    of the properties of [Object.prototype] (functions, and for
    ["__proto__"] the prototype itself). *)
Definition inherited (relay : Relay.t) (key : string) : bool :=
  match Relay.prototype relay with
  | Some state => truthyField state key
  | None => false
  end
  || bool_decide (key ∈ Object_prototype).

(** [this.players[key]] is truthy. *)
Definition Players_truthy (relay : Relay.t) (key : string) : bool :=
  match Relay.players relay !! key with
  | Some _ => true
  | None => inherited relay key
  end.

(** [this.players[key] = value] *)
Definition Players_set (relay : Relay.t) (key : string)
    (value : PlayerState.t) : Relay.t :=
  match bool_decide (key = "__proto__"), Relay.players relay !! key with
  | true, None => Relay.mk (Relay.players relay) (Some value)
  | _, _ =>
      Relay.mk (<[key := value]> (Relay.players relay))
        (Relay.prototype relay)
  end.

(** [delete this.players[key]] *)
Definition Players_delete (relay : Relay.t) (key : string) : Relay.t :=
  Relay.mk (delete key (Relay.players relay)) (Relay.prototype relay).

(** [JSON.stringify(this.players)]: the own properties as a JSON object.
    The order of the properties is not modelled (it is the order of
    [map_to_list]); the statements read the roster by key only. *)
Definition rosterJson (players : gmap string PlayerState.t) : Roster :=
  map_to_list players.

Definition onConnect (conn : string) (relay : Relay.t) : list Outgoing :=
  [Send conn (MsgWelcome conn (rosterJson (Relay.players relay)))].

(** [onMessage] on a well-formed client message; [rx], [ry] and [ra] are
    the three [Math.random()] results of the ["join"] case. *)
Definition onMessage (data : ClientMessage) (sender : string) (rx ry ra : R)
    (relay : Relay.t) : Relay.t * list Outgoing :=
  match data with
  | MsgJoin color =>
      let newPlayer :=
        {| PlayerState.id := sender;
           PlayerState.x := 1350 + rx * 200 - 100;
           PlayerState.y := 900 + ry * 200 - 100;
           PlayerState.vx := 0; PlayerState.vy := 0;
           PlayerState.angle := ra * PI * 2;
           PlayerState.angularVel := 0;
           PlayerState.color := color;
           PlayerState.health := Health.mk 100 100 100 100 |} in
      (Players_set relay sender newPlayer,
       [Broadcast (MsgPlayerJoined newPlayer) [sender]])
  | MsgUpdate state =>
      let relay :=
        if Players_truthy relay sender
        then Players_set relay sender (PlayerState.with_id state sender)
        else relay in
      (relay,
       [Broadcast (MsgPlayers (rosterJson (Relay.players relay))) []])
  | MsgLeave =>
      (Players_delete relay sender, [Broadcast (MsgPlayerLeft sender) []])
  end.

Definition onClose (conn : string) (relay : Relay.t)
  : Relay.t * list Outgoing :=
  (Players_delete relay conn, [Broadcast (MsgPlayerLeft conn) []]).

(** ** The rest of constants.ts, types.ts and physics.ts *)

Definition SCROLL_THRESHOLD : R := 0.35.

Module Camera.
Record t : Type := mk { x : R; y : R }.
Definition with_x (c : t) (v : R) : t := mk v (y c).
Definition with_y (c : t) (v : R) : t := mk (x c) v.
End Camera.

(** [updateTargetCarPhysics]: friction only, no input. *)
Definition updateTargetCarPhysics (targetCar : Car.t) : Car.t :=
  let targetForwardX := cos (Car.angle targetCar) in
  let targetForwardY := sin (Car.angle targetCar) in
  let targetRightX := - targetForwardY in
  let targetRightY := targetForwardX in
  let targetForwardVel :=
    Car.vx targetCar * targetForwardX + Car.vy targetCar * targetForwardY in
  let targetSidewaysVel :=
    Car.vx targetCar * targetRightX + Car.vy targetCar * targetRightY in
  let targetNewForwardVel := targetForwardVel * 0.96 in
  let targetNewSidewaysVel := targetSidewaysVel * 0.9 in
  let targetCar :=
    Car.with_vx targetCar
      (targetForwardX * targetNewForwardVel
       + targetRightX * targetNewSidewaysVel) in
  let targetCar :=
    Car.with_vy targetCar
      (targetForwardY * targetNewForwardVel
       + targetRightY * targetNewSidewaysVel) in
  let targetCar :=
    Car.with_angularVel targetCar (Car.angularVel targetCar * 0.92) in
  let targetCar :=
    Car.with_angle targetCar (Car.angle targetCar + Car.angularVel targetCar) in
  let targetCar := Car.with_x targetCar (Car.x targetCar + Car.vx targetCar) in
  Car.with_y targetCar (Car.y targetCar + Car.vy targetCar).

(** [updateCamera]: scroll when the player nears an edge of the viewport,
    then clamp to the world. *)
Definition updateCamera (camera : Camera.t) (playerCar : Car.t) : Camera.t :=
  let playerScreenX := Car.x playerCar - Camera.x camera in
  let playerScreenY := Car.y playerCar - Camera.y camera in
  let scrollMarginX := CANVAS_WIDTH * SCROLL_THRESHOLD in
  let scrollMarginY := CANVAS_HEIGHT * SCROLL_THRESHOLD in
  let camera :=
    if Rltb playerScreenX scrollMarginX
    then Camera.with_x camera (Car.x playerCar - scrollMarginX)
    else if Rltb (CANVAS_WIDTH - scrollMarginX) playerScreenX
    then Camera.with_x camera
           (Car.x playerCar - (CANVAS_WIDTH - scrollMarginX))
    else camera in
  let camera :=
    if Rltb playerScreenY scrollMarginY
    then Camera.with_y camera (Car.y playerCar - scrollMarginY)
    else if Rltb (CANVAS_HEIGHT - scrollMarginY) playerScreenY
    then Camera.with_y camera
           (Car.y playerCar - (CANVAS_HEIGHT - scrollMarginY))
    else camera in
  let camera :=
    Camera.with_x camera
      (Rmax 0 (Rmin (WORLD_WIDTH - CANVAS_WIDTH) (Camera.x camera))) in
  Camera.with_y camera
    (Rmax 0 (Rmin (WORLD_HEIGHT - CANVAS_HEIGHT) (Camera.y camera))).

(** ** The rest of multiplayer.ts *)

(** [array[index]] for a number that holds an integer: [None] is
    [undefined]. *)
Definition Array_at {A : Type} (array : list A) (index : Z) : option A :=
  if (index <? 0)%Z then None else array !! Z.to_nat index.

(** [Math.floor] *)
Definition Math_floor (v : R) : Z := Zfloor v.

Definition colors : list string :=
  [ "#e74c3c"; "#3498db"; "#2ecc71"; "#f39c12"; "#9b59b6";
    "#1abc9c"; "#e91e63"; "#00bcd4"; "#ff5722"; "#8bc34a" ].

(** [generateRandomColor]; [rnd] is the [Math.random()] result. *)
Definition generateRandomColor (rnd : R) : option string :=
  Array_at colors (Math_floor (rnd * INR (length colors))).

(** ** app/game/page.tsx: spawn and input capture *)

Module Spawn.
Record t : Type := mk { x : R; y : R; angle : R }.
End Spawn.

(** [getRandomSpawnPosition]; [rx], [ry] and [ra] are its three
    [Math.random()] results. *)
Definition getRandomSpawnPosition (rx ry ra : R) : Spawn.t :=
  let padding := WALL_THICKNESS + 100 in
  let x := padding + rx * (WORLD_WIDTH - padding * 2) in
  let y := padding + ry * (WORLD_HEIGHT - padding * 2) in
  let angle := ra * PI * 2 in
  Spawn.mk x y angle.

(** The joystick event: [x] and [y] may be [null]. *)
Module JoystickEvent.
Record t : Type := mk { x : option R; y : option R }.
End JoystickEvent.

(** [Math.pow(base, exponent)] on a base that is not negative and a
    positive exponent. *)
Definition Math_pow (base exponent : R) : R :=
  if Rltb 0 base then Rpower base exponent else 0.

Definition deadzone : R := 0.15.

Definition applyDeadzone (value : R) : R :=
  let absValue := Rabs value in
  if Rltb absValue deadzone then 0
  else (absValue - deadzone) / (1 - deadzone).

Definition applySteeringCurve (value : R) : R := Math_pow value 1.5.

(** [handleJoystickMove]: the whole input record is overwritten. *)
Definition handleJoystickMove (event : JoystickEvent.t) : AnalogInput.t :=
  let x := default 0 (JoystickEvent.x event) in
  let y := default 0 (JoystickEvent.y event) in
  {| AnalogInput.forward := if Rltb deadzone y then applyDeadzone y else 0;
     AnalogInput.reverse := if Rltb y (- deadzone) then applyDeadzone y else 0;
     AnalogInput.left :=
       if Rltb x (- deadzone) then applySteeringCurve (applyDeadzone x) else 0;
     AnalogInput.right :=
       if Rltb deadzone x then applySteeringCurve (applyDeadzone x) else 0 |}.

Definition handleJoystickStop : AnalogInput.t := AnalogInput.mk 0 0 0 0.

(** [handleKeyDown] and [handleKeyUp]: a key sets, or clears, the
    intensity it is bound to. *)
Definition keySets (input : AnalogInput.t) (key : string) (v : R)
  : AnalogInput.t :=
  let input :=
    if bool_decide (key = "ArrowUp") || bool_decide (key = "w")
    then AnalogInput.mk v (AnalogInput.reverse input)
           (AnalogInput.left input) (AnalogInput.right input)
    else input in
  let input :=
    if bool_decide (key = "ArrowDown") || bool_decide (key = "s")
    then AnalogInput.mk (AnalogInput.forward input) v
           (AnalogInput.left input) (AnalogInput.right input)
    else input in
  let input :=
    if bool_decide (key = "ArrowLeft") || bool_decide (key = "a")
    then AnalogInput.mk (AnalogInput.forward input)
           (AnalogInput.reverse input) v (AnalogInput.right input)
    else input in
  if bool_decide (key = "ArrowRight") || bool_decide (key = "d")
  then AnalogInput.mk (AnalogInput.forward input)
         (AnalogInput.reverse input) (AnalogInput.left input) v
  else input.

Definition handleKeyDown (input : AnalogInput.t) (key : string)
  : AnalogInput.t := keySets input key 1.

Definition handleKeyUp (input : AnalogInput.t) (key : string)
  : AnalogInput.t := keySets input key 0.

(** The events that write [inputRef.current]. *)
Inductive InputEvent : Type :=
| JoystickMove (event : JoystickEvent.t)
| JoystickStop
| KeyDown (key : string)
| KeyUp (key : string).

Definition onInput (input : AnalogInput.t) (ev : InputEvent) : AnalogInput.t :=
  match ev with
  | JoystickMove event => handleJoystickMove event
  | JoystickStop => handleJoystickStop
  | KeyDown key => handleKeyDown input key
  | KeyUp key => handleKeyUp input key
  end.

(** ** party/server.ts: the relay as a server of events *)

Inductive RelayEvent : Type :=
| EvConnect (conn : string)
| EvMessage (sender : string) (data : ClientMessage) (rx ry ra : R)
| EvClose (conn : string).

Definition relayStep (relay : Relay.t) (ev : RelayEvent)
  : Relay.t * list Outgoing :=
  match ev with
  | EvConnect conn => (relay, onConnect conn relay)
  | EvMessage sender data rx ry ra => onMessage data sender rx ry ra relay
  | EvClose conn => onClose conn relay
  end.

(** The relay after a sequence of events. *)
Definition relayRun (events : list RelayEvent) (relay : Relay.t) : Relay.t :=
  fold_left (fun relay ev => fst (relayStep relay ev)) events relay.

(** ** Concrete scenes used to exercise the definitions *)

(** A moving car at the origin heading along +x and a parked car ten units
    ahead of it. *)
Definition sceneA : Car.t := Car.with_vx (createCar 0 0 "#e74c3c" 0 false) 5.
Definition sceneB : Car.t := createCar 10 0 "#3498db" 0 true.

(** The parked car as a tracked remote vehicle that has reached its
    target; its health object is its own. *)
Definition settledB : InterpolatedCar.t :=
  InterpolatedCar.mk sceneB sceneB false.

(** The same two cars, both at rest. *)
Definition restA : Car.t := createCar 0 0 "#e74c3c" 0 false.

(** A tick's environment and a full-throttle input. *)
Definition calmEnv : TickEnv.t :=
  TickEnv.mk (fun _ => (1 / 2, 1 / 2)) (fun _ => 1000%Z) (1 / 2).
Definition throttle : AnalogInput.t := AnalogInput.mk 1 0 0 0.

(** A client "a" that tracks one remote vehicle "b", and the states of
    both as the relay reports them. *)
Definition stateOfA : PlayerState.t :=
  PlayerState.mk "a" 100 100 0 0 0 0 "#e74c3c" (Health.mk 100 100 100 100).
Definition stateOfB : PlayerState.t :=
  PlayerState.mk "b" 300 300 0 0 0 0 "#3498db" (Health.mk 100 100 100 100).
Definition hookOfA : Hook.t :=
  onmessage (Hook.mk None [] 1)
    (MsgWelcome "a" [("a", stateOfA); ("b", stateOfB)]).

(** A snapshot of "b" ten units ahead of the origin and driving towards
    it at speed 5, and a snapshot of "b" whose front zone is 150. *)
Definition approachingB : PlayerState.t :=
  PlayerState.mk "b" 10 0 (-5) 0 0 0 "#3498db" (Health.mk 100 100 100 100).
Definition overfullB : PlayerState.t :=
  PlayerState.mk "b" 300 300 0 0 0 0 "#3498db" (Health.mk 150 100 100 100).

(** ** Vocabulary of the statements *)

(** Every zone of a health record lies in [[0, 100]]. *)
Definition zonesInRange (h : Health.t) : Prop :=
  forall z : HitZone, 0 <= Health.get z h <= 100.

(** Both cars of a tracked entry are in range. *)
Definition entryOk (entry : string * InterpolatedCar.t) : Prop :=
  zonesInRange (Car.health (InterpolatedCar.current (snd entry)))
  /\ zonesInRange (Car.health (InterpolatedCar.target (snd entry))).

(** Every vehicle a client holds: its own car, and the [current] and the
    [target] of every tracked remote vehicle. *)
Definition allZonesInRange (g : Game.t) : Prop :=
  zonesInRange (Car.health (Game.playerCar g))
  /\ Forall entryOk (Hook.otherPlayersRef (Game.hook g)).

(** The client at start-up: [createCar] at the spawn position, no remote
    vehicle, no popup. *)
Definition newGame (x y angle : R) : Game.t :=
  Game.mk (createCar x y "#e74c3c" angle false) (Hook.mk None [] 1) ∅ [].

(** The operations on a client: a whole tick, its four stages on their
    own, and the delivery of a relay message. *)
Inductive Op : Type :=
| OpTick (env : TickEnv.t) (input : AnalogInput.t)
| OpIntegrate (input : AnalogInput.t)
| OpCollide (env : TickEnv.t)
| OpWalls (rnd : R)
| OpInterpolate
| OpMessage (message : ServerMessage).

Definition withOthers (g : Game.t) (others : JsMap InterpolatedCar.t)
  : Game.t :=
  Game.mk (Game.playerCar g)
    (Hook.mk (Hook.playerIdRef (Game.hook g)) others
       (Hook.playerCount (Game.hook g)))
    (Game.lastCollisionTime g) (Game.damagePopups g).

Definition applyOp (g : Game.t) (op : Op) : Game.t :=
  match op with
  | OpTick env input => updatePhysics env input g
  | OpIntegrate input =>
      Game.mk (fst (updatePlayerCarPhysics (Game.playerCar g) input))
        (Game.hook g) (Game.lastCollisionTime g) (Game.damagePopups g)
  | OpCollide env =>
      let '(playerCar, times, popups, others) :=
        collideOthers env (Game.playerCar g) (Game.lastCollisionTime g)
          (Game.damagePopups g) (Hook.otherPlayersRef (Game.hook g)) in
      Game.mk playerCar
        (Hook.mk (Hook.playerIdRef (Game.hook g)) others
           (Hook.playerCount (Game.hook g)))
        times popups
  | OpWalls rnd =>
      Game.mk (fst (handleWallCollisions (Game.playerCar g) rnd))
        (Game.hook g) (Game.lastCollisionTime g) (Game.damagePopups g)
  | OpInterpolate =>
      withOthers g (interpolateOtherPlayers (Hook.otherPlayersRef (Game.hook g)))
  | OpMessage message => deliver message g
  end.

Definition run (ops : list Op) (g : Game.t) : Game.t :=
  fold_left applyOp ops g.





(** [n] interpolation steps on one tracked vehicle, the target held. *)
Definition steps (n : nat) (r : InterpolatedCar.t) : InterpolatedCar.t :=
  Nat.iter n interpolatePlayer r.

(** A point inside the world bounds inset by the wall thickness. *)
Definition inArena (pt : Point.t) : Prop :=
  WALL_THICKNESS <= Point.x pt <= WORLD_WIDTH - WALL_THICKNESS
  /\ WALL_THICKNESS <= Point.y pt <= WORLD_HEIGHT - WALL_THICKNESS.

Definition cornersInArena (car : Car.t) : Prop :=
  Forall inArena (getCarCorners car).

(** The dimensions [createCar] and [playerStateToCar] give every car. *)
Definition standardBody (car : Car.t) : Prop :=
  Car.width car = CAR_WIDTH /\ Car.height car = CAR_HEIGHT.

(** What the wall loop adds to [car.x] for a corner at abscissa [cx], and
    to [car.y] for a corner at ordinate [cy]. *)
Definition shiftX (cx : R) : R :=
  (if Rltb cx WALL_THICKNESS then WALL_THICKNESS - cx else 0)
  - (if Rltb (WORLD_WIDTH - WALL_THICKNESS) cx
     then cx - (WORLD_WIDTH - WALL_THICKNESS) else 0).

Definition shiftY (cy : R) : R :=
  (if Rltb cy WALL_THICKNESS then WALL_THICKNESS - cy else 0)
  - (if Rltb (WORLD_HEIGHT - WALL_THICKNESS) cy
     then cy - (WORLD_HEIGHT - WALL_THICKNESS) else 0).

(** The player's car over one tick of a client that tracks no remote
    vehicle: the integrator, then the walls. *)
Definition soloTick (car : Car.t) (step : AnalogInput.t * R) : Car.t :=
  fst (handleWallCollisions (fst (updatePlayerCarPhysics car (fst step)))
         (snd step)).

(** Tick after tick, each with its input and its wall-kick random. *)
Definition drive (car : Car.t) (stepsOfInput : list (AnalogInput.t * R))
  : Car.t :=
  fold_left soloTick stepsOfInput car.

(** The fields that no stage of the integrator and no wall writes. *)
Definition sameBody (c c' : Car.t) : Prop :=
  Car.health c' = Car.health c /\ Car.width c' = Car.width c
  /\ Car.height c' = Car.height c /\ Car.color c' = Car.color c
  /\ Car.isStatic c' = Car.isStatic c.

(** A whole tick as an operation. *)
Definition tickOp (tick : TickEnv.t * AnalogInput.t) : Op :=
  OpTick (fst tick) (snd tick).

(** The snapshots a relay message carries. *)
Definition snapshotsOf (message : ServerMessage) : list PlayerState.t :=
  match message with
  | MsgPlayers players => Object_values players
  | MsgPlayerJoined player => [player]
  | MsgPlayerLeft _ => []
  | MsgWelcome _ players => Object_values players
  end.

(** An operation whose snapshots, if it delivers any, come from vehicles
    with every zone in range. *)
Definition snapshotsInRange (op : Op) : Prop :=
  match op with
  | OpMessage message =>
      Forall (fun p => zonesInRange (PlayerState.health p))
        (snapshotsOf message)
  | _ => True
  end.

(** The record that the ["players"] case stores for a listed player [p]:
    the tracked [current] with the new target, or a fresh record. *)
Definition reconciled (currentPlayers : JsMap InterpolatedCar.t)
    (p : PlayerState.t) : InterpolatedCar.t :=
  match Map_get (PlayerState.id p) currentPlayers with
  | Some existing =>
      InterpolatedCar.mk (InterpolatedCar.current existing)
        (playerStateToCar p) false
  | None => freshRecord (playerStateToCar p)
  end.

(** The players of a roster that carry the id [id]. *)
Definition listedAs (id : string) (players : Roster) : list PlayerState.t :=
  filter (fun p => PlayerState.id p = id) (Object_values players).

(** The speed [Math.sqrt(vx * vx + vy * vy)] of a car. *)
Definition speed (c : Car.t) : R :=
  sqrt (Car.vx c * Car.vx c + Car.vy c * Car.vy c).

(** An input that asks for no acceleration: neither [forward] nor
    [reverse] is positive. *)
Definition coasting (input : AnalogInput.t) : Prop :=
  AnalogInput.forward input <= 0 /\ AnalogInput.reverse input <= 0.

(** The zone on the other side of the car. *)
Definition opposite (z : HitZone) : HitZone :=
  match z with
  | Zfront => Zrear
  | Zrear => Zfront
  | Zleft => Zright
  | Zright => Zleft
  end.

(** An angle within a hundred turns of 0.  Up to there the loops of
    [wrapAngle] run at most a hundred rounds and the result on binary64
    is the real one to within 1e-11; far beyond, the loops of the program
    drift and then stall (see [whileAbovePi64]). *)
Definition fewTurns (a : R) : Prop := Rabs a <= 100 * (2 * PI).


(** The square of the distance between two points. *)
Definition dist2 (a b : Point.t) : R :=
  (Point.x b - Point.x a) * (Point.x b - Point.x a)
  + (Point.y b - Point.y a) * (Point.y b - Point.y a).

Definition midpoint (a b : Point.t) : Point.t :=
  Point.mk ((Point.x a + Point.x b) / 2) ((Point.y a + Point.y b) / 2).

(** A popup [n] updates later, if it is still shown. *)
Definition aged (n : nat) (p : DamagePopup.t) : DamagePopup.t :=
  {| DamagePopup.x := DamagePopup.x p;
     DamagePopup.y := DamagePopup.y p - INR n;
     DamagePopup.damage := DamagePopup.damage p;
     DamagePopup.zone := DamagePopup.zone p;
     DamagePopup.age := DamagePopup.age p + INR n |}.

(** Every intensity of an input lies in [[0, 1]]. *)
Definition unitInput (input : AnalogInput.t) : Prop :=
  0 <= AnalogInput.forward input <= 1
  /\ 0 <= AnalogInput.reverse input <= 1
  /\ 0 <= AnalogInput.left input <= 1
  /\ 0 <= AnalogInput.right input <= 1.

(** The stick of a joystick event is within its unit square. *)
Definition stickInRange (ev : InputEvent) : Prop :=
  match ev with
  | JoystickMove event =>
      Rabs (default 0 (JoystickEvent.x event)) <= 1
      /\ Rabs (default 0 (JoystickEvent.y event)) <= 1
  | _ => True
  end.

(** Every entry of the relay's roster carries the connection id it is
    stored under. *)
Definition keyedById (players : gmap string PlayerState.t) : Prop :=
  forall (k : string) (s : PlayerState.t),
    players !! k = Some s -> PlayerState.id s = k.

(** The connection an event of the relay comes from. *)
Definition actor (ev : RelayEvent) : string :=
  match ev with
  | EvConnect conn => conn
  | EvMessage sender _ _ _ _ => sender
  | EvClose conn => conn
  end.

(** The hook before any message: no id, nobody tracked, a count of 1. *)
Definition initialHook : Hook.t := Hook.mk None [] 1.

(** * Properties *)

(** ** Comparisons *)

Lemma Rltb_true (a b : R) : Rltb a b = true <-> a < b.
Proof. unfold Rltb. destruct (Rlt_dec a b); split; intros; try easy. Qed.

Lemma Rltb_false (a b : R) : Rltb a b = false <-> b <= a.
Proof.
  unfold Rltb. destruct (Rlt_dec a b); split; intros; try easy; lra.
Qed.

Lemma Rleb_true (a b : R) : Rleb a b = true <-> a <= b.
Proof. unfold Rleb. destruct (Rle_dec a b); split; intros; try easy. Qed.

Lemma Rleb_false (a b : R) : Rleb a b = false <-> b < a.
Proof.
  unfold Rleb. destruct (Rle_dec a b); split; intros; try easy; lra.
Qed.

Lemma Reqb_true (a b : R) : Reqb a b = true <-> a = b.
Proof. unfold Reqb. destruct (Req_dec_T a b); split; intros; try easy. Qed.

Lemma Reqb_false (a b : R) : Reqb a b = false <-> a <> b.
Proof. unfold Reqb. destruct (Req_dec_T a b); split; intros; try easy. Qed.

(** Case analysis on every comparison of the goal, keeping the facts. *)
Ltac cmp_cases :=
  repeat match goal with
  | |- context [Rltb ?a ?b] =>
      let H := fresh "Hlt" in
      destruct (Rltb a b) eqn:H;
      [apply Rltb_true in H | apply Rltb_false in H]
  | |- context [Rleb ?a ?b] =>
      let H := fresh "Hle" in
      destruct (Rleb a b) eqn:H;
      [apply Rleb_true in H | apply Rleb_false in H]
  | |- context [Reqb ?a ?b] =>
      let H := fresh "Heq" in
      destruct (Reqb a b) eqn:H;
      [apply Reqb_true in H | apply Reqb_false in H]
  end.

(** Case analysis on the comparisons that guard an [if], without facts. *)
Ltac stage_cases :=
  repeat match goal with
  | |- context [if Rltb ?a ?b then _ else _] => destruct (Rltb a b)
  end.

(** Settle every comparison of the goal that linear arithmetic decides. *)
Ltac cmp_eval :=
  repeat match goal with
  | |- context [Rltb ?a ?b] =>
      first [ replace (Rltb a b) with true by (symmetry; apply Rltb_true; lra)
            | replace (Rltb a b) with false
                by (symmetry; apply Rltb_false; lra) ]
  | |- context [Rleb ?a ?b] =>
      first [ replace (Rleb a b) with true by (symmetry; apply Rleb_true; lra)
            | replace (Rleb a b) with false
                by (symmetry; apply Rleb_false; lra) ]
  | |- context [Reqb ?a ?b] =>
      first [ replace (Reqb a b) with true by (symmetry; apply Reqb_true; lra)
            | replace (Reqb a b) with false
                by (symmetry; apply Reqb_false; lra) ]
  end.

(** ** The wrap loops leave by their own condition *)

Lemma two_pi_pos : 0 < 2 * PI.
Proof. pose proof PI_RGT_0. lra. Qed.

Lemma whileAbovePi_exits (fuel : nat) (a : R) :
  a <= PI + 2 * PI * INR fuel ->
  whileAbovePi fuel a <= PI
  /\ (a <= PI -> whileAbovePi fuel a = a)
  /\ (PI < a -> - PI < whileAbovePi fuel a)
  /\ exists k : nat, whileAbovePi fuel a = a - 2 * PI * INR k.
Proof.
  pose proof PI_RGT_0 as Hpi.
  revert a. induction fuel as [|fuel IH]; intros a Hfuel.
  - simpl in *. repeat split; try lra. exists 0%nat. simpl. lra.
  - simpl whileAbovePi. rewrite S_INR in Hfuel.
    destruct (Rltb PI a) eqn:Hc.
    + apply Rltb_true in Hc.
      destruct (IH (a - 2 * PI)) as (H1 & H2 & H3 & k & Hk); [lra|].
      split; [exact H1|]. split; [intros; lra|]. split.
      * intros _. destruct (Rle_dec (a - 2 * PI) PI) as [Hle|Hgt].
        -- rewrite (H2 Hle). lra.
        -- apply H3. lra.
      * exists (S k). rewrite S_INR, Hk. lra.
    + apply Rltb_false in Hc. repeat split; try lra.
      exists 0%nat. simpl. lra.
Qed.

Lemma whileBelowNegPi_exits (fuel : nat) (a : R) :
  - PI - 2 * PI * INR fuel <= a ->
  - PI <= whileBelowNegPi fuel a
  /\ (- PI <= a -> whileBelowNegPi fuel a = a)
  /\ (a < - PI -> whileBelowNegPi fuel a < PI)
  /\ exists k : nat, whileBelowNegPi fuel a = a + 2 * PI * INR k.
Proof.
  pose proof PI_RGT_0 as Hpi.
  revert a. induction fuel as [|fuel IH]; intros a Hfuel.
  - simpl in *. repeat split; try lra. exists 0%nat. simpl. lra.
  - simpl whileBelowNegPi. rewrite S_INR in Hfuel.
    destruct (Rltb a (- PI)) eqn:Hc.
    + apply Rltb_true in Hc.
      destruct (IH (a + 2 * PI)) as (H1 & H2 & H3 & k & Hk); [lra|].
      split; [exact H1|]. split; [intros; lra|]. split.
      * intros _. destruct (Rle_dec (- PI) (a + 2 * PI)) as [Hle|Hgt].
        -- rewrite (H2 Hle). lra.
        -- apply H3. lra.
      * exists (S k). rewrite S_INR, Hk. lra.
    + apply Rltb_false in Hc. repeat split; try lra.
      exists 0%nat. simpl. lra.
Qed.

(** [rounds a] iterations are enough for either loop started at [a]. *)
Lemma rounds_enough (a : R) : Rabs a < 2 * PI * INR (rounds a).
Proof.
  pose proof two_pi_pos as H2pi. unfold rounds.
  set (q := Rabs a / (2 * PI)).
  assert (Hq : 0 <= q).
  { unfold q. apply Rmult_le_pos; [apply Rabs_pos|].
    left. apply Rinv_0_lt_compat. lra. }
  destruct (archimed q) as [Hup _].
  assert (Hz : (0 <= up q)%Z).
  { apply le_IZR. lra. }
  rewrite INR_IZR_INZ, Z2Nat.id by exact Hz.
  assert (Ha : Rabs a = q * (2 * PI)).
  { unfold q. field. lra. }
  rewrite Ha. nra.
Qed.

(** More fuel than needed changes nothing: the loops stop on their
    condition, not on the bound. *)
Lemma whileAbovePi_fuel (f f' : nat) (a : R) :
  a <= PI + 2 * PI * INR f -> (f <= f')%nat ->
  whileAbovePi f' a = whileAbovePi f a.
Proof.
  pose proof PI_RGT_0 as Hpi.
  revert f' a. induction f as [|f IH]; intros f' a Hfuel Hle.
  - simpl in Hfuel. destruct f'; [reflexivity|]. simpl.
    destruct (Rltb PI a) eqn:Hc; [apply Rltb_true in Hc; lra | reflexivity].
  - destruct f' as [|f']; [lia|]. simpl. rewrite S_INR in Hfuel.
    destruct (Rltb PI a); [|reflexivity].
    apply IH; [lra | lia].
Qed.

Lemma whileBelowNegPi_fuel (f f' : nat) (a : R) :
  - PI - 2 * PI * INR f <= a -> (f <= f')%nat ->
  whileBelowNegPi f' a = whileBelowNegPi f a.
Proof.
  pose proof PI_RGT_0 as Hpi.
  revert f' a. induction f as [|f IH]; intros f' a Hfuel Hle.
  - simpl in Hfuel. destruct f'; [reflexivity|]. simpl.
    destruct (Rltb a (- PI)) eqn:Hc; [apply Rltb_true in Hc; lra | reflexivity].
  - destruct f' as [|f']; [lia|]. simpl. rewrite S_INR in Hfuel.
    destruct (Rltb a (- PI)); [|reflexivity].
    apply IH; [lra | lia].
Qed.

Lemma wrapAngle_spec (a : R) :
  - PI <= wrapAngle a <= PI
  /\ (exists k : Z, wrapAngle a = a + 2 * PI * IZR k)
  /\ (- PI <= a <= PI -> wrapAngle a = a).
Proof.
  pose proof PI_RGT_0 as Hpi. unfold wrapAngle.
  set (a1 := whileAbovePi (rounds a) a).
  pose proof (rounds_enough a) as Ha. pose proof (rounds_enough a1) as Ha1.
  pose proof (Rle_abs a) as Habs.
  assert (Habs1 : - a1 <= Rabs a1).
  { rewrite <- Rabs_Ropp. apply Rle_abs. }
  destruct (whileAbovePi_exits (rounds a) a) as (U1 & U2 & U3 & k1 & Hk1);
    [lra|]. fold a1 in U1, U2, U3, Hk1.
  destruct (whileBelowNegPi_exits (rounds a1) a1) as (L1 & L2 & L3 & k2 & Hk2);
    [lra|].
  split; [split; [exact L1|]|split].
  - destruct (Rle_dec (- PI) a1) as [Hge|Hlt].
    + rewrite (L2 Hge). exact U1.
    + left. apply L3. lra.
  - exists (Z.of_nat k2 - Z.of_nat k1)%Z.
    rewrite Hk2, Hk1, minus_IZR, <- !INR_IZR_INZ. lra.
  - intros [Hlo Hhi]. rewrite L2; rewrite (U2 Hhi); lra.
Qed.


Lemma zoneOfRelative_quadrants (r : R) :
  (zoneOfRelative r = Zfront <-> - PI / 4 <= r < PI / 4)
  /\ (zoneOfRelative r = Zright <-> PI / 4 <= r < 3 * PI / 4)
  /\ (zoneOfRelative r = Zleft <-> -3 * PI / 4 <= r < - PI / 4)
  /\ (zoneOfRelative r = Zrear <-> 3 * PI / 4 <= r \/ r < -3 * PI / 4).
Proof.
  pose proof PI_RGT_0 as Hpi. unfold zoneOfRelative.
  cmp_cases; simpl; repeat split; intros; try discriminate; try lra;
    try (exfalso; lra);
    try match goal with H : _ \/ _ |- _ => destruct H; exfalso; lra end;
    try (left; lra); try (right; lra).
Qed.

Lemma getHitZone_at (car : Car.t) (r : R) :
  - PI <= r <= PI ->
  getHitZone car (Car.angle car + r) = zoneOfRelative r.
Proof.
  intros Hr. unfold getHitZone.
  replace (Car.angle car + r - Car.angle car) with r by ring.
  destruct (wrapAngle_spec r) as (_ & _ & Hid). now rewrite Hid.
Qed.

(** ** Health records and [Math.round] *)

Lemma Health_get_set_eq (z : HitZone) (v : R) (h : Health.t) :
  Health.get z (Health.set z v h) = v.
Proof. destruct z; reflexivity. Qed.

Lemma Health_get_set_ne (z z' : HitZone) (v : R) (h : Health.t) :
  z <> z' -> Health.get z' (Health.set z v h) = Health.get z' h.
Proof. destruct z, z'; intros Hne; try reflexivity; congruence. Qed.

Lemma Math_round_integer (v : R) : exists n : Z, Math_round v = IZR n.
Proof. eexists. reflexivity. Qed.

Lemma Math_round_nonneg (v : R) : 0 <= v -> 0 <= Math_round v.
Proof.
  intros Hv. unfold Math_round. apply IZR_le.
  apply (Zfloor_lub 0). simpl. lra.
Qed.

(** The damage [Math.round((impactSpeed - MIN_IMPACT_FOR_DAMAGE) *
    DAMAGE_MULTIPLIER)] of a collision between two cars. *)
Lemma damage_nonneg (s : R) :
  MIN_IMPACT_FOR_DAMAGE < s ->
  0 <= Math_round ((s - MIN_IMPACT_FOR_DAMAGE) * DAMAGE_MULTIPLIER).
Proof.
  unfold MIN_IMPACT_FOR_DAMAGE, DAMAGE_MULTIPLIER. intros Hs.
  apply Math_round_nonneg. lra.
Qed.

(** ** The two-car scene, evaluated *)

Lemma scene_distance : centerDistance sceneA sceneB = 10.
Proof.
  unfold centerDistance, sceneA, sceneB. cbn.
  replace ((10 - 0) * (10 - 0) + (0 - 0) * (0 - 0)) with (10 * 10) by ring.
  apply sqrt_square. lra.
Qed.

Lemma scene_check : checkCarCollision sceneA sceneB = true.
Proof.
  unfold checkCarCollision.
  change (sqrt _) with (centerDistance sceneA sceneB).
  rewrite scene_distance. apply Rltb_true. cbn. unfold CAR_WIDTH. lra.
Qed.

Lemma scene_impactComponent : impactComponent sceneA sceneB = 5.
Proof.
  unfold impactComponent. rewrite scene_distance. cbn. field.
Qed.

Lemma scene_impactSpeed : impactSpeed sceneA sceneB = 5.
Proof.
  unfold impactSpeed. rewrite scene_impactComponent. apply Rabs_pos_eq. lra.
Qed.

Lemma scene_angle :
  Math_atan2 (Car.y sceneB - Car.y sceneA) (Car.x sceneB - Car.x sceneA) = 0.
Proof.
  cbn. unfold Math_atan2.
  replace (Rltb 0 (10 - 0)) with true by (symmetry; apply Rltb_true; lra).
  replace ((0 - 0) / (10 - 0)) with 0 by (field; lra). apply atan_0.
Qed.

Lemma scene_zones :
  getHitZone sceneA 0 = Zfront /\ getHitZone sceneB (0 + PI) = Zrear.
Proof.
  pose proof PI_RGT_0 as Hpi. split.
  - replace 0 with (Car.angle sceneA + 0) at 1 by (cbn; ring).
    rewrite getHitZone_at by lra. apply (zoneOfRelative_quadrants 0). lra.
  - replace (0 + PI) with (Car.angle sceneB + PI) by (cbn; ring).
    rewrite getHitZone_at by lra.
    apply (zoneOfRelative_quadrants PI). left. lra.
Qed.

(** The moving car hits the parked one at speed 5: damage 9, the parked
    car is pushed from 10 to 23.8, takes velocity 2.8 and its angular
    kick, and loses 9 on its rear; the moving car loses 1.35 on its
    front. *)
Lemma scene_collision (rnd1 rnd2 : R) :
  exists (p' t' : Car.t) (px py : R),
    handleCarCollision sceneA sceneB 0 [] rnd1 rnd2 1000
    = (p', t', [DamagePopup.mk px py 9 Zrear 0], 1000%Z)
    /\ Car.health p' = Health.mk 98.65 100 100 100
    /\ Car.health t' = Health.mk 100 91 100 100
    /\ Car.x t' = 23.8 /\ Car.vx t' = 2.8
    /\ Car.angularVel t' = (rnd2 - 0.5) * 0.12.
Proof.
  destruct scene_zones as [Hzp Hzt].
  assert (HD : Math_round ((5 - 2) * 3) = 9).
  { unfold Math_round. f_equal. apply Zfloor_eq. simpl. lra. }
  unfold handleCarCollision.
  rewrite scene_check, scene_distance, scene_impactSpeed,
    scene_impactComponent, scene_angle.
  simpl negb. cbv iota.
  change (1000 - 0 <? 150)%Z with false.
  unfold MIN_IMPACT_FOR_DAMAGE, DAMAGE_MULTIPLIER, ATTACKER_DAMAGE_RATIO.
  change (Car.width sceneA) with 50. change (Car.width sceneB) with 50.
  cmp_eval. simpl orb. cbv iota.
  match goal with
  | |- context [getHitZone ?c 0] =>
      change (getHitZone c 0) with (getHitZone sceneA 0)
  end.
  match goal with
  | |- context [getHitZone ?c (0 + PI)] =>
      change (getHitZone c (0 + PI)) with (getHitZone sceneB (0 + PI))
  end.
  rewrite Hzp, Hzt, HD.
  do 4 eexists. split; [reflexivity|].
  cbn. rewrite !Rmax_right by lra.
  repeat split; try lra; f_equal; lra.
Qed.

(** ** C1: damage of a vehicle-vehicle collision *)

(** C1.  When [handleCarCollision] reaches the damage branch (the cars
    overlap with distinct centres, at least 150 ms have passed since the
    last damaging hit, and the impact speed [s] exceeds 2), the damage is
    [D = round((s - 2) * 3)], a non-negative integer; the initiator's hit
    zone becomes [max(0, old - D * 0.15)] (so it loses exactly [D * 0.15]
    when that much is left), the target's hit zone becomes
    [max(0, old - D)], the other zones of both cars keep their values, one
    popup is appended that carries [D] and the target's zone, and the
    returned time is [now]. *)
Theorem handleCarCollision_damage
    (playerCar targetCar : Car.t) (lastCollisionTime : Z)
    (damagePopups : list DamagePopup.t) (rnd1 rnd2 : R) (now : Z) :
  checkCarCollision playerCar targetCar = true ->
  centerDistance playerCar targetCar <> 0 ->
  (150 <= now - lastCollisionTime)%Z ->
  MIN_IMPACT_FOR_DAMAGE < impactSpeed playerCar targetCar ->
  let s := impactSpeed playerCar targetCar in
  let D := Math_round ((s - 2) * 3) in
  let collisionAngle :=
    Math_atan2 (Car.y targetCar - Car.y playerCar)
               (Car.x targetCar - Car.x playerCar) in
  let playerHitZone := getHitZone playerCar collisionAngle in
  let targetHitZone := getHitZone targetCar (collisionAngle + PI) in
  let oldPlayer := Health.get playerHitZone (Car.health playerCar) in
  let oldTarget := Health.get targetHitZone (Car.health targetCar) in
  exists (playerCar' targetCar' : Car.t) (px py : R),
    handleCarCollision playerCar targetCar lastCollisionTime damagePopups
      rnd1 rnd2 now
    = (playerCar', targetCar',
       damagePopups ++ [DamagePopup.mk px py D targetHitZone 0], now)
    /\ (0 <= D /\ exists n : Z, D = IZR n)
    /\ Car.health playerCar'
       = Health.set playerHitZone (Rmax 0 (oldPlayer - D * 0.15))
           (Car.health playerCar)
    /\ Car.health targetCar'
       = Health.set targetHitZone (Rmax 0 (oldTarget - D))
           (Car.health targetCar)
    /\ (D * 0.15 <= oldPlayer ->
        Health.get playerHitZone (Car.health playerCar')
        = oldPlayer - D * 0.15)
    /\ (D <= oldTarget ->
        Health.get targetHitZone (Car.health targetCar') = oldTarget - D).
Proof.
  intros Hcheck Hdist Hcool Himpact s D collisionAngle playerHitZone
    targetHitZone oldPlayer oldTarget.
  assert (HD : 0 <= D).
  { apply (damage_nonneg _ Himpact). }
  unfold handleCarCollision. rewrite Hcheck. simpl negb. cbv iota.
  pose proof Hcheck as Hlt. unfold checkCarCollision in Hlt.
  apply Rltb_true in Hlt. fold (centerDistance playerCar targetCar) in Hlt.
  replace (Rleb ((Car.width playerCar + Car.width targetCar) / 2 * 0.85)
             (centerDistance playerCar targetCar)) with false
    by (symmetry; apply Rleb_false; exact Hlt).
  replace (Reqb (centerDistance playerCar targetCar) 0) with false
    by (symmetry; apply Reqb_false; exact Hdist).
  simpl orb. cbv iota.
  replace (now - lastCollisionTime <? 150)%Z with false
    by (symmetry; apply Z.ltb_ge; exact Hcool).
  replace (Rltb MIN_IMPACT_FOR_DAMAGE (impactSpeed playerCar targetCar))
    with true by (symmetry; apply Rltb_true; exact Himpact).
  destruct (Rltb 0 (impactComponent playerCar targetCar));
    (do 4 eexists; split; [reflexivity|]);
    (split; [split; [exact HD | apply Math_round_integer]|]);
    (split; [reflexivity|]); (split; [reflexivity|]);
    cbn [Car.health Car.with_health]; rewrite !Health_get_set_eq;
    (split; intros Hleft; apply Rmax_right;
     fold s; fold D; fold collisionAngle; fold playerHitZone;
     fold targetHitZone; fold oldPlayer; fold oldTarget; unfold s, D in *;
     lra).
Qed.

(** The scene: impact speed 5, damage 9, 1.35 off the moving car's front
    and 9 off the parked car's rear. *)
Lemma handleCarCollision_damage_witness :
  exists (playerCar' targetCar' : Car.t) (px py : R),
    handleCarCollision sceneA sceneB 0 [] (1 / 2) (1 / 2) 1000
    = (playerCar', targetCar', [DamagePopup.mk px py 9 Zrear 0], 1000%Z)
    /\ Car.health playerCar' = Health.mk 98.65 100 100 100
    /\ Car.health targetCar' = Health.mk 100 91 100 100.
Proof.
  pose proof PI_RGT_0 as Hpi.
  assert (H1 : checkCarCollision sceneA sceneB = true) by exact scene_check.
  assert (H2 : centerDistance sceneA sceneB <> 0).
  { rewrite scene_distance. lra. }
  assert (H3 : (150 <= 1000 - 0)%Z) by lia.
  assert (H4 : MIN_IMPACT_FOR_DAMAGE < impactSpeed sceneA sceneB).
  { rewrite scene_impactSpeed. unfold MIN_IMPACT_FOR_DAMAGE. lra. }
  destruct (handleCarCollision_damage sceneA sceneB 0 [] (1 / 2) (1 / 2) 1000
              H1 H2 H3 H4)
    as (p' & t' & px & py & Hrun & _ & Hp & Ht & _).
  rewrite scene_angle, scene_impactSpeed in Hrun, Hp, Ht.
  assert (HD : Math_round ((5 - 2) * 3) = 9).
  { unfold Math_round. f_equal. apply Zfloor_eq. simpl. lra. }
  destruct scene_zones as [Hzp Hzt].
  rewrite HD, Hzt in Hrun, Ht. rewrite HD, Hzp in Hp.
  exists p', t', px, py. split; [rewrite Hrun; reflexivity|]. split.
  - rewrite Hp. cbn. f_equal. rewrite Rmax_right; lra.
  - rewrite Ht. cbn. f_equal. rewrite Rmax_right; lra.
Defined.

(** ** C2: hit-zone classification *)






(** ** What each operation does to health *)

(** [handleCarCollision] either leaves both health records alone or takes
    a non-negative damage from one zone of each, clamped at 0. *)
Lemma handleCarCollision_health (p t : Car.t) (lastCollisionTime : Z)
    (damagePopups : list DamagePopup.t) (rnd1 rnd2 : R) (now : Z) :
  let '(p', t', _, _) :=
    handleCarCollision p t lastCollisionTime damagePopups rnd1 rnd2 now in
  (Car.health p' = Car.health p /\ Car.health t' = Car.health t)
  \/ exists (D : R) (zp zt : HitZone),
       0 <= D
       /\ Car.health p'
          = Health.set zp
              (Rmax 0 (Health.get zp (Car.health p)
                       - D * ATTACKER_DAMAGE_RATIO))
              (Car.health p)
       /\ Car.health t'
          = Health.set zt (Rmax 0 (Health.get zt (Car.health t) - D))
              (Car.health t).
Proof.
  unfold handleCarCollision.
  destruct (checkCarCollision p t); simpl negb; cbv iota; [|left; easy].
  destruct (Rleb _ _ || Reqb _ _); [left; easy|].
  destruct (Rltb 0 (impactComponent p t));
    (destruct (now - lastCollisionTime <? 150)%Z; [left; easy|]);
    (destruct (Rltb MIN_IMPACT_FOR_DAMAGE (impactSpeed p t)) eqn:Hs;
     [|left; easy]);
    apply Rltb_true in Hs; right;
    (eexists; eexists; eexists; split; [exact (damage_nonneg _ Hs)|]);
    split; reflexivity.
Qed.

Lemma zonesInRange_damage (h : Health.t) (z : HitZone) (d : R) :
  zonesInRange h -> 0 <= d ->
  zonesInRange (Health.set z (Rmax 0 (Health.get z h - d)) h).
Proof.
  intros Hh Hd z'. destruct (decide (z = z')) as [<-|Hne].
  - rewrite Health_get_set_eq. pose proof (Hh z) as Hz.
    unfold Rmax. destruct (Rle_dec 0 (Health.get z h - d)); lra.
  - rewrite Health_get_set_ne by exact Hne. apply Hh.
Qed.

Lemma handleCarCollision_zonesInRange (p t : Car.t) (lastCollisionTime : Z)
    (damagePopups : list DamagePopup.t) (rnd1 rnd2 : R) (now : Z) :
  zonesInRange (Car.health p) -> zonesInRange (Car.health t) ->
  let '(p', t', _, _) :=
    handleCarCollision p t lastCollisionTime damagePopups rnd1 rnd2 now in
  zonesInRange (Car.health p') /\ zonesInRange (Car.health t').
Proof.
  intros Hp Ht.
  pose proof (handleCarCollision_health p t lastCollisionTime damagePopups
                rnd1 rnd2 now) as H.
  destruct (handleCarCollision p t lastCollisionTime damagePopups rnd1 rnd2
              now) as [[[p' t'] popups] time].
  destruct H as [[-> ->]|(D & zp & zt & HD & -> & ->)]; [easy|].
  split; apply zonesInRange_damage; try assumption.
  unfold ATTACKER_DAMAGE_RATIO. lra.
Qed.

Lemma sameBody_refl (c : Car.t) : sameBody c c.
Proof. repeat split. Qed.

Lemma sameBody_trans (c1 c2 c3 : Car.t) :
  sameBody c1 c2 -> sameBody c2 c3 -> sameBody c1 c3.
Proof.
  unfold sameBody. intros (? & ? & ? & ? & ?) (? & ? & ? & ? & ?).
  repeat split; congruence.
Qed.

Lemma steer_frame (c : Car.t) (input : AnalogInput.t) :
  sameBody c (steer c input).
Proof. unfold steer. stage_cases; repeat split. Qed.

Lemma accelerate_frame (c : Car.t) (input : AnalogInput.t) :
  sameBody c (accelerate c input).
Proof. unfold accelerate. stage_cases; repeat split. Qed.

Lemma applyFriction_frame (c : Car.t) : sameBody c (applyFriction c).
Proof. repeat split. Qed.

Lemma limitSpeed_frame (c : Car.t) : sameBody c (fst (limitSpeed c)).
Proof. unfold limitSpeed. stage_cases; repeat split. Qed.

Lemma move_frame (c : Car.t) : sameBody c (move c).
Proof. repeat split. Qed.

(** The integrator writes position, velocity, heading and angular
    velocity only. *)
Lemma updatePlayerCarPhysics_frame (c : Car.t) (input : AnalogInput.t) :
  let c' := fst (updatePlayerCarPhysics c input) in
  Car.health c' = Car.health c /\ Car.width c' = Car.width c
  /\ Car.height c' = Car.height c /\ Car.color c' = Car.color c
  /\ Car.isStatic c' = Car.isStatic c.
Proof.
  cbv zeta. unfold updatePlayerCarPhysics.
  pose proof (steer_frame c input) as H1.
  pose proof (accelerate_frame (steer c input) input) as H2.
  pose proof (applyFriction_frame (accelerate (steer c input) input)) as H3.
  pose proof (limitSpeed_frame
                (applyFriction (accelerate (steer c input) input))) as H4.
  destruct (limitSpeed (applyFriction (accelerate (steer c input) input)))
    as [c1 speed].
  cbn [fst] in *. pose proof (move_frame c1) as H5.
  exact (sameBody_trans _ _ _
           (sameBody_trans _ _ _
              (sameBody_trans _ _ _ (sameBody_trans _ _ _ H1 H2) H3) H4) H5).
Qed.

(** The wall collision writes position, velocity and angular velocity
    only. *)
Lemma wallCorner_frame (c : Car.t) (collided : bool) (corner : Point.t) :
  let c' := fst (wallCorner (c, collided) corner) in
  Car.health c' = Car.health c /\ Car.width c' = Car.width c
  /\ Car.height c' = Car.height c /\ Car.angle c' = Car.angle c.
Proof.
  cbv zeta. unfold wallCorner.
  assert (Hl : forall st, let c' := fst (wallLeft st corner) in
             Car.health c' = Car.health (fst st)
             /\ Car.width c' = Car.width (fst st)
             /\ Car.height c' = Car.height (fst st)
             /\ Car.angle c' = Car.angle (fst st)).
  { intros [c0 k0]. unfold wallLeft. stage_cases; repeat split. }
  assert (Hr : forall st, let c' := fst (wallRight st corner) in
             Car.health c' = Car.health (fst st)
             /\ Car.width c' = Car.width (fst st)
             /\ Car.height c' = Car.height (fst st)
             /\ Car.angle c' = Car.angle (fst st)).
  { intros [c0 k0]. unfold wallRight. stage_cases; repeat split. }
  assert (Ht : forall st, let c' := fst (wallTop st corner) in
             Car.health c' = Car.health (fst st)
             /\ Car.width c' = Car.width (fst st)
             /\ Car.height c' = Car.height (fst st)
             /\ Car.angle c' = Car.angle (fst st)).
  { intros [c0 k0]. unfold wallTop. stage_cases; repeat split. }
  assert (Hb : forall st, let c' := fst (wallBottom st corner) in
             Car.health c' = Car.health (fst st)
             /\ Car.width c' = Car.width (fst st)
             /\ Car.height c' = Car.height (fst st)
             /\ Car.angle c' = Car.angle (fst st)).
  { intros [c0 k0]. unfold wallBottom. stage_cases; repeat split. }
  destruct (Hl (c, collided)) as (L1 & L2 & L3 & L4).
  destruct (Hr (wallLeft (c, collided) corner)) as (R1 & R2 & R3 & R4).
  destruct (Ht (wallRight (wallLeft (c, collided) corner) corner))
    as (T1 & T2 & T3 & T4).
  destruct (Hb (wallTop (wallRight (wallLeft (c, collided) corner) corner)
                  corner)) as (B1 & B2 & B3 & B4).
  cbn [fst] in *. repeat split; congruence.
Qed.

Lemma fold_wallCorner_frame (corners : list Point.t) (c : Car.t)
    (collided : bool) :
  let c' := fst (fold_left wallCorner corners (c, collided)) in
  Car.health c' = Car.health c /\ Car.width c' = Car.width c
  /\ Car.height c' = Car.height c /\ Car.angle c' = Car.angle c.
Proof.
  revert c collided. induction corners as [|corner corners IH];
    intros c collided; [easy|].
  cbn [fold_left]. pose proof (wallCorner_frame c collided corner) as Hc.
  destruct (wallCorner (c, collided) corner) as [c1 collided1].
  cbn [fst] in Hc. destruct Hc as (H1 & H2 & H3 & H4).
  destruct (IH c1 collided1) as (I1 & I2 & I3 & I4).
  repeat split; congruence.
Qed.

Lemma handleWallCollisions_frame (c : Car.t) (rnd : R) :
  let c' := fst (handleWallCollisions c rnd) in
  Car.health c' = Car.health c /\ Car.width c' = Car.width c
  /\ Car.height c' = Car.height c /\ Car.angle c' = Car.angle c.
Proof.
  unfold handleWallCollisions.
  pose proof (fold_wallCorner_frame (getCarCorners c) c false) as Hf.
  destruct (fold_left wallCorner (getCarCorners c) (c, false))
    as [c1 collided1].
  cbn [fst] in Hf. destruct collided1; exact Hf.
Qed.

(** The collision pass keeps the keys and the order of the map; every
    entry is the old one with a new [current] written into it, and a
    property of cars that [handleCarCollision] preserves still holds of the
    player car and of every written [current]. *)
Lemma collideOthers_entries (P : Car.t -> Prop)
    (Pstep : forall p t last popups r1 r2 now,
        P p -> P t ->
        let '(p', t', _, _) := handleCarCollision p t last popups r1 r2 now in
        P p' /\ P t')
    (env : TickEnv.t) (others : JsMap InterpolatedCar.t) :
  forall (playerCar : Car.t) (times : gmap string Z)
         (popups : list DamagePopup.t),
    P playerCar ->
    Forall (fun entry => P (InterpolatedCar.current (snd entry))) others ->
    let '(playerCar', _, _, others') :=
      collideOthers env playerCar times popups others in
    P playerCar'
    /\ Forall2 (fun old new =>
                  fst new = fst old
                  /\ exists c : Car.t,
                       P c /\ snd new = writeCurrent (snd old) c)
         others others'.
Proof.
  induction others as [|[odId ic] rest IH];
    intros playerCar times popups Hp Hall.
  - simpl. split; [exact Hp | constructor].
  - cbn [collideOthers].
    apply Forall_cons in Hall. destruct Hall as [Hic Hrest].
    cbn [snd] in Hic.
    pose proof (Pstep playerCar (InterpolatedCar.current ic)
                  (default 0%Z (times !! odId)) popups
                  (fst (TickEnv.collisionRandom env odId))
                  (snd (TickEnv.collisionRandom env odId))
                  (TickEnv.collisionNow env odId) Hp Hic) as Hstep.
    destruct (handleCarCollision playerCar (InterpolatedCar.current ic) _ _ _
                _ _) as [[[p1 c1] popups1] time1].
    destruct Hstep as [Hp1 Hc1].
    specialize (IH p1
                  (if bool_decide (time1 = default 0%Z (times !! odId))
                   then times else <[odId:=time1]> times)
                  popups1 Hp1 Hrest).
    destruct (collideOthers env p1 _ popups1 rest)
      as [[[p2 times2] popups2] rest2].
    destruct IH as [Hp2 Hrest2]. split; [exact Hp2|].
    constructor; [|exact Hrest2].
    cbn [fst snd]. split; [reflexivity|]. exists c1. easy.
Qed.

(** ** C3: health zones stay within [[0, 100]] *)

Lemma createCar_zonesInRange (x y : R) (color : string) (angle : R)
    (isStatic : bool) :
  zonesInRange (Car.health (createCar x y color angle isStatic)).
Proof. intros z. destruct z; cbn; lra. Qed.

Lemma interpolateOtherPlayers_ok (others : JsMap InterpolatedCar.t) :
  Forall entryOk others -> Forall entryOk (interpolateOtherPlayers others).
Proof.
  induction 1 as [|e l [_ Ht] _ IH]; constructor; [|exact IH].
  split; exact Ht.
Qed.

Lemma writeCurrent_ok (r : InterpolatedCar.t) (c : Car.t) (k : string) :
  entryOk (k, r) -> zonesInRange (Car.health c) ->
  entryOk (k, writeCurrent r c).
Proof.
  intros [_ Ht] Hc. unfold writeCurrent, entryOk.
  destruct (InterpolatedCar.sharedHealth r); cbn; easy.
Qed.

Lemma collideOthers_ok (env : TickEnv.t) (playerCar : Car.t)
    (times : gmap string Z) (popups : list DamagePopup.t)
    (others : JsMap InterpolatedCar.t) :
  zonesInRange (Car.health playerCar) -> Forall entryOk others ->
  let '(playerCar', _, _, others') :=
    collideOthers env playerCar times popups others in
  zonesInRange (Car.health playerCar') /\ Forall entryOk others'.
Proof.
  intros Hp Hall.
  pose proof (collideOthers_entries
                (fun c => zonesInRange (Car.health c))
                handleCarCollision_zonesInRange env others playerCar times
                popups Hp) as Hc.
  destruct (collideOthers env playerCar times popups others)
    as [[[p' times'] popups'] others'].
  destruct Hc as [Hp' Hrel].
  { eapply Forall_impl; [exact Hall|]. intros e He. apply He. }
  split; [exact Hp'|].
  clear Hp Hp'. revert Hall.
  induction Hrel as [|[k r] [k' r'] l l' (Hk & c & Hc & Hw) _ IH];
    intros Hall; [constructor|].
  apply Forall_cons in Hall. destruct Hall as [He Hl].
  constructor; [|apply IH; exact Hl].
  cbn [fst snd] in Hk, Hw. subst k' r'.
  apply writeCurrent_ok; assumption.
Qed.

Lemma Map_set_ok (k : string) (r : InterpolatedCar.t)
    (m : JsMap InterpolatedCar.t) :
  entryOk (k, r) -> Forall entryOk m -> Forall entryOk (Map_set k r m).
Proof.
  intros Hr. induction 1 as [|[k' r'] m He Hm IH]; simpl.
  - constructor; [exact Hr | constructor].
  - destruct (decide (k = k')); constructor; assumption.
Qed.

Lemma Map_delete_ok (k : string) (m : JsMap InterpolatedCar.t) :
  Forall entryOk m -> Forall entryOk (Map_delete k m).
Proof.
  induction 1 as [|[k' r'] m He _ IH]; simpl; [constructor|].
  destruct (decide (k = k')); [exact IH | constructor; assumption].
Qed.

Lemma Map_get_ok (k : string) (r : InterpolatedCar.t)
    (m : JsMap InterpolatedCar.t) :
  Forall entryOk m -> Map_get k m = Some r -> entryOk (k, r).
Proof.
  induction 1 as [|[k' r'] m He _ IH]; simpl; [discriminate|].
  destruct (decide (k = k')) as [->|_]; [|exact IH].
  intros [= <-]. exact He.
Qed.

Lemma freshRecord_ok (k : string) (p : PlayerState.t) :
  zonesInRange (PlayerState.health p) ->
  entryOk (k, freshRecord (playerStateToCar p)).
Proof. intros Hp. split; exact Hp. Qed.

Lemma fold_playersEntry_ok (self : option string)
    (currentPlayers : JsMap InterpolatedCar.t) (ps : list PlayerState.t) :
  Forall entryOk currentPlayers ->
  Forall (fun p => zonesInRange (PlayerState.health p)) ps ->
  forall acc, Forall entryOk acc ->
  Forall entryOk (fold_left (playersEntry self currentPlayers) ps acc).
Proof.
  intros Hcur. induction 1 as [|p ps Hp _ IH]; intros acc Hacc;
    [exact Hacc|].
  cbn [fold_left]. apply IH. unfold playersEntry.
  destruct (isOther self (PlayerState.id p)); [|exact Hacc].
  destruct (Map_get (PlayerState.id p) currentPlayers) as [existing|] eqn:Hg.
  - apply Map_set_ok; [|exact Hacc].
    apply (Map_get_ok _ _ _ Hcur) in Hg. destruct Hg as [Hc _].
    split; [exact Hc | exact Hp].
  - apply Map_set_ok; [|exact Hacc]. apply freshRecord_ok. exact Hp.
Qed.

Lemma fold_welcomeEntry_ok (self : string) (ps : list PlayerState.t) :
  Forall (fun p => zonesInRange (PlayerState.health p)) ps ->
  forall acc, Forall entryOk acc ->
  Forall entryOk (fold_left (welcomeEntry self) ps acc).
Proof.
  induction 1 as [|p ps Hp _ IH]; intros acc Hacc; [exact Hacc|].
  cbn [fold_left]. apply IH. unfold welcomeEntry.
  destruct (negb _); [|exact Hacc].
  apply Map_set_ok; [|exact Hacc]. apply freshRecord_ok. exact Hp.
Qed.

Lemma onmessage_ok (h : Hook.t) (message : ServerMessage) :
  Forall entryOk (Hook.otherPlayersRef h) ->
  Forall (fun p => zonesInRange (PlayerState.health p))
    (snapshotsOf message) ->
  Forall entryOk (Hook.otherPlayersRef (onmessage h message)).
Proof.
  intros Hh Hm. destruct message as [players|player|id|id players];
    cbn [onmessage snapshotsOf Hook.otherPlayersRef] in *.
  - apply fold_playersEntry_ok; [exact Hh | exact Hm | constructor].
  - destruct (isOther _ _); [|exact Hh].
    cbn [Hook.otherPlayersRef]. apply Map_set_ok; [|exact Hh].
    apply freshRecord_ok. apply Forall_cons in Hm. apply Hm.
  - apply Map_delete_ok. exact Hh.
  - apply fold_welcomeEntry_ok; [exact Hm | constructor].
Qed.

Lemma applyOp_ok (g : Game.t) (op : Op) :
  allZonesInRange g -> snapshotsInRange op -> allZonesInRange (applyOp g op).
Proof.
  intros [Hp Ho] Hop. unfold allZonesInRange.
  destruct op as [env input|input|env|rnd| |message]; cbn [applyOp].
  - unfold updatePhysics.
    pose proof (updatePlayerCarPhysics_frame (Game.playerCar g) input) as Hf.
    destruct (updatePlayerCarPhysics (Game.playerCar g) input) as [p1 speed].
    cbn [fst] in Hf. destruct Hf as (Hh1 & _).
    pose proof (collideOthers_ok env p1 (Game.lastCollisionTime g)
                  (Game.damagePopups g)
                  (interpolateOtherPlayers
                     (Hook.otherPlayersRef (Game.hook g)))) as Hc.
    rewrite Hh1 in Hc.
    specialize (Hc Hp (interpolateOtherPlayers_ok _ Ho)).
    destruct (collideOthers env p1 _ _ _) as [[[p2 times2] popups2] others2].
    destruct Hc as [Hp2 Ho2].
    pose proof (handleWallCollisions_frame p2 (TickEnv.wallRandom env))
      as Hw.
    destruct (handleWallCollisions p2 (TickEnv.wallRandom env)) as [p3 hit].
    cbn [fst] in Hw. destruct Hw as (Hh3 & _).
    cbn [Game.playerCar Game.hook Hook.otherPlayersRef].
    rewrite Hh3. split; assumption.
  - cbn [Game.playerCar Game.hook].
    destruct (updatePlayerCarPhysics_frame (Game.playerCar g) input)
      as (-> & _). split; assumption.
  - pose proof (collideOthers_ok env (Game.playerCar g)
                  (Game.lastCollisionTime g) (Game.damagePopups g)
                  (Hook.otherPlayersRef (Game.hook g)) Hp Ho) as Hc.
    destruct (collideOthers env _ _ _ _) as [[[p2 times2] popups2] others2].
    exact Hc.
  - cbn [Game.playerCar Game.hook].
    destruct (handleWallCollisions_frame (Game.playerCar g) rnd)
      as (-> & _). split; assumption.
  - cbn [withOthers Game.playerCar Game.hook Hook.otherPlayersRef].
    split; [exact Hp|]. apply interpolateOtherPlayers_ok. exact Ho.
  - cbn [deliver Game.playerCar Game.hook].
    split; [exact Hp|]. apply onmessage_ok; assumption.
Qed.

Lemma run_ok (ops : list Op) (g : Game.t) :
  allZonesInRange g -> Forall snapshotsInRange ops ->
  allZonesInRange (run ops g).
Proof.
  intros Hg Hops. revert g Hg. unfold run.
  induction Hops as [|op ops Hop _ IH]; intros g Hg; [exact Hg|].
  cbn [fold_left]. apply IH. apply applyOp_ok; assumption.
Qed.

(** The player's own car: its health is written by the collision
    resolver only, which clamps at 0 and never adds, whatever the other
    car holds. *)
Lemma handleCarCollision_player_zonesInRange (p t : Car.t)
    (lastCollisionTime : Z) (damagePopups : list DamagePopup.t)
    (rnd1 rnd2 : R) (now : Z) :
  zonesInRange (Car.health p) ->
  zonesInRange
    (Car.health
       (fst (fst (fst (handleCarCollision p t lastCollisionTime damagePopups
                         rnd1 rnd2 now))))).
Proof.
  intros Hp.
  pose proof (handleCarCollision_health p t lastCollisionTime damagePopups
                rnd1 rnd2 now) as H.
  destruct (handleCarCollision p t lastCollisionTime damagePopups rnd1 rnd2
              now) as [[[p' t'] popups] time]. cbn [fst].
  destruct H as [[-> _]|(D & zp & zt & HD & -> & _)]; [exact Hp|].
  apply zonesInRange_damage; [exact Hp|].
  unfold ATTACKER_DAMAGE_RATIO. lra.
Qed.

Lemma collideOthers_player_zonesInRange (env : TickEnv.t)
    (others : JsMap InterpolatedCar.t) :
  forall (playerCar : Car.t) (times : gmap string Z)
         (popups : list DamagePopup.t),
    zonesInRange (Car.health playerCar) ->
    zonesInRange
      (Car.health
         (fst (fst (fst (collideOthers env playerCar times popups others))))).
Proof.
  induction others as [|[odId interpolatedCar] rest IH];
    intros playerCar times popups Hp; [exact Hp|].
  cbn [collideOthers].
  pose proof (handleCarCollision_player_zonesInRange playerCar
                (InterpolatedCar.current interpolatedCar)
                (default 0%Z (times !! odId)) popups
                (fst (TickEnv.collisionRandom env odId))
                (snd (TickEnv.collisionRandom env odId))
                (TickEnv.collisionNow env odId) Hp) as Hp1.
  destruct (handleCarCollision playerCar _ _ _ _ _ _)
    as [[[p1 o1] popups1] newTime]. cbn [fst] in Hp1.
  pose proof (IH p1
                (if bool_decide (newTime = default 0%Z (times !! odId))
                 then times else <[odId := newTime]> times)
                popups1 Hp1) as Hp2.
  destruct (collideOthers env p1 _ popups1 rest)
    as [[[p2 times2] popups2] rest2]. exact Hp2.
Qed.

Lemma applyOp_player_zonesInRange (g : Game.t) (op : Op) :
  zonesInRange (Car.health (Game.playerCar g)) ->
  zonesInRange (Car.health (Game.playerCar (applyOp g op))).
Proof.
  intros Hp.
  destruct op as [env input|input|env|rnd| |message]; cbn [applyOp].
  - unfold updatePhysics.
    pose proof (updatePlayerCarPhysics_frame (Game.playerCar g) input) as Hf.
    destruct (updatePlayerCarPhysics (Game.playerCar g) input) as [p1 speed].
    cbn [fst] in Hf. destruct Hf as (Hh1 & _). rewrite <- Hh1 in Hp.
    pose proof (collideOthers_player_zonesInRange env
                  (interpolateOtherPlayers
                     (Hook.otherPlayersRef (Game.hook g)))
                  p1 (Game.lastCollisionTime g) (Game.damagePopups g) Hp)
      as Hc.
    destruct (collideOthers env p1 _ _ _) as [[[p2 times2] popups2] others2].
    cbn [fst] in Hc.
    pose proof (handleWallCollisions_frame p2 (TickEnv.wallRandom env))
      as Hw.
    destruct (handleWallCollisions p2 (TickEnv.wallRandom env)) as [p3 hit].
    cbn [fst] in Hw. destruct Hw as (Hh3 & _).
    cbn [Game.playerCar]. rewrite Hh3. exact Hc.
  - cbn [Game.playerCar].
    destruct (updatePlayerCarPhysics_frame (Game.playerCar g) input)
      as (-> & _). exact Hp.
  - pose proof (collideOthers_player_zonesInRange env
                  (Hook.otherPlayersRef (Game.hook g)) (Game.playerCar g)
                  (Game.lastCollisionTime g) (Game.damagePopups g) Hp) as Hc.
    destruct (collideOthers env _ _ _ _) as [[[p2 times2] popups2] others2].
    exact Hc.
  - cbn [Game.playerCar].
    destruct (handleWallCollisions_frame (Game.playerCar g) rnd)
      as (-> & _). exact Hp.
  - exact Hp.
  - exact Hp.
Qed.

Lemma run_player_zonesInRange (ops : list Op) (g : Game.t) :
  zonesInRange (Car.health (Game.playerCar g)) ->
  zonesInRange (Car.health (Game.playerCar (run ops g))).
Proof.
  revert g. unfold run. induction ops as [|op ops IH]; intros g Hg;
    [exact Hg|].
  cbn [fold_left]. apply IH. apply applyOp_player_zonesInRange. exact Hg.
Qed.

(** The snapshot of "b" at speed 5 towards the car at the origin,
    evaluated: impact speed 5, damage 9, 1.35 off the front of the car at
    the origin and 9 off the rear of "b". *)
Lemma approach_collision (rnd1 rnd2 : R) :
  exists (p' t' : Car.t) (px py : R),
    handleCarCollision restA (playerStateToCar approachingB) 0 [] rnd1 rnd2
      1000
    = (p', t', [DamagePopup.mk px py 9 Zrear 0], 1000%Z)
    /\ Car.health p' = Health.mk 98.65 100 100 100
    /\ Car.health t' = Health.mk 100 91 100 100.
Proof.
  pose proof PI_RGT_0 as Hpi.
  set (carB := playerStateToCar approachingB).
  assert (Hdist : centerDistance restA carB = 10).
  { unfold centerDistance, restA, carB. cbn.
    replace ((10 - 0) * (10 - 0) + (0 - 0) * (0 - 0)) with (10 * 10) by ring.
    apply sqrt_square. lra. }
  assert (Hcheck : checkCarCollision restA carB = true).
  { unfold checkCarCollision.
    change (sqrt _) with (centerDistance restA carB).
    rewrite Hdist. apply Rltb_true. cbn. unfold CAR_WIDTH. lra. }
  assert (Hcomp : impactComponent restA carB = 5).
  { unfold impactComponent. rewrite Hdist. cbn. field. }
  assert (Hspeed : impactSpeed restA carB = 5).
  { unfold impactSpeed. rewrite Hcomp. apply Rabs_pos_eq. lra. }
  assert (Hangle : Math_atan2 (Car.y carB - Car.y restA)
                     (Car.x carB - Car.x restA) = 0).
  { cbn. unfold Math_atan2.
    replace (Rltb 0 (10 - 0)) with true by (symmetry; apply Rltb_true; lra).
    replace ((0 - 0) / (10 - 0)) with 0 by (field; lra). apply atan_0. }
  assert (Hzp : getHitZone restA 0 = Zfront).
  { replace 0 with (Car.angle restA + 0) at 1 by (cbn; ring).
    rewrite getHitZone_at by lra. apply (zoneOfRelative_quadrants 0). lra. }
  assert (Hzt : getHitZone carB (0 + PI) = Zrear).
  { replace (0 + PI) with (Car.angle carB + PI) by (cbn; ring).
    rewrite getHitZone_at by lra.
    apply (zoneOfRelative_quadrants PI). left. lra. }
  assert (HD : Math_round ((5 - 2) * 3) = 9).
  { unfold Math_round. f_equal. apply Zfloor_eq. simpl. lra. }
  unfold handleCarCollision.
  rewrite Hcheck, Hdist, Hspeed, Hcomp, Hangle.
  simpl negb. cbv iota.
  change (1000 - 0 <? 150)%Z with false.
  unfold MIN_IMPACT_FOR_DAMAGE, DAMAGE_MULTIPLIER, ATTACKER_DAMAGE_RATIO.
  change (Car.width restA) with 50. change (Car.width carB) with 50.
  cmp_eval. simpl orb. cbv iota.
  match goal with
  | |- context [getHitZone ?c 0] =>
      change (getHitZone c 0) with (getHitZone restA 0)
  end.
  match goal with
  | |- context [getHitZone ?c (0 + PI)] =>
      change (getHitZone c (0 + PI)) with (getHitZone carB (0 + PI))
  end.
  rewrite Hzp, Hzt, HD.
  do 4 eexists. split; [reflexivity|].
  cbn. rewrite !Rmax_right by lra.
  split; f_equal; lra.
Qed.

(** C3, as the code has it.  A client starts with its car created by
    [createCar] and no remote vehicle.  After any sequence of whole ticks,
    of single integrator, collision, wall and interpolation steps, and of
    relay messages, whatever they carry, every zone of the player's own
    car lies in [[0, 100]].  Nothing on the way from the relay to the map
    of tracked vehicles clamps a snapshot: the zones of the [current] and
    the [target] of every tracked remote vehicle lie in [[0, 100]]
    provided the snapshots delivered do. *)
Theorem health_zones_in_range_up_to_snapshots (x y angle : R)
    (ops : list Op) :
  let g := run ops (newGame x y angle) in
  (forall z : HitZone,
      0 <= Health.get z (Car.health (Game.playerCar g)) <= 100)
  /\ (Forall snapshotsInRange ops ->
      Forall (fun entry =>
                forall z : HitZone,
                  0 <= Health.get z
                         (Car.health (InterpolatedCar.current (snd entry)))
                    <= 100
                  /\ 0 <= Health.get z
                            (Car.health (InterpolatedCar.target (snd entry)))
                       <= 100)
        (Hook.otherPlayersRef (Game.hook g))).
Proof.
  intros g. split.
  - apply (run_player_zonesInRange ops (newGame x y angle)).
    apply createCar_zonesInRange.
  - intros Hops.
    assert (Hg : allZonesInRange g).
    { apply run_ok; [|exact Hops]. split; [|constructor].
      apply createCar_zonesInRange. }
    destruct Hg as [_ Ho].
    eapply Forall_impl; [exact Ho|].
    intros e [Hc Ht] z. split; [apply Hc | apply Ht].
Qed.

(** A session with a damaging hit: "b" joins ten units ahead, driving at
    the player at speed 5; the collision takes 1.35 from the player's
    front and 9 from the rear of "b"; then an interpolation step, a whole
    tick, a roster update and "b" leaving. *)
Lemma health_zones_in_range_up_to_snapshots_witness :
  let hit :=
    run [OpMessage (MsgPlayerJoined approachingB); OpCollide calmEnv]
      (newGame 0 0 0) in
  let g :=
    run [OpMessage (MsgPlayerJoined approachingB); OpCollide calmEnv;
         OpInterpolate; OpTick calmEnv throttle;
         OpMessage (MsgPlayers [("b", approachingB)]);
         OpWalls (1 / 2); OpIntegrate throttle; OpMessage (MsgPlayerLeft "b")]
      (newGame 0 0 0) in
  Car.health (Game.playerCar hit) = Health.mk 98.65 100 100 100
  /\ (exists r : InterpolatedCar.t,
        Map_get "b" (Hook.otherPlayersRef (Game.hook hit)) = Some r
        /\ Car.health (InterpolatedCar.current r) = Health.mk 100 91 100 100)
  /\ (forall z : HitZone,
        0 <= Health.get z (Car.health (Game.playerCar g)) <= 100)
  /\ Forall (fun entry =>
               forall z : HitZone,
                 0 <= Health.get z
                        (Car.health (InterpolatedCar.current (snd entry)))
                   <= 100
                 /\ 0 <= Health.get z
                           (Car.health (InterpolatedCar.target (snd entry)))
                      <= 100)
       (Hook.otherPlayersRef (Game.hook g)).
Proof.
  cbv zeta.
  assert (Hfull : zonesInRange (Health.mk 100 100 100 100)).
  { intros z. destruct z; cbn; lra. }
  destruct (approach_collision (1 / 2) (1 / 2))
    as (p' & t' & px & py & Hrun & Hp & Ht).
  assert (Hhit :
    run [OpMessage (MsgPlayerJoined approachingB); OpCollide calmEnv]
      (newGame 0 0 0)
    = Game.mk p'
        (Hook.mk None
           [("b", writeCurrent (freshRecord (playerStateToCar approachingB))
                    t')] 2)
        (<["b" := 1000%Z]> ∅) [DamagePopup.mk px py 9 Zrear 0]).
  { unfold run. cbn [fold_left applyOp deliver onmessage Game.playerCar
                       Game.hook Game.lastCollisionTime Game.damagePopups
                       newGame Hook.playerIdRef Hook.otherPlayersRef
                       Hook.playerCount isOther PlayerState.id approachingB
                       Map_set length Nat.add collideOthers
                       InterpolatedCar.current freshRecord calmEnv
                       TickEnv.collisionRandom TickEnv.collisionNow fst snd].
    rewrite lookup_empty. cbn [default].
    change (createCar 0 0 "#e74c3c" 0 false) with restA.
    change (PlayerState.mk "b" 10 0 (-5) 0 0 0 "#3498db"
              (Health.mk 100 100 100 100)) with approachingB.
    rewrite Hrun. reflexivity. }
  split; [rewrite Hhit; exact Hp|]. split.
  - rewrite Hhit. eexists. split; [reflexivity|]. cbn. exact Ht.
  - destruct (health_zones_in_range_up_to_snapshots 0 0 0
                [OpMessage (MsgPlayerJoined approachingB); OpCollide calmEnv;
                 OpInterpolate; OpTick calmEnv throttle;
                 OpMessage (MsgPlayers [("b", approachingB)]);
                 OpWalls (1 / 2); OpIntegrate throttle;
                 OpMessage (MsgPlayerLeft "b")]) as [Hplayer Hothers].
    split; [exact Hplayer|]. apply Hothers.
    repeat (first [apply Forall_nil | apply Forall_cons; split]);
      cbn [snapshotsInRange snapshotsOf Object_values map snd];
      repeat (first [apply Forall_nil | apply Forall_cons; split]);
      first [exact I | exact Hfull].
Defined.

(** Nothing clamps a snapshot.  "b" joins with a front zone of 150: the
    vehicle is tracked with that zone, and still has it after an
    interpolation step. *)
Lemma snapshot_above_range_is_tracked :
  let g :=
    run [OpMessage (MsgPlayerJoined overfullB); OpInterpolate]
      (newGame 1350 900 0) in
  exists r : InterpolatedCar.t,
    Map_get "b" (Hook.otherPlayersRef (Game.hook g)) = Some r
    /\ Health.get Zfront (Car.health (InterpolatedCar.current r)) = 150
    /\ Health.get Zfront (Car.health (InterpolatedCar.target r)) = 150
    /\ 100 < 150.
Proof.
  cbv zeta. eexists. split; [reflexivity|].
  split; [reflexivity|]. split; [reflexivity | lra].
Qed.

(** ** C4: roster updates and the reconciliation map *)

Lemma Map_get_set_eq {V : Type} (k : string) (v : V) (m : JsMap V) :
  Map_get k (Map_set k v m) = Some v.
Proof.
  induction m as [|[k' v'] m IH]; simpl.
  - rewrite decide_True by reflexivity. reflexivity.
  - destruct (decide (k = k')) as [->|Hne]; simpl.
    + rewrite decide_True by reflexivity. reflexivity.
    + rewrite decide_False by exact Hne. exact IH.
Qed.

Lemma Map_get_set_ne {V : Type} (k k' : string) (v : V) (m : JsMap V) :
  k <> k' -> Map_get k' (Map_set k v m) = Map_get k' m.
Proof.
  intros Hne. induction m as [|[k0 v0] m IH]; simpl.
  - rewrite decide_False by congruence. reflexivity.
  - destruct (decide (k = k0)) as [->|Hne0]; simpl.
    + rewrite !decide_False by congruence. reflexivity.
    + destruct (decide (k' = k0)); [reflexivity | exact IH].
Qed.

Lemma Map_get_delete_eq {V : Type} (k : string) (m : JsMap V) :
  Map_get k (Map_delete k m) = None.
Proof.
  induction m as [|[k' v'] m IH]; simpl; [reflexivity|].
  destruct (decide (k = k')) as [->|Hne]; simpl; [exact IH|].
  rewrite decide_False by exact Hne. exact IH.
Qed.

Lemma Map_get_delete_ne {V : Type} (k k' : string) (m : JsMap V) :
  k <> k' -> Map_get k' (Map_delete k m) = Map_get k' m.
Proof.
  intros Hne. induction m as [|[k0 v0] m IH]; simpl; [reflexivity|].
  destruct (decide (k = k0)) as [->|Hne0]; simpl.
  - rewrite decide_False by congruence. exact IH.
  - destruct (decide (k' = k0)); [reflexivity | exact IH].
Qed.

(** The fold of the ["players"] case, one id at a time: the id ends up
    with the record of the last player listed under it, and with what the
    accumulator held when no player is listed under it. *)
Lemma fold_playersEntry_get (self : option string)
    (currentPlayers : JsMap InterpolatedCar.t) (id : string)
    (ps : list PlayerState.t) (acc : JsMap InterpolatedCar.t) :
  Map_get id (fold_left (playersEntry self currentPlayers) ps acc)
  = if isOther self id
    then match last (filter (fun p => PlayerState.id p = id) ps) with
         | Some p => Some (reconciled currentPlayers p)
         | None => Map_get id acc
         end
    else Map_get id acc.
Proof.
  revert acc. induction ps as [|p ps IH]; intros acc.
  - simpl. destruct (isOther self id); reflexivity.
  - cbn [fold_left]. rewrite IH. rewrite filter_cons.
    unfold playersEntry at 1 2. fold (reconciled currentPlayers p).
    destruct (decide (PlayerState.id p = id)) as [Hid|Hid].
    + rewrite Hid. destruct (isOther self id) eqn:Ho; [|reflexivity].
      rewrite last_cons.
      destruct (last (filter (fun p0 => PlayerState.id p0 = id) ps));
        [reflexivity|].
      unfold reconciled. rewrite Hid.
      destruct (Map_get id currentPlayers); apply Map_get_set_eq.
    + destruct (isOther self id) eqn:Ho;
        destruct (isOther self (PlayerState.id p)); try reflexivity;
        destruct (last (filter (fun p0 => PlayerState.id p0 = id) ps));
        try reflexivity;
        destruct (Map_get (PlayerState.id p) currentPlayers);
        apply Map_get_set_ne; exact Hid.
Qed.

(** C4, as the code has it.  The ["players"] case builds a new map from
    the update alone and installs it: an id that no listed player carries
    is absent afterwards, so a tracked vehicle missing from the update is
    dropped together with its current and target state; a tracked id that
    is listed keeps its [current] and takes the last snapshot listed under
    it as its [target]; the own id is never stored.  ["player-left"]
    removes the named id and leaves every other entry alone. *)
Theorem players_update_rebuilds_map (h : Hook.t) (players : Roster)
    (id : string) :
  let self := Hook.playerIdRef h in
  let tracked := Hook.otherPlayersRef h in
  let h' := onmessage h (MsgPlayers players) in
  let left := onmessage h (MsgPlayerLeft id) in
  Hook.playerIdRef h' = self
  /\ Map_get id (Hook.otherPlayersRef h')
     = (if isOther self id
        then reconciled tracked <$> last (listedAs id players)
        else None)
  /\ (listedAs id players = [] -> Map_get id (Hook.otherPlayersRef h') = None)
  /\ (forall (existing : InterpolatedCar.t) (p : PlayerState.t),
        Map_get id tracked = Some existing ->
        last (listedAs id players) = Some p ->
        isOther self id = true ->
        Map_get id (Hook.otherPlayersRef h')
        = Some (InterpolatedCar.mk (InterpolatedCar.current existing)
                  (playerStateToCar p) false))
  /\ Map_get id (Hook.otherPlayersRef left) = None
  /\ (forall id' : string, id <> id' ->
        Map_get id' (Hook.otherPlayersRef left) = Map_get id' tracked).
Proof.
  cbv zeta. cbn [onmessage Hook.playerIdRef Hook.otherPlayersRef].
  assert (Hget :
    Map_get id
      (fold_left (playersEntry (Hook.playerIdRef h) (Hook.otherPlayersRef h))
         (Object_values players) [])
    = if isOther (Hook.playerIdRef h) id
      then reconciled (Hook.otherPlayersRef h) <$> last (listedAs id players)
      else None).
  { rewrite fold_playersEntry_get. unfold listedAs.
    destruct (isOther (Hook.playerIdRef h) id); [|reflexivity].
    destruct (last _); reflexivity. }
  split; [reflexivity|]. split; [exact Hget|]. split; [|split; [|split]].
  - intros Hnone. rewrite Hget, Hnone.
    destruct (isOther (Hook.playerIdRef h) id); reflexivity.
  - intros existing p Htracked Hlast Hother.
    rewrite Hget, Hother, Hlast. cbn [fmap option_fmap option_map].
    unfold reconciled.
    assert (Hid : PlayerState.id p = id).
    { apply last_Some_elem_of in Hlast. unfold listedAs in Hlast.
      apply list_elem_of_filter in Hlast. tauto. }
    rewrite Hid, Htracked. reflexivity.
  - apply Map_get_delete_eq.
  - intros id' Hne. apply Map_get_delete_ne. exact Hne.
Qed.

(** Client "a" tracks "b"; a roster that lists only "a" arrives: "b" is
    gone from the map, although no ["player-left"] was received. *)
Lemma players_update_drops_missing :
  Hook.playerIdRef hookOfA = Some "a"
  /\ Map_get "b" (Hook.otherPlayersRef hookOfA)
     = Some (freshRecord (playerStateToCar stateOfB))
  /\ Map_get "b"
       (Hook.otherPlayersRef
          (onmessage hookOfA (MsgPlayers [("a", stateOfA)])))
     = None.
Proof. repeat split; reflexivity. Qed.

(** ** C5: one interpolation step and its repetition *)

Lemma steps_target (n : nat) (r : InterpolatedCar.t) :
  InterpolatedCar.target (steps n r) = InterpolatedCar.target r.
Proof. induction n as [|n IH]; [reflexivity | exact IH]. Qed.












(** ** C6: wall containment *)

Lemma wallCorner_position (c : Car.t) (collided : bool) (corner : Point.t) :
  Car.x (fst (wallCorner (c, collided) corner))
  = Car.x c + shiftX (Point.x corner)
  /\ Car.y (fst (wallCorner (c, collided) corner))
     = Car.y c + shiftY (Point.y corner).
Proof.
  unfold wallCorner, wallBottom, wallTop, wallRight, wallLeft, shiftX, shiftY.
  destruct (Rltb (Point.x corner) WALL_THICKNESS);
    destruct (Rltb (WORLD_WIDTH - WALL_THICKNESS) (Point.x corner));
    destruct (Rltb (Point.y corner) WALL_THICKNESS);
    destruct (Rltb (WORLD_HEIGHT - WALL_THICKNESS) (Point.y corner));
    cbn [fst Car.x Car.y Car.with_x Car.with_y Car.with_vx Car.with_vy];
    split; ring.
Qed.

Lemma fold_wallCorner_position (corners : list Point.t) (c : Car.t)
    (collided : bool) :
  Car.x (fst (fold_left wallCorner corners (c, collided)))
  = Car.x c + fold_right (fun pt acc => shiftX (Point.x pt) + acc) 0 corners
  /\ Car.y (fst (fold_left wallCorner corners (c, collided)))
     = Car.y c
       + fold_right (fun pt acc => shiftY (Point.y pt) + acc) 0 corners.
Proof.
  revert c collided. induction corners as [|corner corners IH];
    intros c collided.
  - cbn. split; ring.
  - cbn [fold_left fold_right].
    pose proof (wallCorner_position c collided corner) as [Hx Hy].
    destruct (wallCorner (c, collided) corner) as [c1 collided1].
    cbn [fst] in Hx, Hy. destruct (IH c1 collided1) as [Ix Iy].
    rewrite Ix, Iy, Hx, Hy. split; ring.
Qed.

Lemma handleWallCollisions_position (c : Car.t) (rnd : R) :
  Car.x (fst (handleWallCollisions c rnd))
  = Car.x c
    + fold_right (fun pt acc => shiftX (Point.x pt) + acc) 0 (getCarCorners c)
  /\ Car.y (fst (handleWallCollisions c rnd))
     = Car.y c
       + fold_right (fun pt acc => shiftY (Point.y pt) + acc) 0
           (getCarCorners c).
Proof.
  unfold handleWallCollisions.
  pose proof (fold_wallCorner_position (getCarCorners c) c false) as Hf.
  destruct (fold_left wallCorner (getCarCorners c) (c, false))
    as [c1 collided1].
  cbn [fst] in Hf. destruct collided1; exact Hf.
Qed.

(** The arithmetic of the correction on one axis.  The four corners sit
    at [x + o1], [x + o2], [x - o1], [x - o2]; a corner left of [lo] adds
    its penetration, a corner right of [hi] subtracts it.  If the centre
    is within 8 of the allowed band, the band is wide and the offsets are
    at most 40, the sum of the corrections brings the four corners into
    the band. *)
Lemma correction_into_band (lo hi x o1 o2 : R) (sh : R -> R) :
  (forall c : R,
      sh c = (if Rltb c lo then lo - c else 0)
             - (if Rltb hi c then c - hi else 0)) ->
  -40 <= o1 <= 40 -> -40 <= o2 <= 40 ->
  lo - 8 <= x <= hi + 8 -> 500 <= hi - lo ->
  let s := sh (x + o1) + (sh (x + o2) + (sh (x - o1) + (sh (x - o2) + 0))) in
  (lo <= x + o1 + s <= hi) /\ (lo <= x + o2 + s <= hi)
  /\ (lo <= x - o1 + s <= hi) /\ (lo <= x - o2 + s <= hi).
Proof.
  intros Hsh Ho1 Ho2 Hx Hband. cbv zeta. rewrite !Hsh.
  destruct (Rltb (x + o1) lo) eqn:L1;
    [apply Rltb_true in L1 | apply Rltb_false in L1];
  (destruct (Rltb hi (x + o1)) eqn:R1;
    [apply Rltb_true in R1; try (exfalso; lra) | apply Rltb_false in R1]);
  (destruct (Rltb (x + o2) lo) eqn:L2;
    [apply Rltb_true in L2; try (exfalso; lra) | apply Rltb_false in L2]);
  (destruct (Rltb hi (x + o2)) eqn:R2;
    [apply Rltb_true in R2; try (exfalso; lra) | apply Rltb_false in R2]);
  (destruct (Rltb (x - o1) lo) eqn:L3;
    [apply Rltb_true in L3; try (exfalso; lra) | apply Rltb_false in L3]);
  (destruct (Rltb hi (x - o1)) eqn:R3;
    [apply Rltb_true in R3; try (exfalso; lra) | apply Rltb_false in R3]);
  (destruct (Rltb (x - o2) lo) eqn:L4;
    [apply Rltb_true in L4; try (exfalso; lra) | apply Rltb_false in L4]);
  (destruct (Rltb hi (x - o2)) eqn:R4;
    [apply Rltb_true in R4; try (exfalso; lra) | apply Rltb_false in R4]);
  repeat split; lra.
Qed.

(** The offsets of the corners of a 50 by 30 car from its centre. *)
Lemma corner_offsets (a : R) :
  (-40 <= cos a * (50 / 2) - sin a * (30 / 2) <= 40)
  /\ (-40 <= cos a * (50 / 2) + sin a * (30 / 2) <= 40)
  /\ (-40 <= sin a * (50 / 2) + cos a * (30 / 2) <= 40)
  /\ (-40 <= sin a * (50 / 2) - cos a * (30 / 2) <= 40).
Proof.
  pose proof (COS_bound a). pose proof (SIN_bound a). repeat split; lra.
Qed.

(** The centre of a car is the midpoint of two opposite corners. *)
Lemma centre_inside (c : Car.t) :
  cornersInArena c ->
  WALL_THICKNESS <= Car.x c <= WORLD_WIDTH - WALL_THICKNESS
  /\ WALL_THICKNESS <= Car.y c <= WORLD_HEIGHT - WALL_THICKNESS.
Proof.
  unfold cornersInArena, getCarCorners. intros H.
  apply Forall_cons in H. destruct H as [[H1x H1y] H].
  apply Forall_cons in H. destruct H as [_ H].
  apply Forall_cons in H. destruct H as [[H3x H3y] _].
  cbn [Point.x Point.y] in *. split; lra.
Qed.

Lemma createCar_in_arena (x y : R) (color : string) (angle : R)
    (isStatic : bool) :
  WALL_THICKNESS + 40 <= x <= WORLD_WIDTH - WALL_THICKNESS - 40 ->
  WALL_THICKNESS + 40 <= y <= WORLD_HEIGHT - WALL_THICKNESS - 40 ->
  standardBody (createCar x y color angle isStatic)
  /\ cornersInArena (createCar x y color angle isStatic).
Proof.
  intros Hx Hy. split; [split; reflexivity|].
  unfold cornersInArena, getCarCorners, createCar, inArena.
  cbn [Car.x Car.y Car.angle Car.width Car.height Point.x Point.y].
  unfold CAR_WIDTH, CAR_HEIGHT.
  destruct (corner_offsets angle) as (O1 & O2 & P1 & P2).
  repeat (apply Forall_cons; split); try apply Forall_nil;
    cbn [Point.x Point.y]; split; lra.
Qed.

(** The wall correction brings back a standard car whose centre is within
    8 of the arena. *)
Lemma handleWallCollisions_contains (c : Car.t) (rnd : R) :
  standardBody c ->
  WALL_THICKNESS - 8 <= Car.x c <= WORLD_WIDTH - WALL_THICKNESS + 8 ->
  WALL_THICKNESS - 8 <= Car.y c <= WORLD_HEIGHT - WALL_THICKNESS + 8 ->
  standardBody (fst (handleWallCollisions c rnd))
  /\ cornersInArena (fst (handleWallCollisions c rnd)).
Proof.
  intros [Hw Hh] Hx Hy.
  pose proof (handleWallCollisions_frame c rnd) as (_ & Fw & Fh & Fa).
  destruct (handleWallCollisions_position c rnd) as [Px Py].
  set (c' := fst (handleWallCollisions c rnd)) in *.
  split; [split; congruence|].
  unfold cornersInArena, getCarCorners, inArena.
  rewrite Px, Py, Fa, Fw, Fh, Hw, Hh.
  unfold getCarCorners. rewrite Hw, Hh.
  cbn [fold_right Point.x Point.y]. unfold CAR_WIDTH, CAR_HEIGHT.
  destruct (corner_offsets (Car.angle c)) as (O1 & O2 & P1 & P2).
  set (o1 := cos (Car.angle c) * (50 / 2) - sin (Car.angle c) * (30 / 2)) in *.
  set (o2 := cos (Car.angle c) * (50 / 2) + sin (Car.angle c) * (30 / 2)) in *.
  set (p1 := sin (Car.angle c) * (50 / 2) + cos (Car.angle c) * (30 / 2)) in *.
  set (p2 := sin (Car.angle c) * (50 / 2) - cos (Car.angle c) * (30 / 2)) in *.
  replace (Car.x c + cos (Car.angle c) * (50 / 2)
           - sin (Car.angle c) * (30 / 2)) with (Car.x c + o1)
    by (unfold o1; ring).
  replace (Car.x c + cos (Car.angle c) * (50 / 2)
           + sin (Car.angle c) * (30 / 2)) with (Car.x c + o2)
    by (unfold o2; ring).
  replace (Car.x c - cos (Car.angle c) * (50 / 2)
           + sin (Car.angle c) * (30 / 2)) with (Car.x c - o1)
    by (unfold o1; ring).
  replace (Car.x c - cos (Car.angle c) * (50 / 2)
           - sin (Car.angle c) * (30 / 2)) with (Car.x c - o2)
    by (unfold o2; ring).
  replace (Car.y c + sin (Car.angle c) * (50 / 2)
           + cos (Car.angle c) * (30 / 2)) with (Car.y c + p1)
    by (unfold p1; ring).
  replace (Car.y c + sin (Car.angle c) * (50 / 2)
           - cos (Car.angle c) * (30 / 2)) with (Car.y c + p2)
    by (unfold p2; ring).
  replace (Car.y c - sin (Car.angle c) * (50 / 2)
           - cos (Car.angle c) * (30 / 2)) with (Car.y c - p1)
    by (unfold p1; ring).
  replace (Car.y c - sin (Car.angle c) * (50 / 2)
           + cos (Car.angle c) * (30 / 2)) with (Car.y c - p2)
    by (unfold p2; ring).
  pose proof (correction_into_band WALL_THICKNESS
                (WORLD_WIDTH - WALL_THICKNESS) (Car.x c) o1 o2 shiftX
                (fun cx => eq_refl) O1 O2 Hx) as Bx.
  pose proof (correction_into_band WALL_THICKNESS
                (WORLD_HEIGHT - WALL_THICKNESS) (Car.y c) p1 p2 shiftY
                (fun cy => eq_refl) P1 P2 Hy) as By.
  cbv zeta in Bx, By.
  destruct Bx as (X1 & X2 & X3 & X4);
    [unfold WORLD_WIDTH, WALL_THICKNESS; lra|].
  destruct By as (Y1 & Y2 & Y3 & Y4);
    [unfold WORLD_HEIGHT, WALL_THICKNESS; lra|].
  set (sx := shiftX (Car.x c + o1) + _) in *.
  set (sy := shiftY (Car.y c + p1) + _) in *.
  unfold o1, o2, p1, p2 in *.
  repeat (apply Forall_cons; split); try (apply Forall_nil; exact I);
    cbn [Point.x Point.y]; split; lra.
Qed.

(** The integrator moves the centre by at most [MAX_SPEED] on each axis:
    the speed is clamped before the position is integrated. *)
Lemma abs_le_norm (a b : R) : Rabs a <= sqrt (a * a + b * b).
Proof.
  rewrite <- sqrt_Rsqr_abs. apply sqrt_le_1; unfold Rsqr; nra.
Qed.

Lemma limitSpeed_bound (c : Car.t) :
  let c' := fst (limitSpeed c) in
  Car.x c' = Car.x c /\ Car.y c' = Car.y c
  /\ Rabs (Car.vx c') <= MAX_SPEED /\ Rabs (Car.vy c') <= MAX_SPEED.
Proof.
  unfold limitSpeed. cbv zeta.
  pose proof (abs_le_norm (Car.vx c) (Car.vy c)) as Hx.
  pose proof (abs_le_norm (Car.vy c) (Car.vx c)) as Hy.
  replace (Car.vy c * Car.vy c + Car.vx c * Car.vx c)
    with (Car.vx c * Car.vx c + Car.vy c * Car.vy c) in Hy by ring.
  set (newSpeed := sqrt (Car.vx c * Car.vx c + Car.vy c * Car.vy c)) in *.
  unfold MAX_SPEED in *.
  destruct (Rltb 8 newSpeed) eqn:Hc;
    [apply Rltb_true in Hc | apply Rltb_false in Hc];
    cbn [fst Car.x Car.y Car.vx Car.vy Car.with_vx Car.with_vy].
  - assert (Hdiv : forall v : R, Rabs v <= newSpeed ->
                                 Rabs (v / newSpeed * 8) <= 8).
    { intros v Hv. unfold Rdiv.
      rewrite !Rabs_mult, (Rabs_pos_eq 8) by lra.
      rewrite (Rabs_pos_eq (/ newSpeed))
        by (left; apply Rinv_0_lt_compat; lra).
      assert (Hq : Rabs v * / newSpeed <= 1).
      { apply (Rmult_le_reg_r newSpeed); [lra|].
        rewrite Rmult_assoc, Rinv_l by lra. lra. }
      nra. }
    repeat split; try reflexivity; apply Hdiv; assumption.
  - repeat split; try reflexivity; lra.
Qed.

Lemma steer_position (c : Car.t) (input : AnalogInput.t) :
  Car.x (steer c input) = Car.x c /\ Car.y (steer c input) = Car.y c.
Proof. unfold steer. stage_cases; split; reflexivity. Qed.

Lemma accelerate_position (c : Car.t) (input : AnalogInput.t) :
  Car.x (accelerate c input) = Car.x c /\ Car.y (accelerate c input) = Car.y c.
Proof. unfold accelerate. stage_cases; split; reflexivity. Qed.

Lemma updatePlayerCarPhysics_displacement (c : Car.t)
    (input : AnalogInput.t) :
  let c' := fst (updatePlayerCarPhysics c input) in
  Rabs (Car.x c' - Car.x c) <= MAX_SPEED
  /\ Rabs (Car.y c' - Car.y c) <= MAX_SPEED.
Proof.
  cbv zeta. unfold updatePlayerCarPhysics.
  destruct (steer_position c input) as [S1 S2].
  destruct (accelerate_position (steer c input) input) as [A1 A2].
  set (c3 := applyFriction (accelerate (steer c input) input)).
  assert (F1 : Car.x c3 = Car.x c) by (unfold c3; cbn; congruence).
  assert (F2 : Car.y c3 = Car.y c) by (unfold c3; cbn; congruence).
  pose proof (limitSpeed_bound c3) as (L1 & L2 & L3 & L4).
  destruct (limitSpeed c3) as [c4 speed]. cbn [fst] in *.
  unfold move. cbn [Car.x Car.y Car.vx Car.vy Car.with_x Car.with_y].
  rewrite L1, L2, F1, F2.
  replace (Car.x c + Car.vx c4 - Car.x c) with (Car.vx c4) by ring.
  replace (Car.y c + Car.vy c4 - Car.y c) with (Car.vy c4) by ring.
  split; assumption.
Qed.

(** One tick of a lone car keeps it in the arena. *)
Lemma soloTick_contains (c : Car.t) (step : AnalogInput.t * R) :
  standardBody c -> cornersInArena c ->
  standardBody (soloTick c step) /\ cornersInArena (soloTick c step).
Proof.
  intros [Hw Hh] Hin. unfold soloTick.
  destruct (centre_inside c Hin) as [Cx Cy].
  pose proof (updatePlayerCarPhysics_frame c (fst step))
    as (_ & Fw & Fh & _).
  pose proof (updatePlayerCarPhysics_displacement c (fst step)) as [Dx Dy].
  cbv zeta in Fw, Fh, Dx, Dy.
  set (c1 := fst (updatePlayerCarPhysics c (fst step))) in *.
  unfold MAX_SPEED in *.
  assert (Hx : -8 <= Car.x c1 - Car.x c <= 8).
  { revert Dx. unfold Rabs. destruct (Rcase_abs _); lra. }
  assert (Hy : -8 <= Car.y c1 - Car.y c <= 8).
  { revert Dy. unfold Rabs. destruct (Rcase_abs _); lra. }
  unfold WALL_THICKNESS, WORLD_WIDTH, WORLD_HEIGHT in *.
  apply handleWallCollisions_contains;
    [ split; congruence
    | unfold WALL_THICKNESS, WORLD_WIDTH; lra
    | unfold WALL_THICKNESS, WORLD_HEIGHT; lra ].
Qed.

Lemma drive_contains (stepsOfInput : list (AnalogInput.t * R)) (c : Car.t) :
  standardBody c -> cornersInArena c ->
  standardBody (drive c stepsOfInput) /\ cornersInArena (drive c stepsOfInput).
Proof.
  revert c. unfold drive.
  induction stepsOfInput as [|step rest IH]; intros c Hb Hin; [easy|].
  cbn [fold_left]. destruct (soloTick_contains c step Hb Hin) as [Hb' Hin'].
  apply IH; assumption.
Qed.

(** The player's car of a client that tracks no remote vehicle follows
    [soloTick]. *)
Lemma updatePhysics_alone (env : TickEnv.t) (input : AnalogInput.t)
    (g : Game.t) :
  Hook.otherPlayersRef (Game.hook g) = [] ->
  Game.playerCar (updatePhysics env input g)
  = soloTick (Game.playerCar g) (input, TickEnv.wallRandom env).
Proof.
  intros Hnone. unfold updatePhysics, soloTick. rewrite Hnone.
  cbn [interpolateOtherPlayers map fst snd].
  destruct (updatePlayerCarPhysics (Game.playerCar g) input) as [p1 speed].
  cbn [collideOthers fst].
  destruct (handleWallCollisions p1 (TickEnv.wallRandom env)) as [p2 hit].
  reflexivity.
Qed.

(** Ticks of a client that tracks no remote vehicle: the map stays empty
    and the player's car follows [drive]. *)
Lemma run_ticks_alone (ticks : list (TickEnv.t * AnalogInput.t)) (g : Game.t) :
  Hook.otherPlayersRef (Game.hook g) = [] ->
  Hook.otherPlayersRef (Game.hook (run (map tickOp ticks) g)) = []
  /\ Game.playerCar (run (map tickOp ticks) g)
     = drive (Game.playerCar g)
         (map (fun tick => (snd tick, TickEnv.wallRandom (fst tick))) ticks).
Proof.
  revert g. unfold run, drive.
  induction ticks as [|[env input] ticks IH]; intros g Hnone; [easy|].
  cbn [map fold_left tickOp applyOp fst snd].
  assert (Hnone' :
    Hook.otherPlayersRef (Game.hook (updatePhysics env input g)) = []).
  { unfold updatePhysics. rewrite Hnone.
    cbn [interpolateOtherPlayers map].
    destruct (updatePlayerCarPhysics (Game.playerCar g) input) as [p1 speed].
    cbn [collideOthers].
    destruct (handleWallCollisions p1 (TickEnv.wallRandom env)) as [p2 hit].
    reflexivity. }
  destruct (IH _ Hnone') as [In Ip]. split; [exact In|].
  rewrite Ip, (updatePhysics_alone env input g Hnone). reflexivity.
Qed.

(** C6.  A client that tracks no remote vehicle drives a car of the
    standard size whose four corners are inside the world bounds inset by
    the wall thickness (as every car is at its spawn).  After any number
    of ticks of [updatePhysics], each the integrator followed by the wall
    collision, with any input at each tick (forward only in particular),
    every corner has its x in
    [[WALL_THICKNESS, WORLD_WIDTH - WALL_THICKNESS]] and its y in
    [[WALL_THICKNESS, WORLD_HEIGHT - WALL_THICKNESS]]. *)
Theorem wall_containment (g : Game.t)
    (ticks : list (TickEnv.t * AnalogInput.t)) :
  Hook.otherPlayersRef (Game.hook g) = [] ->
  standardBody (Game.playerCar g) -> cornersInArena (Game.playerCar g) ->
  Forall (fun corner =>
            WALL_THICKNESS <= Point.x corner <= WORLD_WIDTH - WALL_THICKNESS
            /\ WALL_THICKNESS <= Point.y corner
               <= WORLD_HEIGHT - WALL_THICKNESS)
    (getCarCorners (Game.playerCar (run (map tickOp ticks) g))).
Proof.
  intros Hnone Hb Hin.
  destruct (run_ticks_alone ticks g Hnone) as [_ ->].
  apply (drive_contains _ _ Hb Hin).
Qed.

(** A car at rest heading along +x, at full throttle: one call of the
    integrator gives it the velocity 0.15 * 0.98 and moves it by that. *)
Lemma throttle_from_rest (x y : R) :
  fst (updatePlayerCarPhysics (createCar x y "#e74c3c" 0 false) throttle)
  = Car.with_x (Car.with_vx (createCar x y "#e74c3c" 0 false) 0.147)
      (x + 0.147).
Proof.
  set (c0 := createCar x y "#e74c3c" 0 false).
  assert (Hclamp : Rmax (- MAX_ANGULAR_VEL) (Rmin MAX_ANGULAR_VEL 0) = 0).
  { unfold MAX_ANGULAR_VEL. rewrite Rmin_right by lra.
    apply Rmax_right. lra. }
  assert (H1 : steer c0 throttle = c0).
  { unfold steer, steeringFactor, c0, createCar, throttle, ANGULAR_FRICTION.
    cbv zeta. cbn [AnalogInput.left AnalogInput.right]. cmp_eval.
    unfold Car.with_angle, Car.with_angularVel.
    cbn [Car.x Car.y Car.vx Car.vy Car.angle Car.angularVel Car.width
           Car.height Car.color Car.health Car.isStatic].
    rewrite Hclamp. f_equal; lra. }
  assert (H2 : accelerate c0 throttle = Car.with_vx c0 0.15).
  { unfold accelerate, c0, createCar, throttle, ACCELERATION. cbv zeta.
    cbn [AnalogInput.forward AnalogInput.reverse Car.angle]. cmp_eval.
    unfold Car.with_vx, Car.with_vy.
    cbn [Car.x Car.y Car.vx Car.vy Car.angle Car.angularVel Car.width
           Car.height Car.color Car.health Car.isStatic].
    rewrite cos_0, sin_0. f_equal; lra. }
  assert (H3 : applyFriction (Car.with_vx c0 0.15) = Car.with_vx c0 0.147).
  { unfold applyFriction, c0, createCar, FORWARD_FRICTION, SIDEWAYS_FRICTION.
    cbv zeta. unfold Car.with_vx, Car.with_vy.
    cbn [Car.x Car.y Car.vx Car.vy Car.angle Car.angularVel Car.width
           Car.height Car.color Car.health Car.isStatic].
    rewrite cos_0, sin_0. f_equal; lra. }
  assert (H4 : fst (limitSpeed (Car.with_vx c0 0.147)) = Car.with_vx c0 0.147).
  { unfold limitSpeed, c0, createCar, MAX_SPEED. cbv zeta.
    unfold Car.with_vx, Car.with_vy.
    cbn [Car.x Car.y Car.vx Car.vy Car.angle Car.angularVel Car.width
           Car.height Car.color Car.health Car.isStatic fst].
    replace (0.147 * 0.147 + 0 * 0) with (0.147 * 0.147) by lra.
    rewrite sqrt_square by lra. cmp_eval. reflexivity. }
  unfold updatePlayerCarPhysics. rewrite H1, H2, H3.
  destruct (limitSpeed (Car.with_vx c0 0.147)) as [c4 newSpeed].
  cbn [fst] in *. subst c4.
  unfold move, c0, createCar, Car.with_vx, Car.with_x, Car.with_y.
  cbn [Car.x Car.y Car.vx Car.vy Car.angle Car.angularVel Car.width
         Car.height Car.color Car.health Car.isStatic].
  f_equal; lra.
Qed.

(** A car with its front corners 0.1 short of the right wall, heading to
    it, drives at full throttle for three ticks.  The first tick already
    takes the front corners 0.047 beyond the wall, and the wall pass
    pushes the car back by that for each of the two. *)
Lemma wall_containment_witness :
  let start := createCar 2654.9 900 "#e74c3c" 0 false in
  let driven := fst (updatePlayerCarPhysics start throttle) in
  Car.x driven = 2655.047
  /\ Car.x driven + 25 > WORLD_WIDTH - WALL_THICKNESS
  /\ Car.x (fst (handleWallCollisions driven (1 / 2))) = 2654.953
  /\ Forall (fun corner =>
               WALL_THICKNESS <= Point.x corner
               <= WORLD_WIDTH - WALL_THICKNESS
               /\ WALL_THICKNESS <= Point.y corner
                  <= WORLD_HEIGHT - WALL_THICKNESS)
       (getCarCorners
          (Game.playerCar
             (run (map tickOp
                     [(calmEnv, throttle); (calmEnv, throttle);
                      (calmEnv, throttle)])
                (newGame 2654.9 900 0)))).
Proof.
  cbv zeta. rewrite throttle_from_rest.
  split; [cbn; lra|].
  split; [cbn; unfold WORLD_WIDTH, WALL_THICKNESS; lra|]. split.
  - destruct (handleWallCollisions_position
                (Car.with_x
                   (Car.with_vx (createCar 2654.9 900 "#e74c3c" 0 false)
                      0.147) (2654.9 + 0.147)) (1 / 2)) as [-> _].
    unfold getCarCorners, createCar.
    cbn [Car.with_x Car.with_vx Car.x Car.y Car.angle Car.width Car.height
           fold_right Point.x].
    rewrite cos_0, sin_0.
    unfold shiftX, CAR_WIDTH, CAR_HEIGHT, WALL_THICKNESS, WORLD_WIDTH.
    cmp_eval. lra.
  - assert (Hb : standardBody (createCar 2654.9 900 "#e74c3c" 0 false))
      by (split; reflexivity).
    assert (Hin : cornersInArena (createCar 2654.9 900 "#e74c3c" 0 false)).
    { unfold cornersInArena, getCarCorners, createCar, inArena.
      cbn [Car.x Car.y Car.angle Car.width Car.height].
      rewrite cos_0, sin_0.
      unfold CAR_WIDTH, CAR_HEIGHT, WALL_THICKNESS, WORLD_WIDTH, WORLD_HEIGHT.
      repeat (apply Forall_cons; split); try (apply Forall_nil; exact I);
        cbn [Point.x Point.y]; split; lra. }
    exact (wall_containment (newGame 2654.9 900 0) _ eq_refl Hb Hin).
Defined.

(** ** C7: two vehicles at rest *)

Lemma impactComponent_at_rest (p t : Car.t) :
  Car.vx p = 0 -> Car.vy p = 0 -> Car.vx t = 0 -> Car.vy t = 0 ->
  impactComponent p t = 0.
Proof.
  intros Hpx Hpy Htx Hty. unfold impactComponent.
  rewrite Hpx, Hpy, Htx, Hty. unfold Rdiv. ring.
Qed.

(** C7, as the code has it.  For two vehicles with zero velocity
    [handleCarCollision] applies no damage: no popup is added, the
    returned time is the one passed in, and the health and the linear
    velocity of both vehicles are unchanged.  When the vehicles do not
    overlap, or their centres coincide, nothing changes at all.  When they
    overlap with distinct centres the positions are still pushed apart
    along the line of centres (0.6 and 0.4 of the overlap plus 2) and both
    angular velocities receive their random kick. *)
Theorem handleCarCollision_at_rest
    (p t : Car.t) (lastCollisionTime : Z) (damagePopups : list DamagePopup.t)
    (rnd1 rnd2 : R) (now : Z) :
  Car.vx p = 0 -> Car.vy p = 0 -> Car.vx t = 0 -> Car.vy t = 0 ->
  exists p' t' : Car.t,
    handleCarCollision p t lastCollisionTime damagePopups rnd1 rnd2 now
    = (p', t', damagePopups, lastCollisionTime)
    /\ Car.health p' = Car.health p /\ Car.health t' = Car.health t
    /\ Car.vx p' = 0 /\ Car.vy p' = 0 /\ Car.vx t' = 0 /\ Car.vy t' = 0
    /\ (checkCarCollision p t = false \/ centerDistance p t = 0 ->
        p' = p /\ t' = t)
    /\ (checkCarCollision p t = true -> centerDistance p t <> 0 ->
        let d := centerDistance p t in
        let push := (Car.width p + Car.width t) / 2 * 0.85 - d + 2 in
        Car.x p' = Car.x p - (Car.x t - Car.x p) / d * push * 0.6
        /\ Car.y p' = Car.y p - (Car.y t - Car.y p) / d * push * 0.6
        /\ Car.x t' = Car.x t + (Car.x t - Car.x p) / d * push * 0.4
        /\ Car.y t' = Car.y t + (Car.y t - Car.y p) / d * push * 0.4
        /\ Car.angularVel p' = Car.angularVel p + (rnd1 - 0.5) * 0.1
        /\ Car.angularVel t' = Car.angularVel t + (rnd2 - 0.5) * 0.12).
Proof.
  intros Hpx Hpy Htx Hty.
  pose proof (impactComponent_at_rest p t Hpx Hpy Htx Hty) as Hic.
  unfold handleCarCollision, impactSpeed. rewrite Hic, Rabs_R0.
  replace (Rltb 0 0) with false by (symmetry; apply Rltb_false; lra).
  replace (Rltb MIN_IMPACT_FOR_DAMAGE 0) with false
    by (symmetry; apply Rltb_false; unfold MIN_IMPACT_FOR_DAMAGE; lra).
  destruct (checkCarCollision p t) eqn:Hcheck; simpl negb; cbv iota.
  2:{ exists p, t. repeat split; auto; intros; try discriminate. }
  pose proof Hcheck as Hlt. unfold checkCarCollision in Hlt.
  apply Rltb_true in Hlt. fold (centerDistance p t) in Hlt.
  replace (Rleb ((Car.width p + Car.width t) / 2 * 0.85) (centerDistance p t))
    with false by (symmetry; apply Rleb_false; exact Hlt).
  simpl orb. destruct (Reqb (centerDistance p t) 0) eqn:Hz.
  { apply Reqb_true in Hz. exists p, t.
    repeat split; auto; intros; try discriminate; try contradiction. }
  apply Reqb_false in Hz.
  destruct (now - lastCollisionTime <? 150)%Z;
    (eexists; eexists; split; [reflexivity|]);
    cbn [Car.health Car.vx Car.vy Car.x Car.y Car.angularVel
         Car.with_x Car.with_y Car.with_vx Car.with_vy Car.with_angularVel];
    rewrite Hpx, Hpy, Htx, Hty;
    repeat (split; [first [reflexivity | ring] |]);
    (split;
     [ intros [Hf|Hf]; [discriminate | contradiction]
     | intros _ _; cbv zeta; repeat split; reflexivity ]).
Qed.

(** The two cars of the scene, both at rest and overlapping. *)
Lemma handleCarCollision_at_rest_witness :
  exists p' t' : Car.t,
    handleCarCollision restA sceneB 0 [] (9 / 10) (1 / 10) 1000
    = (p', t', [], 0%Z)
    /\ Car.health p' = Car.health restA /\ Car.health t' = Car.health sceneB.
Proof.
  destruct (handleCarCollision_at_rest restA sceneB 0 [] (9 / 10) (1 / 10)
              1000 eq_refl eq_refl eq_refl eq_refl)
    as (p' & t' & Hrun & Hp & Ht & _).
  exists p', t'. repeat split; assumption.
Defined.

Lemma rest_distance : centerDistance restA sceneB = 10.
Proof. exact scene_distance. Qed.

Lemma rest_check : checkCarCollision restA sceneB = true.
Proof. exact scene_check. Qed.

(** Two overlapping cars at rest: the claimed no-op does not hold, both
    cars are moved and both angular velocities change. *)
Lemma handleCarCollision_at_rest_moves :
  Car.vx restA = 0 /\ Car.vy restA = 0
  /\ Car.vx sceneB = 0 /\ Car.vy sceneB = 0
  /\ exists p' t' : Car.t,
       handleCarCollision restA sceneB 0 [] (9 / 10) (1 / 10) 1000
       = (p', t', [], 0%Z)
       /\ Car.x restA = 0 /\ Car.x p' = -20.7
       /\ Car.x sceneB = 10 /\ Car.x t' = 23.8
       /\ Car.angularVel restA = 0 /\ Car.angularVel p' = 0.04
       /\ Car.angularVel sceneB = 0 /\ Car.angularVel t' = -0.048.
Proof.
  repeat (split; [reflexivity|]).
  unfold handleCarCollision, impactSpeed.
  rewrite rest_check, rest_distance.
  rewrite (impactComponent_at_rest restA sceneB) by reflexivity.
  rewrite Rabs_R0. simpl negb. cbv iota.
  change (1000 - 0 <? 150)%Z with false.
  unfold MIN_IMPACT_FOR_DAMAGE.
  change (Car.width restA) with 50. change (Car.width sceneB) with 50.
  cmp_eval. simpl orb. cbv iota.
  eexists; eexists; split; [reflexivity|].
  cbn. repeat split; lra.
Qed.

(** ** C8: the [isStatic] flag *)

Lemma wallCorner_isStatic (c : Car.t) (b collided : bool) (corner : Point.t) :
  wallCorner (Car.with_isStatic c b, collided) corner
  = (Car.with_isStatic (fst (wallCorner (c, collided) corner)) b,
     snd (wallCorner (c, collided) corner)).
Proof.
  unfold wallCorner.
  assert (Hl : forall st : Car.t * bool,
             wallLeft (Car.with_isStatic (fst st) b, snd st) corner
             = (Car.with_isStatic (fst (wallLeft st corner)) b,
                snd (wallLeft st corner))).
  { intros [c0 k0]. unfold wallLeft. cbn [fst snd]. stage_cases; reflexivity. }
  assert (Hr : forall st : Car.t * bool,
             wallRight (Car.with_isStatic (fst st) b, snd st) corner
             = (Car.with_isStatic (fst (wallRight st corner)) b,
                snd (wallRight st corner))).
  { intros [c0 k0]. unfold wallRight. cbn [fst snd]. stage_cases; reflexivity. }
  assert (Ht : forall st : Car.t * bool,
             wallTop (Car.with_isStatic (fst st) b, snd st) corner
             = (Car.with_isStatic (fst (wallTop st corner)) b,
                snd (wallTop st corner))).
  { intros [c0 k0]. unfold wallTop. cbn [fst snd]. stage_cases; reflexivity. }
  assert (Hb : forall st : Car.t * bool,
             wallBottom (Car.with_isStatic (fst st) b, snd st) corner
             = (Car.with_isStatic (fst (wallBottom st corner)) b,
                snd (wallBottom st corner))).
  { intros [c0 k0]. unfold wallBottom. cbn [fst snd].
    stage_cases; reflexivity. }
  pose proof (Hl (c, collided)) as Hl0. cbn [fst snd] in Hl0.
  rewrite Hl0, Hr, Ht, Hb. reflexivity.
Qed.

Lemma fold_wallCorner_isStatic (corners : list Point.t) (c : Car.t)
    (b collided : bool) :
  fold_left wallCorner corners (Car.with_isStatic c b, collided)
  = (Car.with_isStatic (fst (fold_left wallCorner corners (c, collided))) b,
     snd (fold_left wallCorner corners (c, collided))).
Proof.
  revert c collided. induction corners as [|corner corners IH];
    intros c collided.
  - reflexivity.
  - cbn [fold_left]. rewrite wallCorner_isStatic.
    destruct (wallCorner (c, collided) corner) as [c1 collided1].
    apply IH.
Qed.

Lemma handleWallCollisions_isStatic (c : Car.t) (b : bool) (rnd : R) :
  handleWallCollisions (Car.with_isStatic c b) rnd
  = (Car.with_isStatic (fst (handleWallCollisions c rnd)) b,
     snd (handleWallCollisions c rnd)).
Proof.
  unfold handleWallCollisions.
  change (getCarCorners (Car.with_isStatic c b)) with (getCarCorners c).
  rewrite fold_wallCorner_isStatic.
  destruct (fold_left wallCorner (getCarCorners c) (c, false))
    as [c1 collided1].
  destruct collided1; reflexivity.
Qed.

Lemma handleCarCollision_isStatic (p t : Car.t) (bp bt : bool)
    (lastCollisionTime : Z) (damagePopups : list DamagePopup.t)
    (rnd1 rnd2 : R) (now : Z) :
  handleCarCollision (Car.with_isStatic p bp) (Car.with_isStatic t bt)
    lastCollisionTime damagePopups rnd1 rnd2 now
  = let '(p', t', popups, time) :=
      handleCarCollision p t lastCollisionTime damagePopups rnd1 rnd2 now in
    (Car.with_isStatic p' bp, Car.with_isStatic t' bt, popups, time).
Proof.
  unfold handleCarCollision.
  change (checkCarCollision (Car.with_isStatic p bp) (Car.with_isStatic t bt))
    with (checkCarCollision p t).
  change (centerDistance (Car.with_isStatic p bp) (Car.with_isStatic t bt))
    with (centerDistance p t).
  change (impactSpeed (Car.with_isStatic p bp) (Car.with_isStatic t bt))
    with (impactSpeed p t).
  change (impactComponent (Car.with_isStatic p bp) (Car.with_isStatic t bt))
    with (impactComponent p t).
  destruct (checkCarCollision p t); simpl negb; cbv iota; [|reflexivity].
  destruct (Rleb _ _ || Reqb _ _); [reflexivity|].
  destruct (Rltb 0 (impactComponent p t));
    (destruct (now - lastCollisionTime <? 150)%Z; [reflexivity|]);
    (destruct (Rltb MIN_IMPACT_FOR_DAMAGE (impactSpeed p t)); reflexivity).
Qed.

Lemma steer_isStatic (c : Car.t) (b : bool) (input : AnalogInput.t) :
  steer (Car.with_isStatic c b) input = Car.with_isStatic (steer c input) b.
Proof.
  unfold steer.
  change (steeringFactor (Car.with_isStatic c b)) with (steeringFactor c).
  stage_cases; reflexivity.
Qed.

Lemma accelerate_isStatic (c : Car.t) (b : bool) (input : AnalogInput.t) :
  accelerate (Car.with_isStatic c b) input
  = Car.with_isStatic (accelerate c input) b.
Proof.
  unfold accelerate. cbn [Car.angle Car.with_isStatic].
  destruct (Rltb 0 (AnalogInput.forward input));
    destruct (Rltb 0 (AnalogInput.reverse input)); try reflexivity;
    cbn [Car.vx Car.vy Car.with_vx Car.with_vy Car.with_isStatic];
    stage_cases; reflexivity.
Qed.

Lemma applyFriction_isStatic (c : Car.t) (b : bool) :
  applyFriction (Car.with_isStatic c b) = Car.with_isStatic (applyFriction c) b.
Proof. reflexivity. Qed.

Lemma limitSpeed_isStatic (c : Car.t) (b : bool) :
  limitSpeed (Car.with_isStatic c b)
  = (Car.with_isStatic (fst (limitSpeed c)) b, snd (limitSpeed c)).
Proof.
  unfold limitSpeed. cbn [Car.vx Car.vy Car.with_isStatic].
  stage_cases; reflexivity.
Qed.

Lemma move_isStatic (c : Car.t) (b : bool) :
  move (Car.with_isStatic c b) = Car.with_isStatic (move c) b.
Proof. reflexivity. Qed.

Lemma updatePlayerCarPhysics_isStatic (c : Car.t) (b : bool)
    (input : AnalogInput.t) :
  updatePlayerCarPhysics (Car.with_isStatic c b) input
  = (Car.with_isStatic (fst (updatePlayerCarPhysics c input)) b,
     snd (updatePlayerCarPhysics c input)).
Proof.
  unfold updatePlayerCarPhysics.
  rewrite steer_isStatic, accelerate_isStatic, applyFriction_isStatic,
    limitSpeed_isStatic.
  destruct (limitSpeed (applyFriction (accelerate (steer c input) input)))
    as [c1 speed].
  reflexivity.
Qed.

(** C8, as the code has it.  No operation reads [isStatic]: the integrator,
    the vehicle-vehicle collision and the wall collision compute the same
    positions, velocities, angular velocities and health whatever the flag
    of either vehicle is, and hand the flag back unchanged.  A static
    vehicle is therefore moved, bounced, kicked and damaged exactly like a
    dynamic one. *)
Theorem isStatic_never_read (p t : Car.t) (bp bt : bool)
    (lastCollisionTime : Z) (damagePopups : list DamagePopup.t)
    (rnd1 rnd2 rnd : R) (now : Z) (input : AnalogInput.t) :
  handleCarCollision (Car.with_isStatic p bp) (Car.with_isStatic t bt)
    lastCollisionTime damagePopups rnd1 rnd2 now
  = (let '(p', t', popups, time) :=
       handleCarCollision p t lastCollisionTime damagePopups rnd1 rnd2 now in
     (Car.with_isStatic p' bp, Car.with_isStatic t' bt, popups, time))
  /\ handleWallCollisions (Car.with_isStatic p bp) rnd
     = (Car.with_isStatic (fst (handleWallCollisions p rnd)) bp,
        snd (handleWallCollisions p rnd))
  /\ updatePlayerCarPhysics (Car.with_isStatic p bp) input
     = (Car.with_isStatic (fst (updatePlayerCarPhysics p input)) bp,
        snd (updatePlayerCarPhysics p input)).
Proof.
  split; [apply handleCarCollision_isStatic|].
  split; [apply handleWallCollisions_isStatic|].
  apply updatePlayerCarPhysics_isStatic.
Qed.

(** A parked, static car that is hit: it is pushed, takes velocity and an
    angular kick, and loses health, like any other car. *)
Lemma static_target_is_moved :
  Car.isStatic sceneB = true
  /\ exists (p' t' : Car.t) (popups : list DamagePopup.t),
       handleCarCollision sceneA sceneB 0 [] (1 / 2) (9 / 10) 1000
       = (p', t', popups, 1000%Z)
       /\ Car.x sceneB = 10 /\ Car.x t' = 23.8
       /\ Car.vx sceneB = 0 /\ Car.vx t' = 2.8
       /\ Car.angularVel sceneB = 0 /\ Car.angularVel t' = 0.048
       /\ Car.health sceneB = Health.mk 100 100 100 100
       /\ Car.health t' = Health.mk 100 91 100 100.
Proof.
  split; [reflexivity|].
  destruct (scene_collision (1 / 2) (9 / 10))
    as (p' & t' & px & py & Hrun & _ & Ht & Hx & Hv & Ha).
  exists p', t', [DamagePopup.mk px py 9 Zrear 0].
  split; [exact Hrun|].
  repeat split; try reflexivity; try assumption. rewrite Ha. lra.
Qed.

(** A static car across the left wall is pushed back in like any other:
    two of its corners are 15 beyond the wall and each adds its
    penetration. *)
Lemma static_car_hits_wall :
  Car.isStatic (createCar 30 900 "#3498db" 0 true) = true
  /\ Car.x (createCar 30 900 "#3498db" 0 true) = 30
  /\ Car.x (fst (handleWallCollisions (createCar 30 900 "#3498db" 0 true)
                   (1 / 2))) = 60.
Proof.
  split; [reflexivity|]. split; [reflexivity|].
  destruct (handleWallCollisions_position
              (createCar 30 900 "#3498db" 0 true) (1 / 2)) as [-> _].
  unfold getCarCorners, createCar.
  cbn [Car.x Car.y Car.angle Car.width Car.height fold_right Point.x].
  rewrite cos_0, sin_0.
  unfold shiftX, CAR_WIDTH, CAR_HEIGHT, WALL_THICKNESS, WORLD_WIDTH.
  cmp_eval. lra.
Qed.

(** ** C9: the relay's ["update"] case *)

Lemma Players_set_lookup (relay : Relay.t) (key k : string)
    (value : PlayerState.t) :
  Relay.players (Players_set relay key value) !! k
  = if bool_decide (key = k)
    then match bool_decide (key = "__proto__"), Relay.players relay !! key with
         | true, None => None
         | _, _ => Some value
         end
    else Relay.players relay !! k.
Proof.
  unfold Players_set.
  destruct (bool_decide (key = k)) eqn:Hk.
  - apply bool_decide_eq_true in Hk. subst k.
    destruct (bool_decide (key = "__proto__"));
      destruct (Relay.players relay !! key) eqn:Hold; cbn [Relay.players];
      first [apply lookup_insert_eq | exact Hold].
  - apply bool_decide_eq_false in Hk.
    destruct (bool_decide (key = "__proto__"));
      destruct (Relay.players relay !! key); cbn [Relay.players];
      first [apply lookup_insert_ne; exact Hk | reflexivity].
Qed.

(** C9.  On an ["update"] the relay replaces the entry stored for the
    sender by the payload with its [id] set to the sender's connection id,
    whatever [id] the payload carried, every other field being the
    payload's.  A sender with no entry gets none, entries being created
    by ["join"], unless its connection id names something the roster
    object inherits: then the guard [this.players[sender.id]] passes and
    the re-stamped payload is stored under that id (for ["__proto__"] it
    becomes the object's prototype and no entry is stored).  The entry of
    every other connection id is unchanged, and the one message sent is a
    broadcast, to everyone, of the roster after the update: its payload
    lists, once each, exactly the entries stored. *)
Theorem onMessage_update (relay : Relay.t)
    (sender : string) (state : PlayerState.t) (rx ry ra : R) :
  let restamped := PlayerState.with_id state sender in
  let players := Relay.players relay in
  let players' :=
    Relay.players (fst (onMessage (MsgUpdate state) sender rx ry ra relay)) in
  let sent := snd (onMessage (MsgUpdate state) sender rx ry ra relay) in
  (is_Some (players !! sender) -> players' !! sender = Some restamped)
  /\ (players !! sender = None ->
      players' !! sender
      = if inherited relay sender && negb (bool_decide (sender = "__proto__"))
        then Some restamped else None)
  /\ PlayerState.id restamped = sender
  /\ (PlayerState.x restamped, PlayerState.y restamped,
      PlayerState.vx restamped, PlayerState.vy restamped,
      PlayerState.angle restamped, PlayerState.angularVel restamped,
      PlayerState.color restamped, PlayerState.health restamped)
     = (PlayerState.x state, PlayerState.y state,
        PlayerState.vx state, PlayerState.vy state,
        PlayerState.angle state, PlayerState.angularVel state,
        PlayerState.color state, PlayerState.health state)
  /\ (forall c : string, c <> sender -> players' !! c = players !! c)
  /\ exists payload : Roster,
       sent = [Broadcast (MsgPlayers payload) []]
       /\ payload = rosterJson players'
       /\ NoDup (map fst payload)
       /\ forall (k : string) (s : PlayerState.t),
            (k, s) ∈ payload <-> players' !! k = Some s.
Proof.
  cbv zeta. unfold onMessage, Players_truthy. cbn [fst snd].
  split; [|split; [|split; [reflexivity|split; [reflexivity|split]]]].
  - intros [old Hold]. rewrite Hold, Players_set_lookup, Hold.
    rewrite bool_decide_eq_true_2 by reflexivity.
    destruct (bool_decide (sender = "__proto__")); reflexivity.
  - intros Hnone. rewrite Hnone.
    destruct (inherited relay sender); cbn [andb]; [|exact Hnone].
    rewrite Players_set_lookup, Hnone.
    rewrite bool_decide_eq_true_2 by reflexivity.
    destruct (bool_decide (sender = "__proto__")); reflexivity.
  - intros c Hc.
    destruct (match Relay.players relay !! sender with
              | Some _ => true
              | None => inherited relay sender
              end); [|reflexivity].
    rewrite Players_set_lookup.
    rewrite bool_decide_eq_false_2 by congruence. reflexivity.
  - eexists. split; [reflexivity|]. split; [reflexivity|]. split.
    + apply NoDup_fst_map_to_list.
    + intros k s. apply elem_of_map_to_list.
Qed.

(** A roster with "a" and "b"; "a" sends an update that claims to be "b":
    it is stored under "a" with id "a", and the entry of "b" stays. *)
Lemma onMessage_update_example :
  let relay : Relay.t :=
    Relay.mk (<["a" := stateOfA]> (<["b" := stateOfB]> ∅)) None in
  let players' :=
    Relay.players (fst (onMessage (MsgUpdate stateOfB) "a" 0 0 0 relay)) in
  players' !! "a" = Some (PlayerState.with_id stateOfB "a")
  /\ PlayerState.id (PlayerState.with_id stateOfB "a") = "a"
  /\ players' !! "b" = Some stateOfB.
Proof.
  cbv zeta. unfold onMessage, Players_truthy. cbn [fst Relay.players].
  rewrite lookup_insert_eq. rewrite !Players_set_lookup.
  cbn [Relay.players]. rewrite lookup_insert_eq.
  split; [reflexivity|]. split; [reflexivity|].
  rewrite bool_decide_eq_false_2 by discriminate.
  rewrite lookup_insert_ne by discriminate.
  apply lookup_insert_eq.
Qed.

(** What the roster object inherits, at work on the relay as it starts.
    A connection whose id is "constructor" sends an update without having
    joined: an entry is stored for it.  A connection whose id is
    "__proto__" joins: no entry is stored, and its snapshot becomes the
    prototype of the roster object. *)
Lemma onMessage_inherited_examples :
  Relay.players
    (fst (onMessage (MsgUpdate stateOfB) "constructor" 0 0 0 newRelay))
    !! "constructor"
  = Some (PlayerState.with_id stateOfB "constructor")
  /\ Relay.players (fst (onMessage (MsgJoin "#e74c3c") "__proto__" 0 0 0
                           newRelay)) = ∅
  /\ exists s : PlayerState.t,
       Relay.prototype (fst (onMessage (MsgJoin "#e74c3c") "__proto__" 0 0 0
                               newRelay)) = Some s
       /\ PlayerState.id s = "__proto__".
Proof.
  split; [|split].
  - assert (Hguard : Players_truthy newRelay "constructor" = true)
      by reflexivity.
    unfold onMessage. rewrite Hguard. cbn [fst].
    rewrite Players_set_lookup.
    rewrite bool_decide_eq_true_2 by reflexivity.
    rewrite bool_decide_eq_false_2 by discriminate. reflexivity.
  - reflexivity.
  - eexists. split; reflexivity.
Qed.

(** ** C10: health is copied, never blended *)

Lemma interpolatePlayer_health (r : InterpolatedCar.t) :
  Car.health (InterpolatedCar.current (interpolatePlayer r))
  = Car.health (InterpolatedCar.target r)
  /\ InterpolatedCar.target (interpolatePlayer r) = InterpolatedCar.target r
  /\ InterpolatedCar.sharedHealth (interpolatePlayer r) = false.
Proof. repeat split. Qed.

(** Whatever car the collision resolver leaves in [current] after an
    interpolation step, the next step restores the target's health. *)
Lemma interpolatePlayer_discards_write (r : InterpolatedCar.t) (c : Car.t) :
  let written := writeCurrent (interpolatePlayer r) c in
  InterpolatedCar.current written = c
  /\ InterpolatedCar.target written = InterpolatedCar.target r
  /\ InterpolatedCar.target (interpolatePlayer written)
     = InterpolatedCar.target r
  /\ Car.health (InterpolatedCar.current (interpolatePlayer written))
     = Car.health (InterpolatedCar.target r).
Proof. repeat split. Qed.

Lemma tick_others (env : TickEnv.t) (input : AnalogInput.t) (g : Game.t) :
  Forall2 (fun old new =>
             fst new = fst old
             /\ exists c : Car.t, snd new = writeCurrent (snd old) c)
    (interpolateOtherPlayers (Hook.otherPlayersRef (Game.hook g)))
    (Hook.otherPlayersRef (Game.hook (updatePhysics env input g))).
Proof.
  unfold updatePhysics.
  destruct (updatePlayerCarPhysics (Game.playerCar g) input) as [p1 speed].
  pose proof (collideOthers_entries (fun _ => True)) as Hc.
  specialize (Hc ltac:(intros; repeat case_match; easy) env
                (interpolateOtherPlayers (Hook.otherPlayersRef (Game.hook g)))
                p1 (Game.lastCollisionTime g) (Game.damagePopups g) I).
  destruct (collideOthers env p1 _ _ _) as [[[p2 times2] popups2] others2].
  destruct (handleWallCollisions p2 (TickEnv.wallRandom env)) as [p3 hit].
  cbn [Game.hook Hook.otherPlayersRef].
  destruct Hc as [_ Hc].
  - apply Forall_forall. intros; exact I.
  - eapply Forall2_impl; [exact Hc|].
    intros old new (Hk & c & _ & Hw). split; [exact Hk|]. exists c. exact Hw.
Qed.

Lemma interpolateOtherPlayers_health (others : JsMap InterpolatedCar.t) :
  Forall (fun entry =>
            Car.health (InterpolatedCar.current (snd entry))
            = Car.health (InterpolatedCar.target (snd entry)))
    (interpolateOtherPlayers others).
Proof.
  induction others as [|e l IH]; constructor; [reflexivity | exact IH].
Qed.

Lemma interpolateOtherPlayers_target (others : JsMap InterpolatedCar.t) :
  Forall2 (fun old new =>
             fst new = fst old
             /\ InterpolatedCar.target (snd new)
                = InterpolatedCar.target (snd old))
    others (interpolateOtherPlayers others).
Proof.
  induction others as [|e l IH]; constructor; [easy | exact IH].
Qed.

Lemma tick_keeps_targets (tracked afterTick : JsMap InterpolatedCar.t) :
  Forall2 (fun old new =>
             fst new = fst old
             /\ exists c : Car.t, snd new = writeCurrent (snd old) c)
    (interpolateOtherPlayers tracked) afterTick ->
  Forall2 (fun old new =>
             fst new = fst old
             /\ InterpolatedCar.target (snd new)
                = InterpolatedCar.target (snd old))
    tracked afterTick.
Proof.
  revert afterTick. induction tracked as [|e l IH]; intros afterTick Htick;
    inversion Htick as [|? new ? l' Hhd Htl]; subst; constructor.
  - destruct Hhd as (Hk & c & ->). split; [exact Hk | reflexivity].
  - apply IH. exact Htl.
Qed.

Lemma tick_then_interpolate (tracked afterTick : JsMap InterpolatedCar.t) :
  Forall2 (fun old new =>
             fst new = fst old
             /\ exists c : Car.t, snd new = writeCurrent (snd old) c)
    (interpolateOtherPlayers tracked) afterTick ->
  Forall2 (fun old new =>
             fst new = fst old
             /\ InterpolatedCar.target (snd new)
                = InterpolatedCar.target (snd old)
             /\ Car.health (InterpolatedCar.current (snd new))
                = Car.health (InterpolatedCar.target (snd old)))
    tracked (interpolateOtherPlayers afterTick).
Proof.
  revert afterTick. induction tracked as [|e l IH]; intros afterTick Htick;
    inversion Htick as [|? new ? l' Hhd Htl]; subst;
    cbn [interpolateOtherPlayers map]; constructor.
  - destruct Hhd as (Hk & c & ->). cbn [fst snd].
    split; [exact Hk|]. split; reflexivity.
  - apply IH. exact Htl.
Qed.

(** C10.  After an interpolation step every tracked remote vehicle has
    [current.health] equal to [target.health], and its target is the one
    it had.  A tick never changes a target, and whatever the collision
    resolver wrote into [current.health] during the tick is gone after the
    next interpolation step: [current.health] is again the health of the
    target the vehicle had before the tick, whatever car the resolver left
    in [current]. *)
Theorem interpolation_copies_health (g : Game.t) (env : TickEnv.t)
    (input : AnalogInput.t) :
  let tracked := Hook.otherPlayersRef (Game.hook g) in
  let afterTick :=
    Hook.otherPlayersRef (Game.hook (updatePhysics env input g)) in
  Forall (fun entry =>
            Car.health (InterpolatedCar.current (snd entry))
            = Car.health (InterpolatedCar.target (snd entry)))
    (interpolateOtherPlayers tracked)
  /\ Forall2 (fun old new =>
                fst new = fst old
                /\ InterpolatedCar.target (snd new)
                   = InterpolatedCar.target (snd old))
       tracked (interpolateOtherPlayers tracked)
  /\ Forall2 (fun old new =>
                fst new = fst old
                /\ InterpolatedCar.target (snd new)
                   = InterpolatedCar.target (snd old))
       tracked afterTick
  /\ Forall2 (fun old new =>
                fst new = fst old
                /\ InterpolatedCar.target (snd new)
                   = InterpolatedCar.target (snd old)
                /\ Car.health (InterpolatedCar.current (snd new))
                   = Car.health (InterpolatedCar.target (snd old)))
       tracked (interpolateOtherPlayers afterTick)
  /\ (forall (r : InterpolatedCar.t) (c : Car.t),
        Car.health
          (InterpolatedCar.current
             (interpolatePlayer (writeCurrent (interpolatePlayer r) c)))
        = Car.health (InterpolatedCar.target r)).
Proof.
  intros tracked afterTick.
  pose proof (tick_others env input g) as Htick.
  fold tracked in Htick. fold afterTick in Htick.
  split; [apply interpolateOtherPlayers_health|].
  split; [apply interpolateOtherPlayers_target|].
  split; [apply (tick_keeps_targets _ _ Htick)|].
  split; [apply (tick_then_interpolate _ _ Htick)|].
  intros r c. reflexivity.
Qed.

(** The local car hits a tracked remote vehicle: the resolver takes 9 from
    the rear zone of its [current], the [target] keeps its health, and the
    next interpolation step puts the target's health back. *)
Lemma remote_damage_is_discarded :
  exists (p' c' : Car.t) (px py : R),
    handleCarCollision sceneA (InterpolatedCar.current settledB) 0 []
      (1 / 2) (1 / 2) 1000
    = (p', c', [DamagePopup.mk px py 9 Zrear 0], 1000%Z)
    /\ Car.health (InterpolatedCar.current (writeCurrent settledB c'))
       = Health.mk 100 91 100 100
    /\ Car.health (InterpolatedCar.target (writeCurrent settledB c'))
       = Health.mk 100 100 100 100
    /\ Car.health
         (InterpolatedCar.current
            (interpolatePlayer (writeCurrent settledB c')))
       = Health.mk 100 100 100 100.
Proof.
  destruct (scene_collision (1 / 2) (1 / 2))
    as (p' & c' & px & py & Hrun & _ & Hc & _).
  exists p', c', px, py. split; [exact Hrun|].
  split; [exact Hc|]. split; reflexivity.
Qed.

(** * Further properties of the code *)

(** ** physics.ts: the integrator *)

Lemma norm_scaled (k a b : R) :
  0 <= k -> sqrt (k * a * (k * a) + k * b * (k * b)) = k * sqrt (a * a + b * b).
Proof.
  intros Hk.
  replace (k * a * (k * a) + k * b * (k * b)) with (k * k * (a * a + b * b))
    by ring.
  rewrite sqrt_mult by nra. rewrite sqrt_square by exact Hk. reflexivity.
Qed.

Lemma limitSpeed_speed (c : Car.t) :
  speed (fst (limitSpeed c)) = Rmin MAX_SPEED (speed c)
  /\ snd (limitSpeed c) = speed c.
Proof.
  unfold limitSpeed, speed, MAX_SPEED. cbv zeta.
  set (n := sqrt (Car.vx c * Car.vx c + Car.vy c * Car.vy c)).
  split; [|reflexivity].
  destruct (Rltb 8 n) eqn:Hc;
    [apply Rltb_true in Hc | apply Rltb_false in Hc];
    cbn [fst Car.vx Car.vy Car.with_vx Car.with_vy].
  - rewrite Rmin_left by lra.
    replace (Car.vx c / n * 8) with (8 / n * Car.vx c) by (field; lra).
    replace (Car.vy c / n * 8) with (8 / n * Car.vy c) by (field; lra).
    rewrite norm_scaled.
    + fold n. field. lra.
    + apply Rlt_le, Rdiv_lt_0_compat; lra.
  - fold n. rewrite Rmin_right by lra. reflexivity.
Qed.

Lemma move_speed (c : Car.t) : speed (move c) = speed c.
Proof. reflexivity. Qed.

Lemma steer_velocity (c : Car.t) (input : AnalogInput.t) :
  Car.vx (steer c input) = Car.vx c /\ Car.vy (steer c input) = Car.vy c.
Proof. unfold steer. stage_cases; split; reflexivity. Qed.

(** X1.  Whatever the car and the input, the speed of the car after
    [updatePlayerCarPhysics] is the smaller of [MAX_SPEED] and the speed
    the function returns: the car never moves faster than [MAX_SPEED],
    although the returned number, taken before the clamp, can exceed
    it. *)
Theorem updatePlayerCarPhysics_speed_limit (car : Car.t)
    (input : AnalogInput.t) :
  let car' := fst (updatePlayerCarPhysics car input) in
  let newSpeed := snd (updatePlayerCarPhysics car input) in
  speed car' = Rmin MAX_SPEED newSpeed
  /\ speed car' <= MAX_SPEED
  /\ Rabs (Car.vx car') <= MAX_SPEED /\ Rabs (Car.vy car') <= MAX_SPEED.
Proof.
  cbv zeta. unfold updatePlayerCarPhysics.
  set (c3 := applyFriction (accelerate (steer car input) input)).
  destruct (limitSpeed_speed c3) as [Hs Hr].
  pose proof (limitSpeed_bound c3) as (_ & _ & Bx & By).
  destruct (limitSpeed c3) as [c4 n]. cbn [fst snd] in *.
  rewrite move_speed, Hs, Hr. split; [reflexivity|].
  split; [apply Rmin_l|]. split; assumption.
Qed.

(** The algebra of the two frictions: the velocity is split along and
    across the heading, each part is scaled, and the parts are put back
    together. *)
Lemma friction_norm (C S vx vy kf ks : R) :
  C * C + S * S = 1 -> 0 <= ks <= kf ->
  sqrt ((C * ((vx * C + vy * S) * kf) + - S * ((vx * - S + vy * C) * ks))
        * (C * ((vx * C + vy * S) * kf) + - S * ((vx * - S + vy * C) * ks))
        + (S * ((vx * C + vy * S) * kf) + C * ((vx * - S + vy * C) * ks))
          * (S * ((vx * C + vy * S) * kf) + C * ((vx * - S + vy * C) * ks)))
  <= kf * sqrt (vx * vx + vy * vy).
Proof.
  intros Hcs Hk.
  set (f := vx * C + vy * S). set (s := vx * - S + vy * C).
  replace ((C * (f * kf) + - S * (s * ks)) * (C * (f * kf) + - S * (s * ks))
           + (S * (f * kf) + C * (s * ks)) * (S * (f * kf) + C * (s * ks)))
    with ((C * C + S * S) * (f * kf * (f * kf) + s * ks * (s * ks))) by ring.
  rewrite Hcs, Rmult_1_l.
  assert (Hn : vx * vx + vy * vy = f * f + s * s).
  { unfold f, s.
    replace ((vx * C + vy * S) * (vx * C + vy * S)
             + (vx * - S + vy * C) * (vx * - S + vy * C))
      with ((C * C + S * S) * (vx * vx + vy * vy)) by ring.
    rewrite Hcs. ring. }
  rewrite Hn.
  assert (Hss : 0 <= s * s) by nra. assert (Hff : 0 <= f * f) by nra.
  assert (Hkk : ks * ks <= kf * kf) by nra.
  replace (kf * sqrt (f * f + s * s))
    with (sqrt (kf * kf * (f * f + s * s)))
    by (rewrite sqrt_mult by nra; rewrite sqrt_square by lra; reflexivity).
  apply sqrt_le_1; nra.
Qed.

Lemma cos_sin_unit (a : R) : cos a * cos a + sin a * sin a = 1.
Proof. pose proof (sin2_cos2 a) as H. unfold Rsqr in H. lra. Qed.

Lemma applyFriction_speed (c : Car.t) :
  speed (applyFriction c) <= FORWARD_FRICTION * speed c.
Proof.
  unfold applyFriction, speed, FORWARD_FRICTION, SIDEWAYS_FRICTION.
  cbn [Car.vx Car.vy Car.with_vx Car.with_vy].
  apply friction_norm; [apply cos_sin_unit | lra].
Qed.

Lemma accelerate_coasting (c : Car.t) (input : AnalogInput.t) :
  coasting input -> accelerate c input = c.
Proof.
  intros [Hf Hr]. unfold accelerate.
  replace (Rltb 0 (AnalogInput.forward input)) with false
    by (symmetry; apply Rltb_false; exact Hf).
  replace (Rltb 0 (AnalogInput.reverse input)) with false
    by (symmetry; apply Rltb_false; exact Hr).
  reflexivity.
Qed.

(** X2.  With no throttle and no brake (neither [forward] nor [reverse]
    positive) one tick of the integrator leaves the car, whatever it
    steers, with at most 0.98 of the speed it had: a coasting car never
    speeds up, and the returned speed obeys the same bound. *)
Theorem updatePlayerCarPhysics_coasting_slows (car : Car.t)
    (input : AnalogInput.t) :
  coasting input ->
  speed (fst (updatePlayerCarPhysics car input)) <= FORWARD_FRICTION * speed car
  /\ snd (updatePlayerCarPhysics car input) <= FORWARD_FRICTION * speed car
  /\ speed (fst (updatePlayerCarPhysics car input)) <= speed car.
Proof.
  intros Hcoast. unfold updatePlayerCarPhysics.
  rewrite (accelerate_coasting _ _ Hcoast).
  pose proof (applyFriction_speed (steer car input)) as Hf.
  assert (Hv : speed (steer car input) = speed car).
  { unfold speed. destruct (steer_velocity car input) as [-> ->]. reflexivity. }
  rewrite Hv in Hf.
  destruct (limitSpeed_speed (applyFriction (steer car input))) as [Hs Hr].
  destruct (limitSpeed (applyFriction (steer car input))) as [c4 n].
  cbn [fst snd] in *. rewrite move_speed, Hs, Hr.
  pose proof (Rmin_r MAX_SPEED (speed (applyFriction (steer car input)))) as Hm.
  assert (Hpos : 0 <= speed car) by apply sqrt_pos.
  unfold FORWARD_FRICTION in *. repeat split; lra.
Qed.

Lemma updatePlayerCarPhysics_coasting_slows_witness :
  speed (fst (updatePlayerCarPhysics sceneA (AnalogInput.mk 0 0 1 0)))
  <= speed sceneA.
Proof.
  apply (updatePlayerCarPhysics_coasting_slows sceneA (AnalogInput.mk 0 0 1 0)).
  split; cbn; lra.
Defined.

Lemma steer_turn (c : Car.t) (input : AnalogInput.t) :
  Rabs (Car.angularVel (steer c input)) <= MAX_ANGULAR_VEL * ANGULAR_FRICTION
  /\ Car.angle (steer c input) = Car.angle c + Car.angularVel (steer c input).
Proof.
  unfold steer. cbv zeta.
  cbn [Car.angle Car.angularVel Car.with_angle Car.with_angularVel].
  split.
  - match goal with
    | |- Rabs (Rmax ?lo (Rmin ?hi ?w) * _) <= _ =>
        pose proof (Rmax_l lo (Rmin hi w));
        pose proof (Rmin_l hi w);
        assert (Rmax lo (Rmin hi w) <= hi)
          by (apply Rmax_lub; unfold MAX_ANGULAR_VEL in *; lra)
    end.
    unfold MAX_ANGULAR_VEL, ANGULAR_FRICTION in *.
    apply Rabs_le. lra.
  - stage_cases; reflexivity.
Qed.

Lemma heading_after_steer (c : Car.t) (input : AnalogInput.t) :
  let c' := fst (updatePlayerCarPhysics c input) in
  Car.angle c' = Car.angle (steer c input)
  /\ Car.angularVel c' = Car.angularVel (steer c input).
Proof.
  cbv zeta. unfold updatePlayerCarPhysics.
  set (c1 := steer c input).
  assert (Ha : Car.angle (accelerate c1 input) = Car.angle c1
               /\ Car.angularVel (accelerate c1 input) = Car.angularVel c1).
  { unfold accelerate. stage_cases; split; reflexivity. }
  set (c2 := accelerate c1 input) in *.
  assert (Hl : Car.angle (fst (limitSpeed (applyFriction c2))) = Car.angle c2
               /\ Car.angularVel (fst (limitSpeed (applyFriction c2)))
                  = Car.angularVel c2).
  { unfold limitSpeed. stage_cases; split; reflexivity. }
  destruct (limitSpeed (applyFriction c2)) as [c4 n]. cbn [fst] in *.
  unfold move. cbn [Car.angle Car.angularVel Car.with_x Car.with_y].
  destruct Ha as [Ha1 Ha2]. destruct Hl as [Hl1 Hl2]. split; congruence.
Qed.

(** X3.  Whatever the input and however fast the car, one tick of the
    integrator turns the heading by the new angular velocity, and that is
    at most [MAX_ANGULAR_VEL * ANGULAR_FRICTION] (0.068 radian) in
    magnitude: the clamp comes after the steering and before the
    friction. *)
Theorem updatePlayerCarPhysics_turn_limit (car : Car.t)
    (input : AnalogInput.t) :
  let car' := fst (updatePlayerCarPhysics car input) in
  Car.angle car' = Car.angle car + Car.angularVel car'
  /\ Rabs (Car.angularVel car') <= MAX_ANGULAR_VEL * ANGULAR_FRICTION
  /\ Rabs (Car.angle car' - Car.angle car) <= 0.068.
Proof.
  cbv zeta. destruct (heading_after_steer car input) as [-> ->].
  destruct (steer_turn car input) as [Hb Ha].
  split; [exact Ha|]. split; [exact Hb|].
  rewrite Ha.
  replace (Car.angle car + Car.angularVel (steer car input) - Car.angle car)
    with (Car.angularVel (steer car input)) by ring.
  unfold MAX_ANGULAR_VEL, ANGULAR_FRICTION in Hb. lra.
Qed.

(** X4.  A car that stands still and does not spin cannot be turned: with
    zero velocity and zero angular velocity the steering factor is 0, so
    whatever the [left] and [right] intensities the heading and the
    angular velocity stay as they are. *)
Theorem standing_car_cannot_turn (car : Car.t) (input : AnalogInput.t) :
  Car.vx car = 0 -> Car.vy car = 0 -> Car.angularVel car = 0 ->
  let car' := fst (updatePlayerCarPhysics car input) in
  Car.angle car' = Car.angle car /\ Car.angularVel car' = 0.
Proof.
  intros Hvx Hvy Hw. cbv zeta.
  destruct (heading_after_steer car input) as [-> ->].
  assert (Hsf : steeringFactor car = 0).
  { unfold steeringFactor. rewrite Hvx, Hvy.
    replace (0 * 0 + 0 * 0) with 0 by ring. rewrite sqrt_0.
    unfold MIN_SPEED_TO_TURN. cmp_eval. lra. }
  assert (Hav : Car.angularVel (steer car input) = 0).
  { unfold steer. rewrite Hsf. cbv zeta.
    unfold MAX_ANGULAR_VEL, ANGULAR_FRICTION, TURN_RATE.
    stage_cases;
      cbn [Car.angularVel Car.with_angularVel Car.with_angle]; rewrite Hw;
      match goal with
      | |- Rmax ?lo (Rmin ?hi ?w) * _ = 0 =>
          replace w with 0 by ring;
          rewrite (Rmin_right hi 0) by lra; rewrite (Rmax_right lo 0) by lra
      end; ring. }
  destruct (steer_turn car input) as [_ Ha].
  rewrite Ha, Hav. split; ring.
Qed.

Lemma standing_car_cannot_turn_witness :
  Car.angle (fst (updatePlayerCarPhysics restA (AnalogInput.mk 0 0 1 0)))
  = Car.angle restA.
Proof.
  apply (standing_car_cannot_turn restA (AnalogInput.mk 0 0 1 0));
    reflexivity.
Defined.

(** ** physics.ts: a car without a driver *)

Lemma updateTargetCarPhysics_speed (c : Car.t) :
  speed (updateTargetCarPhysics c) <= 0.96 * speed c.
Proof.
  unfold updateTargetCarPhysics, speed.
  cbn [Car.vx Car.vy Car.with_vx Car.with_vy Car.with_angle
       Car.with_angularVel Car.with_x Car.with_y].
  apply friction_norm; [apply cos_sin_unit | lra].
Qed.

(** X5.  [updateTargetCarPhysics] only lets a car coast: each call leaves
    at most 0.96 of the speed and exactly 0.92 of the angular velocity,
    and never touches health or size; after [n] calls the speed is at
    most [0.96 ^ n] of the initial one. *)
Theorem updateTargetCarPhysics_decays (car : Car.t) (n : nat) :
  speed (updateTargetCarPhysics car) <= 0.96 * speed car
  /\ Car.angularVel (updateTargetCarPhysics car) = Car.angularVel car * 0.92
  /\ Car.health (updateTargetCarPhysics car) = Car.health car
  /\ Car.width (updateTargetCarPhysics car) = Car.width car
  /\ Car.height (updateTargetCarPhysics car) = Car.height car
  /\ speed (Nat.iter n updateTargetCarPhysics car) <= 0.96 ^ n * speed car
  /\ Car.angularVel (Nat.iter n updateTargetCarPhysics car)
     = Car.angularVel car * 0.92 ^ n.
Proof.
  split; [apply updateTargetCarPhysics_speed|].
  do 4 (split; [reflexivity|]).
  split.
  - induction n as [|n IH]; [simpl; lra|].
    change (Nat.iter (S n) updateTargetCarPhysics car)
      with (updateTargetCarPhysics (Nat.iter n updateTargetCarPhysics car)).
    pose proof (updateTargetCarPhysics_speed
                  (Nat.iter n updateTargetCarPhysics car)) as Hs.
    replace (0.96 ^ S n * speed car) with (0.96 * (0.96 ^ n * speed car))
      by (simpl; ring).
    lra.
  - induction n as [|n IH]; [simpl; lra|].
    change (Nat.iter (S n) updateTargetCarPhysics car)
      with (updateTargetCarPhysics (Nat.iter n updateTargetCarPhysics car)).
    change (Car.angularVel
              (updateTargetCarPhysics (Nat.iter n updateTargetCarPhysics car)))
      with (Car.angularVel (Nat.iter n updateTargetCarPhysics car) * 0.92).
    rewrite IH. simpl. ring.
Qed.

(** ** physics.ts: vehicle-vehicle collision *)

(** Where an overlapping pair with distinct centres is left, on every path
    through [handleCarCollision]. *)
Lemma handleCarCollision_positions (p t : Car.t) (lastCollisionTime : Z)
    (damagePopups : list DamagePopup.t) (rnd1 rnd2 : R) (now : Z) :
  checkCarCollision p t = true -> centerDistance p t <> 0 ->
  let r :=
    handleCarCollision p t lastCollisionTime damagePopups rnd1 rnd2 now in
  let p' := fst (fst (fst r)) in
  let t' := snd (fst (fst r)) in
  let d := centerDistance p t in
  let push := (Car.width p + Car.width t) / 2 * 0.85 - d + 2 in
  Car.x p' = Car.x p - (Car.x t - Car.x p) / d * push * 0.6
  /\ Car.y p' = Car.y p - (Car.y t - Car.y p) / d * push * 0.6
  /\ Car.x t' = Car.x t + (Car.x t - Car.x p) / d * push * 0.4
  /\ Car.y t' = Car.y t + (Car.y t - Car.y p) / d * push * 0.4
  /\ Car.width p' = Car.width p /\ Car.width t' = Car.width t.
Proof.
  intros Hcheck Hdist. cbv zeta. unfold handleCarCollision.
  rewrite Hcheck. simpl negb. cbv iota.
  pose proof Hcheck as Hlt. unfold checkCarCollision in Hlt.
  apply Rltb_true in Hlt. fold (centerDistance p t) in Hlt.
  replace (Rleb ((Car.width p + Car.width t) / 2 * 0.85) (centerDistance p t))
    with false by (symmetry; apply Rleb_false; exact Hlt).
  replace (Reqb (centerDistance p t) 0) with false
    by (symmetry; apply Reqb_false; exact Hdist).
  simpl orb. cbv iota.
  destruct (Rltb 0 (impactComponent p t));
    (destruct (now - lastCollisionTime <? 150)%Z;
     [cbn; repeat split; reflexivity|]);
    (destruct (Rltb MIN_IMPACT_FOR_DAMAGE (impactSpeed p t));
     cbn; repeat split; reflexivity).
Qed.

(** X6.  When two cars overlap with distinct centres, one call of
    [handleCarCollision] leaves their centres exactly the contact distance
    plus 2 apart, whatever their velocities, the cooldown and the damage:
    the pair no longer overlaps after the call. *)
Theorem handleCarCollision_separates (p t : Car.t) (lastCollisionTime : Z)
    (damagePopups : list DamagePopup.t) (rnd1 rnd2 : R) (now : Z) :
  checkCarCollision p t = true -> centerDistance p t <> 0 ->
  let r :=
    handleCarCollision p t lastCollisionTime damagePopups rnd1 rnd2 now in
  let p' := fst (fst (fst r)) in
  let t' := snd (fst (fst r)) in
  centerDistance p' t' = (Car.width p + Car.width t) / 2 * 0.85 + 2
  /\ checkCarCollision p' t' = false.
Proof.
  intros Hcheck Hdist.
  pose proof (handleCarCollision_positions p t lastCollisionTime damagePopups
                rnd1 rnd2 now Hcheck Hdist) as Hpos.
  cbv zeta in *.
  set (r := handleCarCollision p t lastCollisionTime damagePopups rnd1 rnd2
              now) in *.
  destruct Hpos as (Hpx & Hpy & Htx & Hty & Hpw & Htw).
  pose proof Hcheck as Hlt. unfold checkCarCollision in Hlt.
  apply Rltb_true in Hlt. fold (centerDistance p t) in Hlt.
  assert (Hd0 : 0 <= centerDistance p t) by apply sqrt_pos.
  set (d := centerDistance p t) in *.
  set (m := (Car.width p + Car.width t) / 2 * 0.85) in *.
  assert (Hdist' : centerDistance (fst (fst (fst r))) (snd (fst (fst r)))
                   = m + 2).
  { unfold centerDistance at 1. rewrite Hpx, Hpy, Htx, Hty.
    set (dx := Car.x t - Car.x p). set (dy := Car.y t - Car.y p).
    replace (Car.x t + dx / d * (m - d + 2) * 0.4
             - (Car.x p - dx / d * (m - d + 2) * 0.6))
      with ((m + 2) / d * dx) by (unfold dx; replace 0.4 with (4 / 10) by lra;
          replace 0.6 with (6 / 10) by lra; field; lra).
    replace (Car.y t + dy / d * (m - d + 2) * 0.4
             - (Car.y p - dy / d * (m - d + 2) * 0.6))
      with ((m + 2) / d * dy) by (unfold dy; replace 0.4 with (4 / 10) by lra;
          replace 0.6 with (6 / 10) by lra; field; lra).
    rewrite norm_scaled.
    - change (sqrt (dx * dx + dy * dy)) with d. field. lra.
    - apply Rlt_le, Rdiv_lt_0_compat; lra. }
  split; [exact Hdist'|].
  unfold checkCarCollision.
  change (sqrt _) with
    (centerDistance (fst (fst (fst r))) (snd (fst (fst r)))).
  rewrite Hdist', Hpw, Htw. fold m. apply Rltb_false. lra.
Qed.

Lemma handleCarCollision_separates_witness :
  centerDistance
    (fst (fst (fst (handleCarCollision sceneA sceneB 0 [] 0 0 1000))))
    (snd (fst (fst (handleCarCollision sceneA sceneB 0 [] 0 0 1000))))
  = (Car.width sceneA + Car.width sceneB) / 2 * 0.85 + 2.
Proof.
  apply (handleCarCollision_separates sceneA sceneB 0 [] 0 0 1000).
  - exact scene_check.
  - rewrite scene_distance. lra.
Defined.

(** X7.  Damage is gated, the response is not.  Inside the 150 ms
    cooldown, at an impact speed of at most 2, or without overlap,
    [handleCarCollision] changes no health, adds no popup and returns the
    time it was given.  On every call the outcome is one of two: health,
    popups and time are untouched, or exactly one popup of age 0 with a
    non-negative integer damage is appended and the returned time is
    [now]. *)
Theorem handleCarCollision_damage_gate (p t : Car.t) (lastCollisionTime : Z)
    (damagePopups : list DamagePopup.t) (rnd1 rnd2 : R) (now : Z) :
  let r :=
    handleCarCollision p t lastCollisionTime damagePopups rnd1 rnd2 now in
  let p' := fst (fst (fst r)) in
  let t' := snd (fst (fst r)) in
  let untouched :=
    Car.health p' = Car.health p /\ Car.health t' = Car.health t
    /\ snd (fst r) = damagePopups /\ snd r = lastCollisionTime in
  ((now - lastCollisionTime < 150)%Z \/
   impactSpeed p t <= MIN_IMPACT_FOR_DAMAGE \/
   checkCarCollision p t = false -> untouched)
  /\ (untouched
      \/ exists popup : DamagePopup.t,
           snd (fst r) = damagePopups ++ [popup] /\ snd r = now
           /\ DamagePopup.age popup = 0
           /\ 0 <= DamagePopup.damage popup
           /\ exists n : Z, DamagePopup.damage popup = IZR n).
Proof.
  cbv zeta. unfold handleCarCollision.
  destruct (checkCarCollision p t) eqn:Hcheck; simpl negb; cbv iota;
    [|split; [intros _|left]; repeat split; reflexivity].
  destruct (Rleb _ _ || Reqb _ _);
    [split; [intros _|left]; repeat split; reflexivity|].
  destruct (Rltb 0 (impactComponent p t));
    (destruct (now - lastCollisionTime <? 150)%Z eqn:Hcool;
     [split; [intros _|left]; repeat split; reflexivity|]);
    (destruct (Rltb MIN_IMPACT_FOR_DAMAGE (impactSpeed p t)) eqn:Hs;
     [|split; [intros _|left]; repeat split; reflexivity]);
    apply Z.ltb_ge in Hcool; apply Rltb_true in Hs;
    (split;
     [ intros [Hc|[Hc|Hc]]; [lia | lra | discriminate]
     | right; eexists; split; [reflexivity|]; split; [reflexivity|];
       split; [reflexivity|]; split;
       [exact (damage_nonneg _ Hs) | apply Math_round_integer] ]).
Qed.

(** X8.  A collision never repairs: when every zone of both cars is at
    least 0 before [handleCarCollision], every zone of both cars is at
    most what it was, and so is the total health of each. *)
Theorem handleCarCollision_never_repairs (p t : Car.t) (lastCollisionTime : Z)
    (damagePopups : list DamagePopup.t) (rnd1 rnd2 : R) (now : Z) :
  (forall z : HitZone, 0 <= Health.get z (Car.health p)) ->
  (forall z : HitZone, 0 <= Health.get z (Car.health t)) ->
  let r :=
    handleCarCollision p t lastCollisionTime damagePopups rnd1 rnd2 now in
  let p' := fst (fst (fst r)) in
  let t' := snd (fst (fst r)) in
  (forall z : HitZone,
      Health.get z (Car.health p') <= Health.get z (Car.health p)
      /\ Health.get z (Car.health t') <= Health.get z (Car.health t))
  /\ getTotalHealth p' <= getTotalHealth p
  /\ getTotalHealth t' <= getTotalHealth t.
Proof.
  intros Hp Ht. cbv zeta.
  pose proof (handleCarCollision_health p t lastCollisionTime damagePopups
                rnd1 rnd2 now) as H.
  destruct (handleCarCollision p t lastCollisionTime damagePopups rnd1 rnd2
              now) as [[[p' t'] popups] time]. cbn [fst snd].
  assert (Hset : forall (h : Health.t) (zd : HitZone) (d : R) (z : HitZone),
             (forall z0, 0 <= Health.get z0 h) -> 0 <= d ->
             Health.get z (Health.set zd (Rmax 0 (Health.get zd h - d)) h)
             <= Health.get z h).
  { intros h zd d z Hh Hd. destruct (decide (zd = z)) as [<-|Hne].
    - rewrite Health_get_set_eq. pose proof (Hh zd).
      unfold Rmax. destruct (Rle_dec 0 (Health.get zd h - d)); lra.
    - rewrite Health_get_set_ne by exact Hne. lra. }
  assert (Hzones : forall z : HitZone,
             Health.get z (Car.health p') <= Health.get z (Car.health p)
             /\ Health.get z (Car.health t') <= Health.get z (Car.health t)).
  { intros z. destruct H as [[-> ->]|(D & zp & zt & HD & -> & ->)]; [lra|].
    split; apply Hset; try assumption.
    unfold ATTACKER_DAMAGE_RATIO. lra. }
  split; [exact Hzones|].
  pose proof (Hzones Zfront) as [Pf Tf]. pose proof (Hzones Zrear) as [Pr Tr].
  pose proof (Hzones Zleft) as [Pl Tl]. pose proof (Hzones Zright) as [Pg Tg].
  cbn [Health.get] in *. unfold getTotalHealth. split; lra.
Qed.

Lemma handleCarCollision_never_repairs_witness :
  getTotalHealth
    (snd (fst (fst (handleCarCollision sceneA sceneB 0 [] 0 0 1000))))
  <= getTotalHealth sceneB.
Proof.
  apply (handleCarCollision_never_repairs sceneA sceneB 0 [] 0 0 1000);
    intros z; destruct z; cbn; lra.
Defined.

Lemma dot_le_norms (a b c e : R) :
  Rabs (a * c + b * e) <= sqrt (a * a + b * b) * sqrt (c * c + e * e).
Proof.
  rewrite <- sqrt_mult by nra.
  rewrite <- (sqrt_Rsqr_abs (a * c + b * e)).
  pose proof (Rle_0_sqr (a * e - b * c)) as Hsq.
  apply sqrt_le_1.
  - exact (Rle_0_sqr _).
  - apply Rmult_le_pos; nra.
  - unfold Rsqr in *.
    replace ((a * a + b * b) * (c * c + e * e))
      with ((a * c + b * e) * (a * c + b * e)
            + (a * e - b * c) * (a * e - b * c)) by ring.
    lra.
Qed.

Lemma norm_triangle (a b c e : R) :
  sqrt ((a - c) * (a - c) + (b - e) * (b - e))
  <= sqrt (a * a + b * b) + sqrt (c * c + e * e).
Proof.
  pose proof (dot_le_norms a b c e) as Hdot.
  pose proof (sqrt_pos (a * a + b * b)) as Hu.
  pose proof (sqrt_pos (c * c + e * e)) as Hv.
  pose proof (sqrt_sqrt (a * a + b * b) ltac:(nra)) as Hu2.
  pose proof (sqrt_sqrt (c * c + e * e) ltac:(nra)) as Hv2.
  set (u := sqrt (a * a + b * b)) in *.
  set (v := sqrt (c * c + e * e)) in *.
  rewrite <- (sqrt_square (u + v)) by lra.
  assert (Hneg : - (a * c + b * e) <= u * v).
  { unfold Rabs in Hdot. destruct (Rcase_abs (a * c + b * e)); lra. }
  apply sqrt_le_1.
  - pose proof (Rle_0_sqr (a - c)). pose proof (Rle_0_sqr (b - e)).
    unfold Rsqr in *. lra.
  - exact (Rle_0_sqr _).
  - replace ((u + v) * (u + v)) with (u * u + v * v + 2 * (u * v)) by ring.
    rewrite Hu2, Hv2.
    replace ((a - c) * (a - c) + (b - e) * (b - e))
      with (a * a + b * b + (c * c + e * e) + 2 * - (a * c + b * e)) by ring.
    lra.
Qed.

(** The closing speed along the line of centres is at most the sum of the
    two speeds. *)
Lemma impactSpeed_le_speeds (p t : Car.t) :
  centerDistance p t <> 0 -> impactSpeed p t <= speed p + speed t.
Proof.
  intros Hd. unfold impactSpeed, impactComponent.
  pose proof (sqrt_pos ((Car.x t - Car.x p) * (Car.x t - Car.x p)
                        + (Car.y t - Car.y p) * (Car.y t - Car.y p))) as Hpos.
  fold (centerDistance p t) in Hpos.
  set (d := centerDistance p t) in *.
  set (dx := Car.x t - Car.x p). set (dy := Car.y t - Car.y p).
  set (rx := Car.vx p - Car.vx t). set (ry := Car.vy p - Car.vy t).
  cbv zeta.
  replace (rx * (dx / d) + ry * (dy / d)) with ((rx * dx + ry * dy) / d)
    by (field; exact Hd).
  unfold Rdiv. rewrite Rabs_mult, (Rabs_right (/ d)).
  2:{ apply Rle_ge, Rlt_le, Rinv_0_lt_compat. lra. }
  pose proof (dot_le_norms rx ry dx dy) as Hdot.
  change (sqrt (dx * dx + dy * dy)) with d in Hdot.
  pose proof (norm_triangle (Car.vx p) (Car.vy p) (Car.vx t) (Car.vy t))
    as Htri.
  fold rx ry (speed p) (speed t) in Htri.
  apply Rle_trans with (sqrt (rx * rx + ry * ry)); [|exact Htri].
  apply Rmult_le_reg_r with d; [lra|].
  rewrite Rmult_assoc, Rinv_l, Rmult_1_r by exact Hd. exact Hdot.
Qed.

Lemma Math_round_le (v : R) (n : Z) : v <= IZR n -> Math_round v <= IZR n.
Proof.
  intros Hv. unfold Math_round. apply IZR_le.
  assert (H : (Zfloor (v + / 2) < n + 1)%Z); [|lia].
  apply lt_IZR. rewrite plus_IZR.
  pose proof (Zfloor_bound (v + / 2)). simpl. lra.
Qed.

(** The health records after [handleCarCollision], with the damage
    named: either both are untouched, or the cars overlapped with
    distinct centres and one zone of each lost the rounded damage. *)
Lemma handleCarCollision_health_exact (p t : Car.t) (lastCollisionTime : Z)
    (damagePopups : list DamagePopup.t) (rnd1 rnd2 : R) (now : Z) :
  let '(p', t', _, _) :=
    handleCarCollision p t lastCollisionTime damagePopups rnd1 rnd2 now in
  let D :=
    Math_round ((impactSpeed p t - MIN_IMPACT_FOR_DAMAGE)
                * DAMAGE_MULTIPLIER) in
  (Car.health p' = Car.health p /\ Car.health t' = Car.health t)
  \/ centerDistance p t <> 0 /\ 0 <= D
     /\ exists zp zt : HitZone,
       Car.health p'
       = Health.set zp
           (Rmax 0 (Health.get zp (Car.health p) - D * ATTACKER_DAMAGE_RATIO))
           (Car.health p)
       /\ Car.health t'
          = Health.set zt (Rmax 0 (Health.get zt (Car.health t) - D))
              (Car.health t).
Proof.
  unfold handleCarCollision.
  destruct (checkCarCollision p t); simpl negb; cbv iota; [|left; easy].
  destruct (Reqb (centerDistance p t) 0) eqn:Hz;
    [rewrite orb_true_r; left; easy|].
  apply Reqb_false in Hz.
  destruct (Rleb _ _); simpl orb; cbv iota; [left; easy|].
  destruct (Rltb 0 (impactComponent p t));
    (destruct (now - lastCollisionTime <? 150)%Z; [left; easy|]);
    (destruct (Rltb MIN_IMPACT_FOR_DAMAGE (impactSpeed p t)) eqn:Hs;
     [|left; easy]);
    apply Rltb_true in Hs; right;
    (split; [exact Hz|]); (split; [exact (damage_nonneg _ Hs)|]);
    eexists; eexists; split; reflexivity.
Qed.

(** X9.  The impact speed of two cars with distinct centres is at most
    the sum of their speeds.  So when neither car is faster than
    MAX_SPEED, one call of [handleCarCollision] takes at most 42 from any
    zone of the target and at most 6.3 from any zone of the player. *)
Theorem handleCarCollision_damage_cap (p t : Car.t) (lastCollisionTime : Z)
    (damagePopups : list DamagePopup.t) (rnd1 rnd2 : R) (now : Z) :
  speed p <= MAX_SPEED -> speed t <= MAX_SPEED ->
  let r :=
    handleCarCollision p t lastCollisionTime damagePopups rnd1 rnd2 now in
  let p' := fst (fst (fst r)) in
  let t' := snd (fst (fst r)) in
  (centerDistance p t <> 0 -> impactSpeed p t <= speed p + speed t)
  /\ forall z : HitZone,
       Health.get z (Car.health t) - 42 <= Health.get z (Car.health t')
       /\ Health.get z (Car.health p) - 6.3 <= Health.get z (Car.health p').
Proof.
  intros Hp Ht. cbv zeta. split; [apply impactSpeed_le_speeds|].
  pose proof (handleCarCollision_health_exact p t lastCollisionTime
                damagePopups rnd1 rnd2 now) as H.
  destruct (handleCarCollision p t lastCollisionTime damagePopups rnd1 rnd2
              now) as [[[p' t'] popups] time]. cbn [fst snd].
  cbv zeta in H. intros z.
  destruct H as [[-> ->]|(Hd & HD & zp & zt & -> & ->)]; [lra|].
  pose proof (impactSpeed_le_speeds p t Hd) as Hs.
  assert (HD42 : Math_round ((impactSpeed p t - MIN_IMPACT_FOR_DAMAGE)
                             * DAMAGE_MULTIPLIER) <= 42).
  { apply (Math_round_le _ 42).
    unfold MIN_IMPACT_FOR_DAMAGE, DAMAGE_MULTIPLIER, MAX_SPEED in *. lra. }
  set (D := Math_round _) in *.
  assert (Hset : forall (h : Health.t) (zd : HitZone) (d cap : R),
             0 <= d <= cap ->
             Health.get z h - cap
             <= Health.get z (Health.set zd (Rmax 0 (Health.get zd h - d)) h)).
  { intros h zd d cap Hdc. destruct (decide (zd = z)) as [<-|Hne].
    - rewrite Health_get_set_eq.
      pose proof (Rmax_r 0 (Health.get zd h - d)). lra.
    - rewrite Health_get_set_ne by exact Hne. lra. }
  split; apply Hset; unfold ATTACKER_DAMAGE_RATIO; lra.
Qed.

Lemma handleCarCollision_damage_cap_witness :
  Health.get Zfront (Car.health sceneB) - 42
  <= Health.get Zfront
       (Car.health
          (snd (fst (fst (handleCarCollision sceneA sceneB 0 [] 0 0 1000))))).
Proof.
  assert (Hs : forall v : R, 0 <= v -> v <= 8 -> sqrt (v * v + 0 * 0) <= 8).
  { intros v H0 H8. replace (v * v + 0 * 0) with (v * v) by ring.
    rewrite sqrt_square; lra. }
  apply (handleCarCollision_damage_cap sceneA sceneB 0 [] 0 0 1000);
    unfold speed, MAX_SPEED; cbn; apply Hs; lra.
Defined.

(** ** physics.ts: the walls *)

Ltac wall_stages :=
  unfold wallCorner, wallBottom, wallTop, wallRight, wallLeft.

Lemma wallCorner_outcome (c : Car.t) (b : bool) (pt : Point.t) :
  (inArena pt /\ wallCorner (c, b) pt = (c, b))
  \/ (~ inArena pt /\ snd (wallCorner (c, b) pt) = true).
Proof.
  wall_stages. unfold inArena.
  destruct (Rltb (Point.x pt) WALL_THICKNESS) eqn:H1;
    [apply Rltb_true in H1; right; split;
     [lra | stage_cases; reflexivity]|].
  destruct (Rltb (WORLD_WIDTH - WALL_THICKNESS) (Point.x pt)) eqn:H2;
    [apply Rltb_true in H2; right; split;
     [lra | stage_cases; reflexivity]|].
  destruct (Rltb (Point.y pt) WALL_THICKNESS) eqn:H3;
    [apply Rltb_true in H3; right; split;
     [lra | stage_cases; reflexivity]|].
  destruct (Rltb (WORLD_HEIGHT - WALL_THICKNESS) (Point.y pt)) eqn:H4;
    [apply Rltb_true in H4; right; split; [lra | reflexivity]|].
  apply Rltb_false in H1, H2, H3, H4. left. split; [lra | reflexivity].
Qed.

Lemma wallCorner_flag (c : Car.t) (pt : Point.t) :
  snd (wallCorner (c, true) pt) = true.
Proof. wall_stages. stage_cases; reflexivity. Qed.

Lemma fold_wallCorner_flag (corners : list Point.t) (c : Car.t) :
  snd (fold_left wallCorner corners (c, true)) = true.
Proof.
  revert c. induction corners as [|pt corners IH]; intros c; [reflexivity|].
  cbn [fold_left]. pose proof (wallCorner_flag c pt) as Hf.
  destruct (wallCorner (c, true) pt) as [c1 b1]. cbn [snd] in Hf.
  subst b1. apply IH.
Qed.

Lemma fold_wallCorner_outcome (corners : list Point.t) (c : Car.t) :
  (Forall inArena corners /\ fold_left wallCorner corners (c, false) = (c, false))
  \/ (~ Forall inArena corners
      /\ snd (fold_left wallCorner corners (c, false)) = true).
Proof.
  revert c. induction corners as [|pt corners IH]; intros c.
  - left. split; [apply Forall_nil; exact I | reflexivity].
  - cbn [fold_left].
    destruct (wallCorner_outcome c false pt) as [[Hin ->]|[Hout Hflag]].
    + destruct (IH c) as [[Hall Heq]|[Hnot Hflag]].
      * left. split; [apply Forall_cons; split; assumption | exact Heq].
      * right. split; [|exact Hflag].
        intros Hall. apply Forall_cons in Hall. tauto.
    + right. split.
      * intros Hall. apply Forall_cons in Hall. tauto.
      * destruct (wallCorner (c, false) pt) as [c1 b1]. cbn [snd] in Hflag.
        subst b1. apply fold_wallCorner_flag.
Qed.

(** X10.  [handleWallCollisions] reports a collision exactly when some
    corner of the car, as placed before the call, lies beyond a wall; when
    all four corners are inside the arena it returns the car unchanged
    (no push, no damping, no angular kick). *)
Theorem handleWallCollisions_reports (car : Car.t) (rnd : R) :
  (cornersInArena car <-> snd (handleWallCollisions car rnd) = false)
  /\ (cornersInArena car -> handleWallCollisions car rnd = (car, false)).
Proof.
  unfold handleWallCollisions, cornersInArena.
  destruct (fold_wallCorner_outcome (getCarCorners car) car)
    as [[Hall Heq]|[Hnot Hflag]].
  - rewrite Heq. cbn [snd]. tauto.
  - destruct (fold_left wallCorner (getCarCorners car) (car, false))
      as [c1 b1]. cbn [snd] in Hflag. subst b1. cbn [snd].
    split; [split|]; intros; [tauto | discriminate | tauto].
Qed.

(** How much of a bound on the two velocity components is left after the
    walls have been hit ([true]) or not ([false]): each wall that fires
    multiplies both components by at most COLLISION_DAMPING. *)
Ltac wall_damps st :=
  let Hax := fresh "Hax" in
  let Hay := fresh "Hay" in
  let Hx := fresh "Hx" in
  let Hy := fresh "Hy" in
  let c := fresh "c" in
  let b := fresh "b" in
  destruct st as [c b]; cbn [fst snd]; intros Hax Hay Hx Hy;
  unfold COLLISION_DAMPING, BOUNCE_FACTOR in *;
  stage_cases;
  cbn [fst snd Car.vx Car.vy Car.with_x Car.with_y Car.with_vx Car.with_vy];
  [|split; assumption];
  destruct b; unfold Rabs in *;
  repeat destruct (Rcase_abs _); split; lra.

Lemma wallLeft_damps (st : Car.t * bool) (pt : Point.t) (ax ay : R) :
  0 <= ax -> 0 <= ay ->
  Rabs (Car.vx (fst st)) <= (if snd st then COLLISION_DAMPING else 1) * ax ->
  Rabs (Car.vy (fst st)) <= (if snd st then COLLISION_DAMPING else 1) * ay ->
  Rabs (Car.vx (fst (wallLeft st pt)))
  <= (if snd (wallLeft st pt) then COLLISION_DAMPING else 1) * ax
  /\ Rabs (Car.vy (fst (wallLeft st pt)))
     <= (if snd (wallLeft st pt) then COLLISION_DAMPING else 1) * ay.
Proof. unfold wallLeft. wall_damps st. Qed.

Lemma wallRight_damps (st : Car.t * bool) (pt : Point.t) (ax ay : R) :
  0 <= ax -> 0 <= ay ->
  Rabs (Car.vx (fst st)) <= (if snd st then COLLISION_DAMPING else 1) * ax ->
  Rabs (Car.vy (fst st)) <= (if snd st then COLLISION_DAMPING else 1) * ay ->
  Rabs (Car.vx (fst (wallRight st pt)))
  <= (if snd (wallRight st pt) then COLLISION_DAMPING else 1) * ax
  /\ Rabs (Car.vy (fst (wallRight st pt)))
     <= (if snd (wallRight st pt) then COLLISION_DAMPING else 1) * ay.
Proof. unfold wallRight. wall_damps st. Qed.

Lemma wallTop_damps (st : Car.t * bool) (pt : Point.t) (ax ay : R) :
  0 <= ax -> 0 <= ay ->
  Rabs (Car.vx (fst st)) <= (if snd st then COLLISION_DAMPING else 1) * ax ->
  Rabs (Car.vy (fst st)) <= (if snd st then COLLISION_DAMPING else 1) * ay ->
  Rabs (Car.vx (fst (wallTop st pt)))
  <= (if snd (wallTop st pt) then COLLISION_DAMPING else 1) * ax
  /\ Rabs (Car.vy (fst (wallTop st pt)))
     <= (if snd (wallTop st pt) then COLLISION_DAMPING else 1) * ay.
Proof. unfold wallTop. wall_damps st. Qed.

Lemma wallBottom_damps (st : Car.t * bool) (pt : Point.t) (ax ay : R) :
  0 <= ax -> 0 <= ay ->
  Rabs (Car.vx (fst st)) <= (if snd st then COLLISION_DAMPING else 1) * ax ->
  Rabs (Car.vy (fst st)) <= (if snd st then COLLISION_DAMPING else 1) * ay ->
  Rabs (Car.vx (fst (wallBottom st pt)))
  <= (if snd (wallBottom st pt) then COLLISION_DAMPING else 1) * ax
  /\ Rabs (Car.vy (fst (wallBottom st pt)))
     <= (if snd (wallBottom st pt) then COLLISION_DAMPING else 1) * ay.
Proof. unfold wallBottom. wall_damps st. Qed.

Lemma wallCorner_damps (st : Car.t * bool) (pt : Point.t) (ax ay : R) :
  0 <= ax -> 0 <= ay ->
  Rabs (Car.vx (fst st)) <= (if snd st then COLLISION_DAMPING else 1) * ax ->
  Rabs (Car.vy (fst st)) <= (if snd st then COLLISION_DAMPING else 1) * ay ->
  Rabs (Car.vx (fst (wallCorner st pt)))
  <= (if snd (wallCorner st pt) then COLLISION_DAMPING else 1) * ax
  /\ Rabs (Car.vy (fst (wallCorner st pt)))
     <= (if snd (wallCorner st pt) then COLLISION_DAMPING else 1) * ay.
Proof.
  intros Hax Hay Hx Hy. unfold wallCorner.
  destruct (wallLeft_damps st pt ax ay Hax Hay Hx Hy) as [Hx1 Hy1].
  destruct (wallRight_damps _ pt ax ay Hax Hay Hx1 Hy1) as [Hx2 Hy2].
  destruct (wallTop_damps _ pt ax ay Hax Hay Hx2 Hy2) as [Hx3 Hy3].
  exact (wallBottom_damps _ pt ax ay Hax Hay Hx3 Hy3).
Qed.

Lemma fold_wallCorner_damps (corners : list Point.t) (st : Car.t * bool)
    (ax ay : R) :
  0 <= ax -> 0 <= ay ->
  Rabs (Car.vx (fst st)) <= (if snd st then COLLISION_DAMPING else 1) * ax ->
  Rabs (Car.vy (fst st)) <= (if snd st then COLLISION_DAMPING else 1) * ay ->
  Rabs (Car.vx (fst (fold_left wallCorner corners st)))
  <= (if snd (fold_left wallCorner corners st) then COLLISION_DAMPING else 1)
     * ax
  /\ Rabs (Car.vy (fst (fold_left wallCorner corners st)))
     <= (if snd (fold_left wallCorner corners st)
         then COLLISION_DAMPING else 1) * ay.
Proof.
  intros Hax Hay. revert st.
  induction corners as [|pt corners IH]; intros st Hx Hy.
  - cbn. split; assumption.
  - cbn [fold_left].
    destruct (wallCorner_damps st pt ax ay Hax Hay Hx Hy) as [Hx1 Hy1].
    apply IH; assumption.
Qed.

Lemma norm_le_scaled (k a b a' b' : R) :
  0 <= k -> Rabs a' <= k * Rabs a -> Rabs b' <= k * Rabs b ->
  sqrt (a' * a' + b' * b') <= k * sqrt (a * a + b * b).
Proof.
  intros Hk Ha Hb. rewrite <- norm_scaled by exact Hk.
  assert (Hsq : forall u v : R, Rabs u <= k * Rabs v ->
                                u * u <= k * v * (k * v)).
  { intros u v Huv.
    replace (u * u) with (Rabs u * Rabs u)
      by (unfold Rabs; destruct (Rcase_abs u); ring).
    replace (k * v * (k * v)) with (k * Rabs v * (k * Rabs v))
      by (unfold Rabs; destruct (Rcase_abs v); ring).
    apply Rmult_le_compat; try apply Rabs_pos; exact Huv. }
  pose proof (Hsq a' a Ha). pose proof (Hsq b' b Hb).
  pose proof (Rle_0_sqr a') as Ha0. pose proof (Rle_0_sqr b') as Hb0.
  unfold Rsqr in *.
  apply sqrt_le_1; lra.
Qed.

(** X11.  A wall never speeds a car up: after [handleWallCollisions]
    neither velocity component is larger in magnitude than before, and
    when a collision is reported both are at most COLLISION_DAMPING (0.7)
    times what they were, so the speed drops by at least 30 percent. *)
Theorem handleWallCollisions_slows (car : Car.t) (rnd : R) :
  let r := handleWallCollisions car rnd in
  Rabs (Car.vx (fst r)) <= Rabs (Car.vx car)
  /\ Rabs (Car.vy (fst r)) <= Rabs (Car.vy car)
  /\ speed (fst r) <= speed car
  /\ (snd r = true ->
      Rabs (Car.vx (fst r)) <= COLLISION_DAMPING * Rabs (Car.vx car)
      /\ Rabs (Car.vy (fst r)) <= COLLISION_DAMPING * Rabs (Car.vy car)
      /\ speed (fst r) <= COLLISION_DAMPING * speed car).
Proof.
  cbv zeta.
  pose proof (fold_wallCorner_damps (getCarCorners car) (car, false)
                (Rabs (Car.vx car)) (Rabs (Car.vy car))
                (Rabs_pos _) (Rabs_pos _)) as Hf.
  cbn [fst snd] in Hf. destruct Hf as [Hx Hy]; [lra | lra |].
  unfold handleWallCollisions.
  destruct (fold_left wallCorner (getCarCorners car) (car, false))
    as [c1 b1]. cbn [fst snd] in Hx, Hy.
  assert (Hvx : Car.vx (if b1
                        then Car.with_angularVel c1
                               (Car.angularVel c1 + (rnd - 0.5) * 0.1)
                        else c1) = Car.vx c1) by (destruct b1; reflexivity).
  assert (Hvy : Car.vy (if b1
                        then Car.with_angularVel c1
                               (Car.angularVel c1 + (rnd - 0.5) * 0.1)
                        else c1) = Car.vy c1) by (destruct b1; reflexivity).
  cbn [fst snd]. unfold speed. rewrite Hvx, Hvy.
  pose proof (Rabs_pos (Car.vx car)). pose proof (Rabs_pos (Car.vy car)).
  assert (Hk : (if b1 then COLLISION_DAMPING else 1) <= 1)
    by (destruct b1; unfold COLLISION_DAMPING; lra).
  assert (Hk0 : 0 <= (if b1 then COLLISION_DAMPING else 1))
    by (destruct b1; unfold COLLISION_DAMPING; lra).
  split; [nra|]. split; [nra|]. split.
  - replace (sqrt (Car.vx car * Car.vx car + Car.vy car * Car.vy car))
      with (1 * sqrt (Car.vx car * Car.vx car + Car.vy car * Car.vy car))
      by ring.
    apply norm_le_scaled; [lra | nra | nra].
  - intros ->. split; [exact Hx|]. split; [exact Hy|].
    apply norm_le_scaled; assumption.
Qed.

(** ** car.ts *)

(** X12.  The four points of [getCarCorners] are the corners of a
    rectangle of the car's width and height, centred on the car and turned
    by its angle: consecutive corners are [height], [width], [height],
    [width] apart, both diagonals have the centre as midpoint, and the
    first two corners are the front ones, their midpoint lying half a
    width ahead of the centre along the heading. *)
Theorem getCarCorners_rectangle (car : Car.t) :
  exists a b c d : Point.t,
    getCarCorners car = [a; b; c; d]
    /\ dist2 a b = Car.height car * Car.height car
    /\ dist2 b c = Car.width car * Car.width car
    /\ dist2 c d = Car.height car * Car.height car
    /\ dist2 d a = Car.width car * Car.width car
    /\ midpoint a c = Point.mk (Car.x car) (Car.y car)
    /\ midpoint b d = Point.mk (Car.x car) (Car.y car)
    /\ midpoint a b
       = Point.mk (Car.x car + cos (Car.angle car) * (Car.width car / 2))
           (Car.y car + sin (Car.angle car) * (Car.width car / 2)).
Proof.
  unfold getCarCorners. cbv zeta. do 4 eexists. split; [reflexivity|].
  pose proof (cos_sin_unit (Car.angle car)) as Hu.
  set (C := cos (Car.angle car)) in *. set (S := sin (Car.angle car)) in *.
  set (w := Car.width car). set (h := Car.height car).
  unfold dist2, midpoint. cbn [Point.x Point.y].
  assert (Hh : forall q : R, q * (C * C + S * S) = q) by (intros; rewrite Hu; ring).
  repeat split.
  - rewrite <- (Hh (h * h)). field.
  - rewrite <- (Hh (w * w)). field.
  - rewrite <- (Hh (h * h)). field.
  - rewrite <- (Hh (w * w)). field.
  - f_equal; field.
  - f_equal; field.
  - f_equal; field.
Qed.

(** X13.  The overlap test is symmetric in the two cars and looks at
    nothing but their centres and widths: turning either car leaves the
    answer unchanged. *)
Theorem checkCarCollision_symmetric (car1 car2 : Car.t) (a1 a2 : R) :
  checkCarCollision car1 car2 = checkCarCollision car2 car1
  /\ checkCarCollision (Car.with_angle car1 a1) (Car.with_angle car2 a2)
     = checkCarCollision car1 car2.
Proof.
  split; [|reflexivity]. unfold checkCarCollision. cbv zeta.
  replace ((Car.x car1 - Car.x car2) * (Car.x car1 - Car.x car2)
           + (Car.y car1 - Car.y car2) * (Car.y car1 - Car.y car2))
    with ((Car.x car2 - Car.x car1) * (Car.x car2 - Car.x car1)
          + (Car.y car2 - Car.y car1) * (Car.y car2 - Car.y car1)) by ring.
  replace (Car.width car2 + Car.width car1)
    with (Car.width car1 + Car.width car2) by ring.
  reflexivity.
Qed.

Lemma zoneOfRelative_congruent (u v : R) (m : Z) :
  - PI <= u <= PI -> - PI <= v <= PI -> u = v + 2 * PI * IZR m ->
  zoneOfRelative u = zoneOfRelative v.
Proof.
  intros Hu Hv Huv. pose proof PI_RGT_0 as Hpi.
  assert (Hm : (-2 < m < 2)%Z).
  { split; apply lt_IZR; simpl; nra. }
  destruct (zoneOfRelative_quadrants u) as (_ & _ & _ & Ru).
  destruct (zoneOfRelative_quadrants v) as (_ & _ & _ & Rv).
  assert (Hcases : m = (-1)%Z \/ m = 0%Z \/ m = 1%Z) by lia.
  destruct Hcases as [->|[->| ->]]; simpl in Huv.
  - transitivity Zrear; [apply Ru | symmetry; apply Rv]; [right|left]; lra.
  - f_equal. lra.
  - transitivity Zrear; [apply Ru | symmetry; apply Rv]; [left|right]; lra.
Qed.

Lemma zoneOfRelative_half_turn (u v : R) :
  - PI <= u <= PI -> v = (if Rleb u 0 then u + PI else u - PI) ->
  zoneOfRelative v = opposite (zoneOfRelative u).
Proof.
  intros Hu Hv. pose proof PI_RGT_0 as Hpi.
  destruct (zoneOfRelative_quadrants u) as (Fu & Gu & Lu & Ru).
  destruct (zoneOfRelative_quadrants v) as (Fv & Gv & Lv & Rv).
  destruct (Rleb u 0) eqn:H0;
    [apply Rleb_true in H0 | apply Rleb_false in H0];
    destruct (zoneOfRelative u); cbn [opposite];
    first [ pose proof (proj1 Fu eq_refl) | pose proof (proj1 Gu eq_refl)
          | pose proof (proj1 Lu eq_refl)
          | destruct (proj1 Ru eq_refl) ];
    first [ apply Fv; lra | apply Gv; lra | apply Lv; lra
          | apply Rv; left; lra | apply Rv; right; lra
          | exfalso; lra ].
Qed.

(** X14.  Within a hundred turns of the heading, the hit zone depends on
    the collision angle only up to full turns, and the two opposite
    directions fall in opposite zones: adding a whole number of turns to
    the collision angle gives the same zone, and adding a half turn gives
    front for rear, rear for front, left for right and right for left. *)
Theorem getHitZone_turns (car : Car.t) (collisionAngle : R) (k : Z) :
  fewTurns (collisionAngle - Car.angle car) ->
  fewTurns (collisionAngle + 2 * PI * IZR k - Car.angle car) ->
  fewTurns (collisionAngle + PI - Car.angle car) ->
  getHitZone car (collisionAngle + 2 * PI * IZR k)
  = getHitZone car collisionAngle
  /\ getHitZone car (collisionAngle + PI)
     = opposite (getHitZone car collisionAngle).
Proof.
  intros _ _ _.
  unfold getHitZone. cbv zeta. pose proof PI_RGT_0 as Hpi.
  set (r := collisionAngle - Car.angle car).
  replace (collisionAngle + 2 * PI * IZR k - Car.angle car)
    with (r + 2 * PI * IZR k) by (unfold r; ring).
  replace (collisionAngle + PI - Car.angle car) with (r + PI)
    by (unfold r; ring).
  destruct (wrapAngle_spec r) as (Hr & (j & Hj) & _).
  split.
  - destruct (wrapAngle_spec (r + 2 * PI * IZR k)) as (Hk & (j' & Hj') & _).
    apply (zoneOfRelative_congruent _ _ (k + j' - j)); try assumption.
    rewrite Hj', Hj, minus_IZR, plus_IZR. ring.
  - destruct (wrapAngle_spec (r + PI)) as (Hk & (j' & Hj') & _).
    set (v := if Rleb (wrapAngle r) 0 then wrapAngle r + PI
              else wrapAngle r - PI).
    rewrite <- (zoneOfRelative_half_turn (wrapAngle r) v Hr eq_refl).
    assert (Hv : - PI <= v <= PI).
    { unfold v. destruct (Rleb (wrapAngle r) 0) eqn:H0;
        [apply Rleb_true in H0 | apply Rleb_false in H0]; lra. }
    unfold v in *. clear v.
    destruct (Rleb (wrapAngle r) 0).
    + apply (zoneOfRelative_congruent _ _ (j' - j)); try assumption.
      rewrite Hj', Hj, minus_IZR. ring.
    + apply (zoneOfRelative_congruent _ _ (j' - j + 1)); try assumption.
      rewrite Hj', Hj, plus_IZR, minus_IZR. simpl. ring.
Qed.

(** The moving car of the scene, hit from straight ahead, three turns
    later, and from behind. *)
Lemma getHitZone_turns_witness :
  getHitZone sceneA (0 + 2 * PI * IZR 3) = getHitZone sceneA 0
  /\ getHitZone sceneA (0 + PI) = opposite (getHitZone sceneA 0).
Proof.
  pose proof PI_RGT_0 as Hpi.
  apply (getHitZone_turns sceneA 0 3); unfold fewTurns; cbn;
    rewrite Rabs_pos_eq; lra.
Defined.

(** ** physics.ts: the camera *)

(** One axis of [updateCamera]: follow the player out of the margins,
    then clamp to the world. *)
Lemma camera_axis (cam p margin canvas world : R) :
  0 <= margin -> 2 * margin <= canvas -> canvas <= world ->
  let cam1 :=
    if Rltb (p - cam) margin then p - margin
    else if Rltb (canvas - margin) (p - cam) then p - (canvas - margin)
    else cam in
  let cam' := Rmax 0 (Rmin (world - canvas) cam1) in
  0 <= cam' <= world - canvas
  /\ (0 <= p <= world -> 0 <= p - cam' <= canvas)
  /\ (margin <= p <= world - margin ->
      margin <= p - cam' <= canvas - margin).
Proof.
  intros Hm Hc Hw. cbv zeta.
  assert (H1 : exists cam1 : R,
             (if Rltb (p - cam) margin then p - margin
              else if Rltb (canvas - margin) (p - cam)
              then p - (canvas - margin) else cam) = cam1
             /\ margin <= p - cam1 <= canvas - margin).
  { eexists. split; [reflexivity|]. cmp_cases; lra. }
  destruct H1 as (cam1 & -> & Hs).
  unfold Rmax, Rmin.
  destruct (Rle_dec (world - canvas) cam1);
    destruct (Rle_dec 0 _); repeat split; intros; lra.
Qed.

(** X15.  After [updateCamera] the camera lies within the world
    ([0 <= x <= 1800], [0 <= y <= 1200]); a player inside the world is on
    screen; and a player at least a scroll margin (315 across, 210 down)
    from the world's edges is held between the two margins of the
    viewport. *)
Theorem updateCamera_follows (camera : Camera.t) (playerCar : Car.t) :
  let camera' := updateCamera camera playerCar in
  let screenX := Car.x playerCar - Camera.x camera' in
  let screenY := Car.y playerCar - Camera.y camera' in
  0 <= Camera.x camera' <= WORLD_WIDTH - CANVAS_WIDTH
  /\ 0 <= Camera.y camera' <= WORLD_HEIGHT - CANVAS_HEIGHT
  /\ (0 <= Car.x playerCar <= WORLD_WIDTH -> 0 <= screenX <= CANVAS_WIDTH)
  /\ (0 <= Car.y playerCar <= WORLD_HEIGHT -> 0 <= screenY <= CANVAS_HEIGHT)
  /\ (315 <= Car.x playerCar <= WORLD_WIDTH - 315 -> 315 <= screenX <= 585)
  /\ (210 <= Car.y playerCar <= WORLD_HEIGHT - 210 -> 210 <= screenY <= 390).
Proof.
  cbv zeta.
  pose proof (camera_axis (Camera.x camera) (Car.x playerCar)
                (CANVAS_WIDTH * SCROLL_THRESHOLD) CANVAS_WIDTH WORLD_WIDTH)
    as Hx.
  pose proof (camera_axis (Camera.y camera) (Car.y playerCar)
                (CANVAS_HEIGHT * SCROLL_THRESHOLD) CANVAS_HEIGHT WORLD_HEIGHT)
    as Hy.
  cbv zeta in Hx, Hy.
  assert (Ex : Camera.x (updateCamera camera playerCar)
               = Rmax 0
                   (Rmin (WORLD_WIDTH - CANVAS_WIDTH)
                      (if Rltb (Car.x playerCar - Camera.x camera)
                            (CANVAS_WIDTH * SCROLL_THRESHOLD)
                       then Car.x playerCar - CANVAS_WIDTH * SCROLL_THRESHOLD
                       else if Rltb (CANVAS_WIDTH
                                     - CANVAS_WIDTH * SCROLL_THRESHOLD)
                                 (Car.x playerCar - Camera.x camera)
                       then Car.x playerCar
                            - (CANVAS_WIDTH - CANVAS_WIDTH * SCROLL_THRESHOLD)
                       else Camera.x camera))).
  { unfold updateCamera. cbv zeta. stage_cases; reflexivity. }
  assert (Ey : Camera.y (updateCamera camera playerCar)
               = Rmax 0
                   (Rmin (WORLD_HEIGHT - CANVAS_HEIGHT)
                      (if Rltb (Car.y playerCar - Camera.y camera)
                            (CANVAS_HEIGHT * SCROLL_THRESHOLD)
                       then Car.y playerCar - CANVAS_HEIGHT * SCROLL_THRESHOLD
                       else if Rltb (CANVAS_HEIGHT
                                     - CANVAS_HEIGHT * SCROLL_THRESHOLD)
                                 (Car.y playerCar - Camera.y camera)
                       then Car.y playerCar
                            - (CANVAS_HEIGHT
                               - CANVAS_HEIGHT * SCROLL_THRESHOLD)
                       else Camera.y camera))).
  { unfold updateCamera. cbv zeta. stage_cases; reflexivity. }
  rewrite Ex, Ey.
  unfold CANVAS_WIDTH, CANVAS_HEIGHT, WORLD_WIDTH, WORLD_HEIGHT,
    SCROLL_THRESHOLD in *.
  destruct Hx as (Hx1 & Hx2 & Hx3); [lra | lra | lra |].
  destruct Hy as (Hy1 & Hy2 & Hy3); [lra | lra | lra |].
  split; [exact Hx1|]. split; [exact Hy1|]. split; [exact Hx2|].
  split; [exact Hy2|].
  split; intros H; [assert (Hs := Hx3 ltac:(lra)) | assert (Hs := Hy3 ltac:(lra))];
    lra.
Qed.

(** ** physics.ts: damage popups *)

Lemma updateDamagePopups_aged (popups : list DamagePopup.t) :
  updateDamagePopups popups
  = filter (fun p => Rltb (DamagePopup.age p) 60 = true)
      (map (aged 1) popups).
Proof. reflexivity. Qed.

Lemma aged_aged (n : nat) (p : DamagePopup.t) :
  aged 1 (aged n p) = aged (S n) p.
Proof.
  unfold aged. cbn [DamagePopup.x DamagePopup.y DamagePopup.damage
                      DamagePopup.zone DamagePopup.age].
  replace (DamagePopup.y p - INR n - INR 1)
    with (DamagePopup.y p - INR (S n)) by (rewrite S_INR; simpl; ring).
  replace (DamagePopup.age p + INR n + INR 1)
    with (DamagePopup.age p + INR (S n)) by (rewrite S_INR; simpl; ring).
  reflexivity.
Qed.

Lemma updateDamagePopups_step (popups : list DamagePopup.t) (n : nat) :
  updateDamagePopups
    (filter (fun p => Rltb (DamagePopup.age p) 60 = true)
       (map (aged (S n)) popups))
  = filter (fun p => Rltb (DamagePopup.age p) 60 = true)
      (map (aged (S (S n))) popups).
Proof.
  rewrite updateDamagePopups_aged.
  induction popups as [|p popups IH]; [reflexivity|].
  cbn [map]. rewrite !filter_cons.
  destruct (decide (Rltb (DamagePopup.age (aged (S n) p)) 60 = true))
    as [Hin|Hout].
  - cbn [map]. rewrite filter_cons, aged_aged, IH. reflexivity.
  - rewrite IH.
    destruct (decide (Rltb (DamagePopup.age (aged (S (S n)) p)) 60 = true))
      as [Hin'|_]; [|reflexivity].
    exfalso. apply Hout. apply Rltb_true. apply Rltb_true in Hin'.
    unfold aged in *. cbn [DamagePopup.age] in *.
    rewrite (S_INR (S n)) in Hin'. lra.
Qed.

(** X16.  Popups age by one and rise by one per update and are dropped
    when their age reaches 60: after [n + 1] updates the array holds, in
    order, exactly the popups whose age plus [n + 1] is below 60, each
    moved up by [n + 1].  So a popup created with age 0 is shown for 59
    updates and is gone after the 60th, and an update never lengthens the
    array. *)
Theorem updateDamagePopups_lifetime (popups : list DamagePopup.t) (n : nat) :
  Nat.iter (S n) updateDamagePopups popups
  = filter (fun p => Rltb (DamagePopup.age p) 60 = true)
      (map (aged (S n)) popups)
  /\ Forall (fun p => DamagePopup.age p < 60) (updateDamagePopups popups)
  /\ (length (updateDamagePopups popups) <= length popups)%nat
  /\ forall p : DamagePopup.t,
       DamagePopup.age p = 0 ->
       Nat.iter 59 updateDamagePopups [p] = [aged 59 p]
       /\ Nat.iter 60 updateDamagePopups [p] = [].
Proof.
  assert (Hiter : forall (l : list DamagePopup.t) (m : nat),
             Nat.iter (S m) updateDamagePopups l
             = filter (fun p => Rltb (DamagePopup.age p) 60 = true)
                 (map (aged (S m)) l)).
  { intros l m. induction m as [|m IH].
    - apply updateDamagePopups_aged.
    - change (Nat.iter (S (S m)) updateDamagePopups l)
        with (updateDamagePopups (Nat.iter (S m) updateDamagePopups l)).
      rewrite IH. apply updateDamagePopups_step. }
  split; [apply Hiter|]. split; [|split].
  - rewrite updateDamagePopups_aged. apply Forall_forall. intros p Hp.
    apply list_elem_of_filter in Hp. destruct Hp as [Hp _].
    apply Rltb_true in Hp. exact Hp.
  - rewrite updateDamagePopups_aged.
    etransitivity; [apply length_filter|]. rewrite length_map. reflexivity.
  - intros p Hp. rewrite (Hiter [p] 58%nat), (Hiter [p] 59%nat).
    cbn [map]. rewrite !filter_cons, !filter_nil.
    assert (H59 : DamagePopup.age (aged 59 p) < 60).
    { unfold aged. cbn [DamagePopup.age]. rewrite Hp.
      replace (INR 59) with 59 by (rewrite INR_IZR_INZ; reflexivity). lra. }
    assert (H60 : 60 <= DamagePopup.age (aged 60 p)).
    { unfold aged. cbn [DamagePopup.age]. rewrite Hp.
      replace (INR 60) with 60 by (rewrite INR_IZR_INZ; reflexivity). lra. }
    split.
    + destruct (decide (Rltb (DamagePopup.age (aged 59 p)) 60 = true))
        as [_|Hn]; [reflexivity|].
      exfalso. apply Hn. apply Rltb_true. exact H59.
    + destruct (decide (Rltb (DamagePopup.age (aged 60 p)) 60 = true))
        as [Hy|_]; [|reflexivity].
      exfalso. apply Rltb_true in Hy. lra.
Qed.

(** ** multiplayer.ts *)

(** X17.  A snapshot survives the trip through a car: turning a
    [PlayerState] into a car and back under its own id gives the snapshot
    again.  The other way round a car comes back with width 50, height 30
    and [isStatic] false, whatever it had, and so comes back unchanged
    exactly when it is a non-static car of the standard size. *)
Theorem snapshot_round_trip (state : PlayerState.t) (car : Car.t)
    (id : string) :
  let back := playerStateToCar (carToPlayerState car id) in
  carToPlayerState (playerStateToCar state) (PlayerState.id state) = state
  /\ (Car.x back, Car.y back, Car.vx back, Car.vy back, Car.angle back,
      Car.angularVel back, Car.color back, Car.health back)
     = (Car.x car, Car.y car, Car.vx car, Car.vy car, Car.angle car,
        Car.angularVel car, Car.color car, Car.health car)
  /\ Car.width back = CAR_WIDTH /\ Car.height back = CAR_HEIGHT
  /\ Car.isStatic back = false
  /\ (back = car <-> standardBody car /\ Car.isStatic car = false).
Proof.
  cbv zeta. destruct state as [sid sx sy svx svy sa sav scol shl].
  destruct car as [x y vx vy a av w h col hl st].
  unfold playerStateToCar, carToPlayerState, standardBody, CAR_WIDTH,
    CAR_HEIGHT. cbn.
  repeat (split; [reflexivity|]). split.
  - intros Heq. injection Heq as Hw Hh Hst. subst. repeat split; reflexivity.
  - intros [[-> ->] ->]. reflexivity.
Qed.

(** X18.  For a [Math.random()] result in [[0, 1)], [generateRandomColor]
    returns one of the ten palette colours, never [undefined]. *)
Theorem generateRandomColor_in_palette (rnd : R) :
  0 <= rnd < 1 ->
  exists color : string,
    generateRandomColor rnd = Some color /\ color ∈ colors.
Proof.
  intros [H0 H1]. unfold generateRandomColor, Array_at, Math_floor.
  change (INR (length colors)) with (INR 10).
  replace (INR 10) with 10 by (rewrite INR_IZR_INZ; reflexivity).
  assert (Hlo : (0 <= Zfloor (rnd * 10))%Z) by (apply Zfloor_lub; simpl; lra).
  assert (Hhi : (Zfloor (rnd * 10) < 10)%Z).
  { apply lt_IZR. pose proof (Zfloor_bound (rnd * 10)). lra. }
  replace (Zfloor (rnd * 10) <? 0)%Z with false by (symmetry; lia).
  destruct (lookup_lt_is_Some_2 colors (Z.to_nat (Zfloor (rnd * 10))))
    as [color Hcolor].
  { change (length colors) with 10%nat. lia. }
  exists color. split; [exact Hcolor|].
  apply list_elem_of_lookup_2 in Hcolor. exact Hcolor.
Qed.

Lemma generateRandomColor_in_palette_witness :
  exists color : string,
    generateRandomColor 0.35 = Some color /\ color ∈ colors.
Proof. apply generateRandomColor_in_palette. lra. Defined.

(** ** app/game/page.tsx: the spawn *)

(** X19.  For three [Math.random()] results in [[0, 1)] the car created
    at [getRandomSpawnPosition] has its centre at least 120 from every
    edge of the world, a heading in [[0, 2 PI)] and all four corners
    inside the arena, so the walls leave it untouched. *)
Theorem spawn_is_clear_of_walls (rx ry ra rnd : R) :
  0 <= rx < 1 -> 0 <= ry < 1 -> 0 <= ra < 1 ->
  let spawn := getRandomSpawnPosition rx ry ra in
  let car :=
    createCar (Spawn.x spawn) (Spawn.y spawn) "#e74c3c" (Spawn.angle spawn)
      false in
  120 <= Spawn.x spawn < WORLD_WIDTH - 120
  /\ 120 <= Spawn.y spawn < WORLD_HEIGHT - 120
  /\ 0 <= Spawn.angle spawn < 2 * PI
  /\ cornersInArena car
  /\ handleWallCollisions car rnd = (car, false).
Proof.
  intros Hx Hy Ha. cbv zeta. pose proof PI_RGT_0 as Hpi.
  unfold getRandomSpawnPosition. cbv zeta. cbn [Spawn.x Spawn.y Spawn.angle].
  assert (Bx : 120 <= WALL_THICKNESS + 100
                      + rx * (WORLD_WIDTH - (WALL_THICKNESS + 100) * 2)
               < WORLD_WIDTH - 120)
    by (unfold WALL_THICKNESS, WORLD_WIDTH; lra).
  assert (By : 120 <= WALL_THICKNESS + 100
                      + ry * (WORLD_HEIGHT - (WALL_THICKNESS + 100) * 2)
               < WORLD_HEIGHT - 120)
    by (unfold WALL_THICKNESS, WORLD_HEIGHT; lra).
  split; [exact Bx|]. split; [exact By|]. split; [nra|].
  set (x := WALL_THICKNESS + 100
            + rx * (WORLD_WIDTH - (WALL_THICKNESS + 100) * 2)) in *.
  set (y := WALL_THICKNESS + 100
            + ry * (WORLD_HEIGHT - (WALL_THICKNESS + 100) * 2)) in *.
  assert (Hin : cornersInArena (createCar x y "#e74c3c" (ra * PI * 2) false)).
  { apply createCar_in_arena; unfold WALL_THICKNESS in *; lra. }
  split; [exact Hin|].
  unfold handleWallCollisions.
  destruct (fold_wallCorner_outcome
              (getCarCorners (createCar x y "#e74c3c" (ra * PI * 2) false))
              (createCar x y "#e74c3c" (ra * PI * 2) false))
    as [[_ ->]|[Hnot _]]; [reflexivity|].
  exfalso. apply Hnot. exact Hin.
Qed.

Lemma spawn_is_clear_of_walls_witness :
  cornersInArena
    (createCar (Spawn.x (getRandomSpawnPosition 0 0 0))
       (Spawn.y (getRandomSpawnPosition 0 0 0)) "#e74c3c"
       (Spawn.angle (getRandomSpawnPosition 0 0 0)) false).
Proof. apply (spawn_is_clear_of_walls 0 0 0 0); lra. Defined.

(** ** app/game/page.tsx: input capture *)

Lemma applyDeadzone_range (value : R) :
  0 <= applyDeadzone value /\ (Rabs value <= 1 -> applyDeadzone value <= 1).
Proof.
  unfold applyDeadzone, deadzone. cbv zeta.
  destruct (Rltb (Rabs value) 0.15) eqn:H;
    [split; intros; lra | apply Rltb_false in H].
  replace ((Rabs value - 0.15) / (1 - 0.15))
    with ((Rabs value - 0.15) * (100 / 85))
    by (replace 0.15 with (15 / 100) by lra; field).
  split; intros; lra.
Qed.

Lemma Math_pow_range (base exponent : R) :
  0 <= exponent ->
  0 <= Math_pow base exponent /\ (base <= 1 -> Math_pow base exponent <= 1).
Proof.
  intros He. unfold Math_pow.
  destruct (Rltb 0 base) eqn:H; [apply Rltb_true in H | split; intros; lra].
  split.
  - unfold Rpower. left. apply exp_pos.
  - intros H1.
    assert (Hone : Rpower 1 exponent = 1)
      by (unfold Rpower; rewrite ln_1, Rmult_0_r; apply exp_0).
    apply Rle_trans with (Rpower 1 exponent); [|right; exact Hone].
    apply Rle_Rpower_l; [exact He | lra].
Qed.

Lemma handleJoystickMove_range (event : JoystickEvent.t) :
  let input := handleJoystickMove event in
  0 <= AnalogInput.forward input /\ 0 <= AnalogInput.reverse input
  /\ 0 <= AnalogInput.left input /\ 0 <= AnalogInput.right input
  /\ (Rabs (default 0 (JoystickEvent.y event)) <= 1 ->
      AnalogInput.forward input <= 1 /\ AnalogInput.reverse input <= 1)
  /\ (Rabs (default 0 (JoystickEvent.x event)) <= 1 ->
      AnalogInput.left input <= 1 /\ AnalogInput.right input <= 1).
Proof.
  cbv zeta. unfold handleJoystickMove, applySteeringCurve. cbv zeta.
  cbn [AnalogInput.forward AnalogInput.reverse AnalogInput.left
         AnalogInput.right].
  set (x := default 0 (JoystickEvent.x event)).
  set (y := default 0 (JoystickEvent.y event)).
  destruct (applyDeadzone_range x) as [Hx0 Hx1].
  destruct (applyDeadzone_range y) as [Hy0 Hy1].
  assert (He : 0 <= 1.5) by lra.
  destruct (Math_pow_range (applyDeadzone x) 1.5 He) as [Hp0 Hp1].
  repeat split; intros; stage_cases; try lra; auto.
Qed.

(** X20.  Whatever the joystick reports, [handleJoystickMove] writes four
    intensities that are not negative, of which forward and reverse are
    never both non-zero and left and right are never both non-zero; an
    event without coordinates writes four zeros; and when the stick is
    within its unit square all four are at most 1. *)
Theorem handleJoystickMove_intensities (event : JoystickEvent.t) :
  let input := handleJoystickMove event in
  0 <= AnalogInput.forward input /\ 0 <= AnalogInput.reverse input
  /\ 0 <= AnalogInput.left input /\ 0 <= AnalogInput.right input
  /\ (AnalogInput.forward input = 0 \/ AnalogInput.reverse input = 0)
  /\ (AnalogInput.left input = 0 \/ AnalogInput.right input = 0)
  /\ (stickInRange (JoystickMove event) -> unitInput input)
  /\ handleJoystickMove (JoystickEvent.mk None None) = handleJoystickStop.
Proof.
  cbv zeta.
  destruct (handleJoystickMove_range event) as (F & Rv & L & Rg & Hy & Hx).
  split; [exact F|]. split; [exact Rv|]. split; [exact L|].
  split; [exact Rg|]. split; [|split; [|split]].
  - unfold handleJoystickMove. cbv zeta.
    cbn [AnalogInput.forward AnalogInput.reverse].
    set (y := default 0 (JoystickEvent.y event)).
    destruct (Rltb deadzone y) eqn:H1; [|left; reflexivity].
    destruct (Rltb y (- deadzone)) eqn:H2; [|right; reflexivity].
    apply Rltb_true in H1, H2. unfold deadzone in *. lra.
  - unfold handleJoystickMove. cbv zeta.
    cbn [AnalogInput.left AnalogInput.right].
    set (x := default 0 (JoystickEvent.x event)).
    destruct (Rltb x (- deadzone)) eqn:H1; [|left; reflexivity].
    destruct (Rltb deadzone x) eqn:H2; [|right; reflexivity].
    apply Rltb_true in H1, H2. unfold deadzone in *. lra.
  - intros [Sx Sy]. destruct (Hy Sy), (Hx Sx). unfold unitInput. lra.
  - unfold handleJoystickMove, handleJoystickStop, deadzone. cbv zeta.
    cbn [default JoystickEvent.x JoystickEvent.y].
    cmp_eval. reflexivity.
Qed.

Lemma keySets_unit (input : AnalogInput.t) (key : string) (v : R) :
  0 <= v <= 1 -> unitInput input -> unitInput (keySets input key v).
Proof.
  intros Hv (F & Rv & L & Rg). unfold keySets, unitInput. cbv zeta.
  destruct (bool_decide (key = "ArrowUp") || bool_decide (key = "w"));
    destruct (bool_decide (key = "ArrowDown") || bool_decide (key = "s"));
    destruct (bool_decide (key = "ArrowLeft") || bool_decide (key = "a"));
    destruct (bool_decide (key = "ArrowRight") || bool_decide (key = "d"));
    cbn [AnalogInput.forward AnalogInput.reverse AnalogInput.left
           AnalogInput.right]; lra.
Qed.

(** X21.  The input record the tick reads stays within range: starting
    from the four zeros it is created with, after any sequence of key
    presses, key releases, joystick moves within the unit square and
    joystick stops, every intensity lies in [[0, 1]]. *)
Theorem input_stays_in_unit_range (events : list InputEvent) :
  Forall stickInRange events ->
  unitInput (fold_left onInput events (AnalogInput.mk 0 0 0 0)).
Proof.
  assert (Hstart : unitInput (AnalogInput.mk 0 0 0 0))
    by (unfold unitInput; cbn; lra).
  revert Hstart. generalize (AnalogInput.mk 0 0 0 0) as input.
  induction events as [|ev events IH]; intros input Hin Hall;
    [exact Hin|].
  apply Forall_cons in Hall. destruct Hall as [Hev Hall].
  cbn [fold_left]. apply IH; [|exact Hall].
  destruct ev as [event| |key|key]; cbn [onInput].
  - destruct (handleJoystickMove_range event) as (F & Rv & L & Rg & Hy & Hx).
    destruct Hev as [Sx Sy]. destruct (Hy Sy), (Hx Sx).
    unfold unitInput. lra.
  - unfold unitInput, handleJoystickStop. cbn. lra.
  - apply keySets_unit; [lra | exact Hin].
  - apply keySets_unit; [lra | exact Hin].
Qed.

Lemma input_stays_in_unit_range_witness :
  unitInput
    (fold_left onInput
       [KeyDown "w"; JoystickMove (JoystickEvent.mk (Some 0.5) None);
        KeyUp "w"]
       (AnalogInput.mk 0 0 0 0)).
Proof.
  apply input_stays_in_unit_range.
  repeat (first [apply Forall_nil | apply Forall_cons; split]);
    try exact I.
  unfold stickInRange. cbn.
  split; [rewrite Rabs_right; lra | rewrite Rabs_R0; lra].
Defined.

(** ** party/server.ts: the roster over a run of the relay *)

Lemma Players_set_keyed (relay : Relay.t) (sender : string)
    (value : PlayerState.t) :
  PlayerState.id value = sender -> keyedById (Relay.players relay) ->
  keyedById (Relay.players (Players_set relay sender value)).
Proof.
  intros Hid Hk k s Hs. rewrite Players_set_lookup in Hs.
  destruct (bool_decide (sender = k)) eqn:Hsk.
  - apply bool_decide_eq_true in Hsk. subst k.
    destruct (bool_decide (sender = "__proto__"));
      destruct (Relay.players relay !! sender);
      first [discriminate | injection Hs as <-; exact Hid].
  - apply Hk. exact Hs.
Qed.

Lemma relayStep_keyed (relay : Relay.t) (ev : RelayEvent) :
  keyedById (Relay.players relay) ->
  keyedById (Relay.players (fst (relayStep relay ev))).
Proof.
  intros Hk. destruct ev as [conn|sender data rx ry ra|conn];
    cbn [relayStep onConnect onClose fst]; [exact Hk| |].
  - destruct data as [state|color|]; cbn [onMessage fst].
    + destruct (Players_truthy relay sender); [|exact Hk].
      apply Players_set_keyed; [reflexivity | exact Hk].
    + apply Players_set_keyed; [reflexivity | exact Hk].
    + intros k s Hs. cbn [Players_delete Relay.players] in Hs.
      apply lookup_delete_Some in Hs. apply Hk. tauto.
  - intros k s Hs. cbn [Players_delete Relay.players] in Hs.
    apply lookup_delete_Some in Hs. apply Hk. tauto.
Qed.

Lemma relayRun_keyed (events : list RelayEvent) (relay : Relay.t) :
  keyedById (Relay.players relay) ->
  keyedById (Relay.players (relayRun events relay)).
Proof.
  revert relay. induction events as [|ev events IH]; intros relay Hk;
    [exact Hk|].
  unfold relayRun. cbn [fold_left]. apply IH. apply relayStep_keyed.
  exact Hk.
Qed.

Lemma relayStep_others (relay : Relay.t) (ev : RelayEvent) (k : string) :
  actor ev <> k ->
  Relay.players (fst (relayStep relay ev)) !! k = Relay.players relay !! k.
Proof.
  intros Hne. destruct ev as [conn|sender data rx ry ra|conn];
    cbn [relayStep onConnect onClose fst actor] in *; [reflexivity| |].
  - destruct data as [state|color|]; cbn [onMessage fst].
    + destruct (Players_truthy relay sender); [|reflexivity].
      rewrite Players_set_lookup.
      rewrite bool_decide_eq_false_2 by exact Hne. reflexivity.
    + rewrite Players_set_lookup.
      rewrite bool_decide_eq_false_2 by exact Hne. reflexivity.
    + apply lookup_delete_ne. exact Hne.
  - apply lookup_delete_ne. exact Hne.
Qed.

(** X22.  Over any run of the relay from the empty roster, every stored
    snapshot carries the connection id it is stored under, and one event
    changes no entry but that of the connection it comes from: a client
    can neither write another player's entry nor appear under another
    id. *)
Theorem relay_roster_is_keyed_by_connection (events : list RelayEvent)
    (relay : Relay.t) (ev : RelayEvent) (k : string) :
  keyedById (Relay.players (relayRun events newRelay))
  /\ (actor ev <> k ->
      Relay.players (fst (relayStep relay ev)) !! k
      = Relay.players relay !! k)
  /\ (keyedById (Relay.players relay) ->
      keyedById (Relay.players (fst (relayStep relay ev)))).
Proof.
  split; [|split].
  - apply relayRun_keyed. intros k' s Hs. cbn in Hs.
    rewrite lookup_empty in Hs. discriminate.
  - apply relayStep_others.
  - apply relayStep_keyed.
Qed.



(** ** The relay's broadcast as the client receives it *)

Lemma last_all_equal {A : Type} (l : list A) (a : A) :
  l <> [] -> (forall b : A, b ∈ l -> b = a) -> last l = Some a.
Proof.
  induction l as [|b l IH]; intros Hne Hall; [congruence|].
  destruct l as [|c l].
  - cbn. f_equal. apply Hall. apply list_elem_of_here.
  - rewrite last_cons. rewrite IH; [reflexivity | discriminate |].
    intros b' Hb'. apply Hall. apply list_elem_of_further. exact Hb'.
Qed.

Lemma listedAs_rosterJson (players : gmap string PlayerState.t)
    (k : string) :
  keyedById players ->
  last (listedAs k (rosterJson players)) = players !! k.
Proof.
  intros Hk. unfold listedAs, rosterJson, Object_values.
  assert (Hmem : forall s : PlayerState.t,
             s ∈ filter (fun p => PlayerState.id p = k)
                   (map snd (map_to_list players))
             <-> players !! k = Some s).
  { intros s. rewrite list_elem_of_filter, list_elem_of_fmap. split.
    - intros [Hid ([k' s'] & Heq & Hin)]. cbn in Heq. subst s'.
      apply elem_of_map_to_list in Hin. rewrite (Hk k' s Hin) in Hid.
      subst k'. exact Hin.
    - intros Hs. split; [apply (Hk k s Hs)|].
      exists (k, s). split; [reflexivity|].
      apply elem_of_map_to_list. exact Hs. }
  destruct (players !! k) as [s|] eqn:Hs.
  - apply last_all_equal.
    + intros Hnil. pose proof (proj2 (Hmem s) eq_refl) as Hin.
      rewrite Hnil in Hin. apply elem_of_nil in Hin. exact Hin.
    + intros b Hb. apply Hmem in Hb. congruence.
  - destruct (last _) as [s|] eqn:Hl; [|reflexivity].
    apply last_Some_elem_of in Hl. apply Hmem in Hl. discriminate.
Qed.

(** X24.  The relay's roster broadcast, received by a client: when the
    roster is keyed by connection id (as every roster the relay reaches
    is), after the ["players"] message the client tracks exactly the
    roster's entries other than its own, each with the relay's snapshot
    as its target; an id the roster lacks is not tracked. *)
Theorem roster_broadcast_is_tracked (players : gmap string PlayerState.t)
    (h : Hook.t) (k : string) :
  keyedById players ->
  let h' := onmessage h (MsgPlayers (rosterJson players)) in
  Map_get k (Hook.otherPlayersRef h')
  = (if isOther (Hook.playerIdRef h) k
     then reconciled (Hook.otherPlayersRef h) <$> players !! k
     else None)
  /\ (forall r : InterpolatedCar.t,
        Map_get k (Hook.otherPlayersRef h') = Some r ->
        exists s : PlayerState.t,
          players !! k = Some s
          /\ InterpolatedCar.target r = playerStateToCar s).
Proof.
  intros Hk. cbv zeta. cbn [onmessage Hook.otherPlayersRef].
  assert (Hget :
    Map_get k
      (fold_left (playersEntry (Hook.playerIdRef h) (Hook.otherPlayersRef h))
         (Object_values (rosterJson players)) [])
    = if isOther (Hook.playerIdRef h) k
      then reconciled (Hook.otherPlayersRef h) <$> players !! k
      else None).
  { rewrite fold_playersEntry_get.
    fold (listedAs k (rosterJson players)).
    rewrite (listedAs_rosterJson players k Hk).
    destruct (isOther (Hook.playerIdRef h) k); [|reflexivity].
    destruct (players !! k); reflexivity. }
  split; [exact Hget|].
  intros r Hr. rewrite Hget in Hr.
  destruct (isOther (Hook.playerIdRef h) k); [|discriminate].
  destruct (players !! k) as [s|]; [|discriminate].
  exists s. split; [reflexivity|].
  cbn [fmap option_fmap option_map] in Hr. injection Hr as <-.
  unfold reconciled.
  destruct (Map_get (PlayerState.id s) (Hook.otherPlayersRef h)); reflexivity.
Qed.

Lemma roster_broadcast_is_tracked_witness :
  Map_get "b"
    (Hook.otherPlayersRef
       (onmessage hookOfA
          (MsgPlayers (rosterJson (<["b" := stateOfB]> ∅)))))
  = (if isOther (Hook.playerIdRef hookOfA) "b"
     then reconciled (Hook.otherPlayersRef hookOfA)
            <$> (<["b" := stateOfB]> ∅ : gmap string PlayerState.t) !! "b"
     else None).
Proof.
  apply (roster_broadcast_is_tracked (<["b" := stateOfB]> ∅) hookOfA "b").
  intros k s Hs. destruct (decide ("b" = k)) as [<-|Hne].
  - rewrite lookup_insert_eq in Hs. injection Hs as <-. reflexivity.
  - rewrite lookup_insert_ne in Hs by exact Hne.
    rewrite lookup_empty in Hs. discriminate.
Defined.

(** ** hooks/useMultiplayer.ts: the tracked map over any messages *)

Lemma fold_welcomeEntry_self (self : string) (ps : list PlayerState.t)
    (acc : JsMap InterpolatedCar.t) :
  Map_get self (fold_left (welcomeEntry self) ps acc) = Map_get self acc.
Proof.
  revert acc. induction ps as [|p ps IH]; intros acc; [reflexivity|].
  cbn [fold_left]. rewrite IH. unfold welcomeEntry.
  destruct (bool_decide (PlayerState.id p = self)) eqn:Hb;
    cbn [negb]; [reflexivity|].
  apply bool_decide_eq_false in Hb. apply Map_get_set_ne. exact Hb.
Qed.

Lemma onmessage_self (h : Hook.t) (message : ServerMessage) :
  (forall self : string,
      Hook.playerIdRef h = Some self ->
      Map_get self (Hook.otherPlayersRef h) = None) ->
  Hook.playerCount h = (length (Hook.otherPlayersRef h) + 1)%nat ->
  (forall self : string,
      Hook.playerIdRef (onmessage h message) = Some self ->
      Map_get self (Hook.otherPlayersRef (onmessage h message)) = None)
  /\ Hook.playerCount (onmessage h message)
     = (length (Hook.otherPlayersRef (onmessage h message)) + 1)%nat.
Proof.
  intros Hself Hcount.
  destruct message as [players|player|id|id players]; cbn [onmessage].
  - split; [|reflexivity]. cbn [Hook.playerIdRef Hook.otherPlayersRef].
    intros self Hs. rewrite fold_playersEntry_get, Hs.
    unfold isOther. rewrite bool_decide_eq_true_2 by reflexivity.
    reflexivity.
  - destruct (isOther (Hook.playerIdRef h) (PlayerState.id player)) eqn:Ho;
      [|split; assumption].
    split; [|reflexivity]. cbn [Hook.playerIdRef Hook.otherPlayersRef].
    intros self Hs. rewrite Hs in Ho. unfold isOther in Ho.
    apply negb_true_iff, bool_decide_eq_false in Ho.
    rewrite Map_get_set_ne by exact Ho. apply Hself. exact Hs.
  - split; [|reflexivity]. cbn [Hook.playerIdRef Hook.otherPlayersRef].
    intros self Hs. destruct (decide (id = self)) as [->|Hne].
    + apply Map_get_delete_eq.
    + rewrite Map_get_delete_ne by exact Hne. apply Hself. exact Hs.
  - split; [|reflexivity]. cbn [Hook.playerIdRef Hook.otherPlayersRef].
    intros self Hs. injection Hs as ->. apply fold_welcomeEntry_self.
Qed.

(** X25.  A client never tracks itself and its count never drifts: after
    any sequence of server messages, starting from the hook as it is
    created, the id the client was given is absent from the map of other
    players (so the tick never collides the player with its own
    snapshot), and [playerCount] is the number of tracked players plus
    one. *)
Theorem client_never_tracks_itself (messages : list ServerMessage) :
  let h := fold_left onmessage messages initialHook in
  (forall self : string,
      Hook.playerIdRef h = Some self ->
      Map_get self (Hook.otherPlayersRef h) = None)
  /\ Hook.playerCount h = (length (Hook.otherPlayersRef h) + 1)%nat.
Proof.
  cbv zeta.
  assert (Hstart :
    (forall self : string,
        Hook.playerIdRef initialHook = Some self ->
        Map_get self (Hook.otherPlayersRef initialHook) = None)
    /\ Hook.playerCount initialHook
       = (length (Hook.otherPlayersRef initialHook) + 1)%nat).
  { split; [intros self Hs; discriminate | reflexivity]. }
  revert Hstart. generalize initialHook as h.
  induction messages as [|message messages IH]; intros h Hh; [exact Hh|].
  cbn [fold_left]. apply IH. destruct Hh as [Hself Hcount].
  apply onmessage_self; assumption.
Qed.

(** ** The relay's welcome as the client receives it *)

Lemma fold_welcomeEntry_get (self id : string) (ps : list PlayerState.t)
    (acc : JsMap InterpolatedCar.t) :
  Map_get id (fold_left (welcomeEntry self) ps acc)
  = if bool_decide (id = self) then Map_get id acc
    else match last (filter (fun p => PlayerState.id p = id) ps) with
         | Some p => Some (freshRecord (playerStateToCar p))
         | None => Map_get id acc
         end.
Proof.
  revert acc. induction ps as [|p ps IH]; intros acc.
  - cbn. destruct (bool_decide (id = self)); reflexivity.
  - cbn [fold_left]. rewrite IH, filter_cons. unfold welcomeEntry at 1 2.
    destruct (bool_decide (id = self)) eqn:Hs.
    + apply bool_decide_eq_true in Hs. subst id.
      destruct (bool_decide (PlayerState.id p = self)) eqn:Hp;
        cbn [negb]; [reflexivity|].
      apply bool_decide_eq_false in Hp. apply Map_get_set_ne. exact Hp.
    + apply bool_decide_eq_false in Hs.
      destruct (decide (PlayerState.id p = id)) as [Hid|Hid].
      * rewrite last_cons.
        destruct (last (filter (fun p0 => PlayerState.id p0 = id) ps));
          [reflexivity|].
        rewrite Hid. rewrite bool_decide_eq_false_2 by exact Hs.
        cbn [negb]. apply Map_get_set_eq.
      * destruct (last (filter (fun p0 => PlayerState.id p0 = id) ps));
          [reflexivity|].
        destruct (bool_decide (PlayerState.id p = self)); cbn [negb];
          [reflexivity|].
        apply Map_get_set_ne. exact Hid.
Qed.

(** X26.  The handshake: a connection that opens is sent, alone, one
    ["welcome"] with its own connection id and the roster, and the roster
    is not changed by it (connecting is not joining).  A client that
    receives this message takes the id as its own and tracks exactly the
    roster's other entries, each as a fresh record whose current and
    target are both the relay's snapshot. *)
Theorem welcome_handshake (players : gmap string PlayerState.t)
    (prototype : option PlayerState.t)
    (conn : string) (h : Hook.t) (k : string) :
  keyedById players ->
  let h' := onmessage h (MsgWelcome conn (rosterJson players)) in
  relayStep (Relay.mk players prototype) (EvConnect conn)
  = (Relay.mk players prototype,
     [Send conn (MsgWelcome conn (rosterJson players))])
  /\ Hook.playerIdRef h' = Some conn
  /\ Map_get k (Hook.otherPlayersRef h')
     = (if bool_decide (k = conn) then None
        else (fun s => freshRecord (playerStateToCar s)) <$> players !! k).
Proof.
  intros Hk. cbv zeta. split; [reflexivity|]. split; [reflexivity|].
  cbn [onmessage Hook.otherPlayersRef].
  rewrite fold_welcomeEntry_get.
  fold (listedAs k (rosterJson players)).
  rewrite (listedAs_rosterJson players k Hk).
  destruct (bool_decide (k = conn)); [reflexivity|].
  destruct (players !! k); reflexivity.
Qed.

Lemma welcome_handshake_witness :
  Hook.playerIdRef
    (onmessage initialHook
       (MsgWelcome "a" (rosterJson (<["b" := stateOfB]> ∅))))
  = Some "a".
Proof.
  apply (welcome_handshake (<["b" := stateOfB]> ∅) None "a" initialHook "b").
  intros k s Hs. destruct (decide ("b" = k)) as [<-|Hne].
  - rewrite lookup_insert_eq in Hs. injection Hs as <-. reflexivity.
  - rewrite lookup_insert_ne in Hs by exact Hne.
    rewrite lookup_empty in Hs. discriminate.
Defined.

(** ** app/game/page.tsx: what a tick leaves alone *)

Lemma Forall2_same_keys {A B : Type} (P : A -> B -> Prop)
    (l : list (string * A)) (l' : list (string * B)) :
  Forall2 (fun old new => fst new = fst old /\ P (snd old) (snd new)) l l' ->
  map fst l' = map fst l.
Proof.
  induction 1 as [|old new l l' [Hk _] _ IH]; [reflexivity|].
  cbn [map]. rewrite Hk, IH. reflexivity.
Qed.

(** X27.  A tick neither adds nor removes a tracked player: after
    [updatePhysics] the map of other players holds the same ids in the
    same order, the client's own id and the player count are unchanged,
    and every popup that is left is younger than 60. *)
Theorem updatePhysics_keeps_roster (env : TickEnv.t) (input : AnalogInput.t)
    (g : Game.t) :
  let g' := updatePhysics env input g in
  map fst (Hook.otherPlayersRef (Game.hook g'))
  = map fst (Hook.otherPlayersRef (Game.hook g))
  /\ Hook.playerIdRef (Game.hook g') = Hook.playerIdRef (Game.hook g)
  /\ Hook.playerCount (Game.hook g') = Hook.playerCount (Game.hook g)
  /\ Forall (fun p => DamagePopup.age p < 60) (Game.damagePopups g').
Proof.
  cbv zeta. pose proof (tick_others env input g) as Hkeys.
  apply (Forall2_same_keys
           (fun old new => exists c : Car.t, new = writeCurrent old c))
    in Hkeys.
  split.
  - rewrite Hkeys. unfold interpolateOtherPlayers.
    rewrite map_map. reflexivity.
  - unfold updatePhysics.
    destruct (updatePlayerCarPhysics (Game.playerCar g) input) as [p1 sp].
    destruct (collideOthers env p1 _ _ _) as [[[p2 times2] popups2] others2].
    destruct (handleWallCollisions p2 (TickEnv.wallRandom env)) as [p3 hit].
    cbn [Game.hook Game.damagePopups Hook.playerIdRef Hook.playerCount].
    split; [reflexivity|]. split; [reflexivity|].
    rewrite updateDamagePopups_aged. apply Forall_forall. intros p Hp.
    apply list_elem_of_filter in Hp. destruct Hp as [Hp _].
    apply Rltb_true in Hp. exact Hp.
Qed.

(** ** physics.ts: cars on the same spot *)

(** X28.  Two cars whose centres coincide are left as they are: although
    [checkCarCollision] reports an overlap, [handleCarCollision] returns
    at its [distance === 0] guard, so neither car is pushed, slowed or
    damaged, no popup is added and the time it was given comes back. *)
Theorem handleCarCollision_coincident (p t : Car.t) (lastCollisionTime : Z)
    (damagePopups : list DamagePopup.t) (rnd1 rnd2 : R) (now : Z) :
  Car.x p = Car.x t -> Car.y p = Car.y t ->
  handleCarCollision p t lastCollisionTime damagePopups rnd1 rnd2 now
  = (p, t, damagePopups, lastCollisionTime)
  /\ (0 < Car.width p + Car.width t -> checkCarCollision p t = true).
Proof.
  intros Hx Hy.
  assert (Hd : centerDistance p t = 0).
  { unfold centerDistance. cbv zeta. rewrite Hx, Hy.
    replace ((Car.x t - Car.x t) * (Car.x t - Car.x t)
             + (Car.y t - Car.y t) * (Car.y t - Car.y t)) with 0 by ring.
    apply sqrt_0. }
  split.
  - unfold handleCarCollision.
    destruct (checkCarCollision p t); cbn [negb]; [|reflexivity].
    rewrite Hd.
    replace (Reqb 0 0) with true by (symmetry; apply Reqb_true; reflexivity).
    rewrite orb_true_r. reflexivity.
  - intros Hw. unfold checkCarCollision. cbv zeta.
    change (sqrt _) with (centerDistance p t). rewrite Hd.
    apply Rltb_true. lra.
Qed.

Lemma handleCarCollision_coincident_witness :
  handleCarCollision sceneA (Car.with_x sceneB 0) 0 [] 0 0 1000
  = (sceneA, Car.with_x sceneB 0, [], 0%Z).
Proof.
  apply (handleCarCollision_coincident sceneA (Car.with_x sceneB 0));
    reflexivity.
Defined.
